(** * AVL rank tree (avl.hpp): shallow embedding and verification

    The C++ class [AVL::AVLRankTree<Key, Value, Number, RankInfo, Compare>]
    is embedded as follows.

    - [Number] (default [long long]) is [Z].  Every number the tree stores is
      a height or an element count, bounded by the number of allocated nodes,
      so no wrap-around is reachable.
    - A [Node *] that owns its subtree (the [left_child] / [right_child]
      links and [root]) is a value of the inductive type [Node]; [NULL] is a
      constructor.
    - A non-owning [Node *] ([min_node], [max_node], the results of the
      traversals) is a [ptr]: the position of the node below the root, as the
      list of links followed from the root, or [None] for a null pointer.
      [node->parent] is the position without its last link.
    - Dereferencing a null pointer and reading an array out of bounds are
      undefined behaviour: functions that can do so return an [option], and
      [None] stands for that fault.
    - [Compare] and [RankInfo] are template parameters: type classes. *)

From Stdlib Require Import ZArith List Bool Lia Sorted Permutation.
Import ListNotations.
Local Open Scope Z_scope.

Set Implicit Arguments.

(** ** Enumerations *)

Inductive COMPARE_RESULT : Type := LESS_THAN | EQUAL | GREATER_THAN.

Inductive NODE_POSITION : Type := ROOT | LEFT_CHILD | RIGHT_CHILD.

Definition COMPARE_RESULT_eqb (a b : COMPARE_RESULT) : bool :=
  match a, b with
  | LESS_THAN, LESS_THAN | EQUAL, EQUAL | GREATER_THAN, GREATER_THAN => true
  | _, _ => false
  end.

Definition NODE_POSITION_eqb (a b : NODE_POSITION) : bool :=
  match a, b with
  | ROOT, ROOT | LEFT_CHILD, LEFT_CHILD | RIGHT_CHILD, RIGHT_CHILD => true
  | _, _ => false
  end.

(** ** The pluggable interfaces *)

(** [Compare]: the function object called as [compare(key1, key2)]. *)
Class Compare (Key : Type) : Type :=
  compare : Key -> Key -> COMPARE_RESULT.

(** [RankInfo]: default constructor, constructor from a key and a value,
    [operator+=], [operator-=] and the public member [rank] that
    [FindIndexTraverse], [GetIndexOfKeyTraverse] and [CollectRank] read. *)
Class RankInfo (Key Value R : Type) : Type := {
  rank_new : R;
  rank_of : Key -> Value -> R;
  rank_add : R -> R -> R;
  rank_sub : R -> R -> R;
  rank_num : R -> Z
}.

(** [AVL::CompareFunc<Key>] at an integer key type. *)
#[export] Instance CompareFunc : Compare Z := fun key1 key2 =>
  if key1 <? key2 then LESS_THAN
  else if key1 >? key2 then GREATER_THAN
  else EQUAL.

(** [AVL::DefaultRank<Key, Value, Number>]: the element count. *)
#[export] Instance DefaultRank (Key Value : Type) : RankInfo Key Value Z := {
  rank_new := 0;
  rank_of := fun _ _ => 1;
  rank_add := fun a b => a + b;
  rank_sub := fun a b => a - b;
  rank_num := fun a => a
}.

(** ** Faults *)

Notation "x <- e ;; k" :=
  (match e with Some x => k | None => None end)
  (at level 61, e at next level, right associativity).

Notation "' ( x , y ) <- e ;; k" :=
  (match e with Some (x, y) => k | None => None end)
  (at level 61, e at next level, x name, y name, right associativity).

(** ** Nodes and pointers *)

Inductive link : Type := to_left | to_right.

Definition ptr : Type := option (list link).

Section Tree.

Context {Key Value R : Type}.
Context {comparing_func : Compare Key}.
Context {rank_ops : RankInfo Key Value R}.

Inductive Node : Type :=
| NULL : Node
| Nd (left_child : Node) (key : Key) (value : Value) (height : Z) (rank : R)
     (right_child : Node) : Node.

Definition is_null (n : Node) : bool :=
  match n with NULL => true | Nd _ _ _ _ _ _ => false end.

(** The node reached from [t] along a path; [NULL] when the path leaves the
    tree. *)
Fixpoint node_at (t : Node) (p : list link) {struct p} : Node :=
  match p with
  | [] => t
  | d :: p' =>
    match t with
    | NULL => NULL
    | Nd l _ _ _ _ r =>
      match d with to_left => node_at l p' | to_right => node_at r p' end
    end
  end.

Definition deref (root : Node) (p : ptr) : Node :=
  match p with None => NULL | Some path => node_at root path end.

Definition under (d : link) (p : ptr) : ptr :=
  match p with None => None | Some path => Some (d :: path) end.

(** [AVL::KeyValuePair]. *)
Record KeyValuePair : Type := { pair_key : Key; pair_value : Value }.

(** [new KeyValuePair(node->key, node->value)] for a non-null [node]. *)
Definition pair_of (n : Node) : option KeyValuePair :=
  match n with
  | NULL => None
  | Nd _ k v _ _ _ => Some {| pair_key := k; pair_value := v |}
  end.

(** [AVL::QueryResult]: the array [result] and its length [total]. *)
Record QueryResult : Type := {
  result : list KeyValuePair;
  total : Z
}.

(** [AVL::FilterObject]. *)
Record FilterObject : Type := {
  limit : Z;
  reverse : bool;
  min_range : option Key;
  max_range : option Key;
  FilterFunction : option (Key -> Value -> bool)
}.

(** [FilterObject()]. *)
Definition default_filter : FilterObject :=
  {| limit := -1; reverse := false; min_range := None; max_range := None;
     FilterFunction := None |}.

(** ** Rotations and balance *)

Definition UpdateRank (target child_node1 child_node2 : Node) : Node :=
  match target with
  | NULL => NULL
  | Nd l k v h _ r =>
    let tmp := rank_of k v in
    let tmp :=
      match child_node1 with
      | NULL => tmp
      | Nd _ _ _ _ rk1 _ => rank_add tmp rk1
      end in
    let tmp :=
      match child_node2 with
      | NULL => tmp
      | Nd _ _ _ _ rk2 _ => rank_add tmp rk2
      end in
    Nd l k v h tmp r
  end.

Definition GetHeight (node : Node) : Z :=
  match node with NULL => -1 | Nd _ _ _ h _ _ => h end.

Definition RotateR (node : Node) : option Node :=
  match node with
  | NULL => None
  | Nd y xk xv _ xrk x_right =>
    match y with
    | NULL => None
    | Nd y_left yk yv _ yrk y_right =>
      let x := Nd y_right xk xv
                  (Z.max (GetHeight y_right) (GetHeight x_right) + 1)
                  xrk x_right in
      let yh := Z.max (GetHeight y_left) (GetHeight x) + 1 in
      let x := UpdateRank x y_right x_right in
      Some (UpdateRank (Nd y_left yk yv yh yrk x) y_left x)
    end
  end.

Definition RotateL (node : Node) : option Node :=
  match node with
  | NULL => None
  | Nd x_left xk xv _ xrk y =>
    match y with
    | NULL => None
    | Nd y_left yk yv _ yrk y_right =>
      let x := Nd x_left xk xv
                  (Z.max (GetHeight y_left) (GetHeight x_left) + 1)
                  xrk y_left in
      let yh := Z.max (GetHeight y_right) (GetHeight x) + 1 in
      let x := UpdateRank x y_left x_left in
      Some (UpdateRank (Nd x yk yv yh yrk y_right) y_right x)
    end
  end.

Definition GetBalance (node : Node) : option Z :=
  match node with
  | NULL => None
  | Nd l _ _ _ _ r => Some (GetHeight l - GetHeight r)
  end.

Definition get_left (node : Node) : Node :=
  match node with NULL => NULL | Nd l _ _ _ _ _ => l end.

Definition get_right (node : Node) : Node :=
  match node with NULL => NULL | Nd _ _ _ _ _ r => r end.

Definition set_left (node l : Node) : Node :=
  match node with NULL => NULL | Nd _ k v h rk r => Nd l k v h rk r end.

Definition set_right (node r : Node) : Node :=
  match node with NULL => NULL | Nd l k v h rk _ => Nd l k v h rk r end.

(** [a == c && test(GetBalance(child))]: the right operand is evaluated
    only when the left one holds. *)
Definition balance_is (b c : Z) (child : Node) (test : Z -> bool)
  : option bool :=
  if b =? c then (bc <- GetBalance child ;; Some (test bc)) else Some false.

Definition Balance (node : Node) : option Node :=
  b <- GetBalance node ;;
  ll <- balance_is b 2 (get_left node) (fun bc => bc >=? 0) ;;
  if ll then RotateR node else
  rr <- balance_is b (-2) (get_right node) (fun bc => bc <=? 0) ;;
  if rr then RotateL node else
  lr <- balance_is b 2 (get_left node) (fun bc => bc <? 0) ;;
  if lr then
    (l' <- RotateL (get_left node) ;; RotateR (set_left node l'))
  else
  rl <- balance_is b (-2) (get_right node) (fun bc => bc >? 0) ;;
  if rl then
    (r' <- RotateR (get_right node) ;; RotateL (set_right node r'))
  else Some node.

(** ** Private traversals *)

Fixpoint FindMin (node : Node) : ptr :=
  match node with
  | NULL => None
  | Nd l _ _ _ _ _ =>
    match l with
    | NULL => Some []
    | Nd _ _ _ _ _ _ => under to_left (FindMin l)
    end
  end.

Fixpoint FindMax (node : Node) : ptr :=
  match node with
  | NULL => None
  | Nd _ _ _ _ _ r =>
    match r with
    | NULL => Some []
    | Nd _ _ _ _ _ _ => under to_right (FindMax r)
    end
  end.

(** [GetNodePosition]: [tree] is the tree the node lives in and [up] the
    position of [node] written from the node to the root, so its tail is the
    position of [node->parent]. *)
Definition GetNodePosition (tree : Node) (up : list link)
  : option NODE_POSITION :=
  match node_at tree (rev up) with
  | NULL => None
  | Nd _ nk _ _ _ _ =>
    match up with
    | [] => Some ROOT
    | _ :: parent =>
      match node_at tree (rev parent) with
      | NULL => None
      | Nd pl _ _ _ _ pr =>
        match pl with
        | NULL => Some RIGHT_CHILD
        | Nd _ plk _ _ _ _ =>
          match pr with
          | NULL => Some LEFT_CHILD
          | Nd _ _ _ _ _ _ =>
            Some (if COMPARE_RESULT_eqb (compare plk nk) EQUAL
                  then LEFT_CHILD else RIGHT_CHILD)
          end
        end
      end
    end
  end.

Fixpoint FindTraverse (node : Node) (key : Key) : ptr :=
  match node with
  | NULL => None
  | Nd l k _ _ _ r =>
    match compare key k with
    | EQUAL => Some []
    | LESS_THAN => under to_left (FindTraverse l key)
    | GREATER_THAN => under to_right (FindTraverse r key)
    end
  end.

(** [ClosestTraverse] writes through [result_node]; the function returns
    the final content of that cell.  [here] is the position of [node]. *)
Fixpoint ClosestTraverse (here : list link) (node : Node) (key : Key)
         (result_node : ptr) (range : COMPARE_RESULT) : ptr :=
  match node with
  | NULL => result_node
  | Nd l k _ _ _ r =>
    match compare key k with
    | EQUAL => Some here
    | LESS_THAN =>
      let result_node :=
        if COMPARE_RESULT_eqb range GREATER_THAN then Some here
        else result_node in
      ClosestTraverse (here ++ [to_left]) l key result_node range
    | GREATER_THAN =>
      let result_node :=
        if COMPARE_RESULT_eqb range LESS_THAN then Some here
        else result_node in
      ClosestTraverse (here ++ [to_right]) r key result_node range
    end
  end.

Definition GetRelativeRank (rank : R) (node : Node) (direction : NODE_POSITION)
  : R :=
  match node with
  | NULL => rank
  | Nd l _ _ _ rk r =>
    let rank := rk in
    let rank :=
      match r with
      | Nd _ _ _ _ rrk _ =>
        if negb (NODE_POSITION_eqb direction RIGHT_CHILD)
        then rank_sub rank rrk else rank
      | NULL => rank
      end in
    match l with
    | Nd _ _ _ _ lrk _ =>
      if negb (NODE_POSITION_eqb direction LEFT_CHILD)
      then rank_sub rank lrk else rank
    | NULL => rank
    end
  end.

(** The result is the node pointer returned; [cur_index] is passed by
    reference but no caller reads it afterwards. *)
Fixpoint FindIndexTraverse (node : Node) (index cur_index : Z) : option ptr :=
  match node with
  | NULL => Some None
  | Nd l _ _ _ _ r =>
    if index =? cur_index then Some (Some [])
    else if index >? cur_index then
      let rank := GetRelativeRank rank_new r LEFT_CHILD in
      let cur_index := cur_index + rank_num rank in
      p <- FindIndexTraverse r index cur_index ;; Some (under to_right p)
    else
      match l with
      | NULL => None
      | Nd _ _ _ _ _ lr =>
        let cur_index :=
          match lr with
          | NULL => cur_index
          | Nd _ _ _ _ lrrk _ => cur_index - rank_num lrrk
          end in
        let cur_index := cur_index - 1 in
        p <- FindIndexTraverse l index cur_index ;; Some (under to_left p)
      end
  end.

(** [node->height = max(...) + 1; UpdateRank(node, left, right);
    return Balance(node);] the common tail of [InsertTraverse] and
    [RemoveTraverse]. *)
Definition refresh (node : Node) : option Node :=
  match node with
  | NULL => None
  | Nd l k v _ rk r =>
    Balance (UpdateRank (Nd l k v (Z.max (GetHeight l) (GetHeight r) + 1) rk r)
                        l r)
  end.

Fixpoint InsertTraverse (node : Node) (key : Key) (value : Value)
  : option Node :=
  match node with
  | NULL => Some (Nd NULL key value 0 (rank_of key value) NULL)
  | Nd l k v h rk r =>
    match compare key k with
    | LESS_THAN =>
      l' <- InsertTraverse l key value ;;
      if is_null l' then None else refresh (Nd l' k v h rk r)
    | _ =>
      r' <- InsertTraverse r key value ;;
      if is_null r' then None else refresh (Nd l k v h rk r')
    end
  end.

Fixpoint RemoveTraverse (node : Node) (key : Key) : option Node :=
  match node with
  | NULL => Some NULL
  | Nd l k v h rk r =>
    match compare key k with
    | LESS_THAN =>
      l' <- RemoveTraverse l key ;; refresh (Nd l' k v h rk r)
    | GREATER_THAN =>
      r' <- RemoveTraverse r key ;; refresh (Nd l k v h rk r')
    | EQUAL =>
      match l, r with
      | Nd _ _ _ _ _ _, Nd _ _ _ _ _ _ =>
        match deref r (FindMin r) with
        | NULL => None
        | Nd _ mk mv _ mrk _ =>
          tmp <- RemoveTraverse r mk ;; refresh (Nd l mk mv h mrk tmp)
        end
      | Nd _ _ _ _ _ _, NULL => Some l
      | NULL, Nd _ _ _ _ _ _ => Some r
      | NULL, NULL => Some NULL
      end
    end
  end.


(** ** Range query *)

Definition limit_reached (filter : FilterObject) (query : QueryResult) : bool :=
  (limit filter <=? total query) && (limit filter >? -1).

(** The chain of result nodes hanging off [result_node] is the list
    [result query] under construction; [query->total] counts it. *)
Fixpoint QueryTraverse (node : Node) (query : QueryResult)
         (filter : FilterObject) : QueryResult :=
  match node with
  | NULL => query
  | Nd l k v _ _ r =>
    if limit_reached filter query then query else
    let below_min :=
      match min_range filter with
      | Some m => COMPARE_RESULT_eqb (compare k m) LESS_THAN
      | None => false
      end in
    if below_min then QueryTraverse r query filter else
    let above_max :=
      match max_range filter with
      | Some m => COMPARE_RESULT_eqb (compare k m) GREATER_THAN
      | None => false
      end in
    if above_max then QueryTraverse l query filter else
    let query := QueryTraverse l query filter in
    let query :=
      if (limit filter <=? -1) || (limit filter >? total query) then
        let accepted :=
          match FilterFunction filter with
          | None => true
          | Some f => f k v
          end in
        if accepted then
          {| result := result query ++ [{| pair_key := k; pair_value := v |}];
             total := total query + 1 |}
        else query
      else query in
    QueryTraverse r query filter
  end.

(** [MergeTwoQueries]: the [while (t < result->total)] loop, one iteration
    per unit of fuel.  [out] is [result->result[0 .. t-1]]. *)
Fixpoint merge_loop (fuel : nat) (first second : QueryResult) (tot i j t : Z)
         (out : list KeyValuePair) : option (list KeyValuePair) :=
  if t <? tot then
    match fuel with
    | O => None
    | S fuel' =>
      if (i <? total first) && (j <? total second) then
        a <- nth_error (result first) (Z.to_nat i) ;;
        b <- nth_error (result second) (Z.to_nat j) ;;
        match compare (pair_key a) (pair_key b) with
        | LESS_THAN =>
          merge_loop fuel' first second tot (i + 1) j (t + 1) (out ++ [a])
        | _ =>
          merge_loop fuel' first second tot i (j + 1) (t + 1) (out ++ [b])
        end
      else if j >=? total second then
        a <- nth_error (result first) (Z.to_nat i) ;;
        merge_loop fuel' first second tot (i + 1) j (t + 1) (out ++ [a])
      else
        b <- nth_error (result second) (Z.to_nat j) ;;
        merge_loop fuel' first second tot i (j + 1) (t + 1) (out ++ [b])
    end
  else Some out.

(** The result is a [QueryResult *]: the inner [None] is the null pointer
    returned for an empty merge. *)
Definition MergeTwoQueries (first second : QueryResult)
  : option (option QueryResult) :=
  let tot := total first + total second in
  if tot =? 0 then Some None
  else
    out <- merge_loop (Z.to_nat tot) first second tot 0 0 0 [] ;;
    Some (Some {| result := out; total := tot |}).

(** ** The tree object *)

Record AVLRankTree : Type := {
  size : Z;
  root : Node;
  max_node : ptr;
  min_node : ptr
}.

(** The members [TreeFromQuery] assigns while it builds: [this->root] (as
    the position of the node it points to), [this->min_node] and
    [this->max_node]. *)
Record building : Type := {
  b_root : ptr;
  b_max : ptr;
  b_min : ptr
}.

(** [TreeFromQuery]; [here] is the position at which the node allocated by
    this call ends up, [fuel] bounds the recursion depth. *)
Fixpoint TreeFromQuery (fuel : nat) (query : QueryResult) (start end_ : Z)
         (here : list link) (this : building) : option (Node * building) :=
  if start >? end_ then Some (NULL, this)
  else
    match fuel with
    | O => None
    | S fuel' =>
      let middle := Z.quot (start + end_) 2 in
      if middle <? 0 then None else
      kv <- nth_error (result query) (Z.to_nat middle) ;;
      let this :=
        match b_root this with
        | None => {| b_root := Some here; b_max := b_max this;
                     b_min := b_min this |}
        | Some _ => this
        end in
      let this :=
        if middle =? 0
        then {| b_root := b_root this; b_max := b_max this;
                b_min := Some here |}
        else this in
      let this :=
        if middle =? total query - 1
        then {| b_root := b_root this; b_max := Some here;
                b_min := b_min this |}
        else this in
      '(l, this) <- TreeFromQuery fuel' query start (middle - 1)
                                  (here ++ [to_left]) this ;;
      '(r, this) <- TreeFromQuery fuel' query (middle + 1) end_
                                  (here ++ [to_right]) this ;;
      let h := Z.max (GetHeight l) (GetHeight r) + 1 in
      Some (UpdateRank (Nd l (pair_key kv) (pair_value kv) h
                           (rank_of (pair_key kv) (pair_value kv)) r) l r,
            this)
    end.

(** ** Range aggregate helpers *)

Fixpoint GetMostLowerCommonNode (root node1 node2 : Node) : option ptr :=
  match root with
  | NULL => Some None
  | Nd l k _ _ _ r =>
    match node1, node2 with
    | Nd _ k1 _ _ _ _, Nd _ k2 _ _ _ _ =>
      let result_1 := compare k k1 in
      let result_2 := compare k k2 in
      if COMPARE_RESULT_eqb result_1 GREATER_THAN
         && COMPARE_RESULT_eqb result_2 GREATER_THAN
      then p <- GetMostLowerCommonNode l node1 node2 ;; Some (under to_left p)
      else if COMPARE_RESULT_eqb result_1 LESS_THAN
              && COMPARE_RESULT_eqb result_2 LESS_THAN
      then p <- GetMostLowerCommonNode r node1 node2 ;; Some (under to_right p)
      else Some (Some [])
    | _, _ => None
    end
  end.

(** [CollectRankTraverse] climbs through [node->parent].  [tree] is the
    tree the pointers point into and [up] the position of [node] written
    from the node to the root, so the parent is its tail; at the root the
    parent is null and the next call dereferences it.  [mlc] and
    [relative_node] are passed as their pointees.  The result is the final
    content of [*rank]. *)
Fixpoint CollectRankTraverse (tree mlc : Node) (up : list link)
         (relative_node : Node) (rank : R) (direction : NODE_POSITION)
  : option R :=
  match mlc, node_at tree (rev up) with
  | Nd _ mk _ _ _ _, (Nd _ nk _ _ _ _) as node =>
    if COMPARE_RESULT_eqb (compare mk nk) EQUAL then Some rank
    else
      match relative_node with
      | NULL => None
      | Nd _ rk _ _ _ _ =>
        let rank :=
          if NODE_POSITION_eqb direction RIGHT_CHILD then
            if COMPARE_RESULT_eqb (compare nk rk) LESS_THAN then rank
            else rank_add rank (GetRelativeRank rank_new node RIGHT_CHILD)
          else
            if COMPARE_RESULT_eqb (compare nk rk) GREATER_THAN then rank
            else rank_add rank (GetRelativeRank rank_new node LEFT_CHILD) in
        match up with
        | [] => None
        | _ :: parent =>
          CollectRankTraverse tree mlc parent relative_node rank direction
        end
      end
  | _, _ => None
  end.

Fixpoint GetIndexOfKeyTraverse (node : Node) (key : Key) : Z :=
  match node with
  | NULL => -1
  | Nd l k _ _ _ r =>
    match compare key k with
    | EQUAL => rank_num (GetRelativeRank rank_new node LEFT_CHILD) - 1
    | LESS_THAN => GetIndexOfKeyTraverse l key
    | GREATER_THAN =>
      rank_num (GetRelativeRank rank_new node LEFT_CHILD)
      + GetIndexOfKeyTraverse r key
    end
  end.

(** ** Public methods *)

(** [AVLRankTree()]. *)
Definition empty_tree : AVLRankTree :=
  {| size := 0; root := NULL; max_node := None; min_node := None |}.

Definition GetSize (this : AVLRankTree) : Z := size this.

(** The public overload [GetHeight()]. *)
Definition GetTreeHeight (this : AVLRankTree) : Z := GetHeight (root this).

Definition GetIndexOfKey (this : AVLRankTree) (key : Key) : Z :=
  GetIndexOfKeyTraverse (root this) key.

Definition GetMax (this : AVLRankTree) : option KeyValuePair :=
  pair_of (deref (root this) (max_node this)).

Definition GetMin (this : AVLRankTree) : option KeyValuePair :=
  pair_of (deref (root this) (min_node this)).

Definition Find (this : AVLRankTree) (key : Key) : option KeyValuePair :=
  pair_of (deref (root this) (FindTraverse (root this) key)).

(** What a call that may throw [std::out_of_range] does. *)
Inductive outcome (A : Type) : Type :=
| Returned (a : A)
| out_of_range.

Definition FindIndex (this : AVLRankTree) (index : Z)
  : option (outcome (option KeyValuePair)) :=
  if (index <? 0) || (index >=? size this) then Some (out_of_range _)
  else
    let rank := GetRelativeRank rank_new (root this) LEFT_CHILD in
    let res_index := rank_num rank in
    result_node <- FindIndexTraverse (root this) (index + 1) res_index ;;
    Some (Returned (pair_of (deref (root this) result_node))).

(** [operator[]]. *)
Definition subscript (this : AVLRankTree) (index : Z)
  : option (outcome (option KeyValuePair)) :=
  FindIndex this index.

Definition Closest (this : AVLRankTree) (key : Key) (range : COMPARE_RESULT)
  : option KeyValuePair :=
  if COMPARE_RESULT_eqb range EQUAL then Find this key
  else
    pair_of (deref (root this)
                   (ClosestTraverse [] (root this) key None range)).

Definition Insert (this : AVLRankTree) (key : Key) (value : Value)
  : option AVLRankTree :=
  new_root <- InsertTraverse (root this) key value ;;
  Some {| size := size this + 1;
          root := new_root;
          max_node := FindMax new_root;
          min_node := FindMin new_root |}.

Definition Remove (this : AVLRankTree) (key : Key)
  : option (bool * AVLRankTree) :=
  match Find this key with
  | None => Some (false, this)
  | Some _ =>
    new_root <- RemoveTraverse (root this) key ;;
    Some (true,
          {| size := size this - 1;
             root := new_root;
             max_node := FindMax new_root;
             min_node := FindMin new_root |})
  end.

Definition Query (this : AVLRankTree) (filterObject : FilterObject)
  : QueryResult :=
  QueryTraverse (root this) {| result := []; total := 0 |} filterObject.

(** The members a constructor has set when [TreeFromQuery] returns. *)
Definition built (sz : Z) (made : Node * building) : AVLRankTree :=
  {| size := sz;
     root := deref (fst made) (b_root (snd made));
     max_node := b_max (snd made);
     min_node := b_min (snd made) |}.

Definition unbuilt : building :=
  {| b_root := None; b_max := None; b_min := None |}.

(** What becomes of a member of the class template in a program that uses
    it.  The body of the member is compiled where it is first used; a body
    that holds an ill-formed statement is refused there, so the program is
    not built and the member never runs. *)
Inductive instantiation (A : Type) : Type :=
| instantiated (run : A)
| ill_formed.

(** The type of the operand of a delete-expression, as far as the
    expression reads it: [delete] takes a pointer to an object; an object of
    class type that converts to no pointer is no operand of it. *)
Inductive operand_type : Type := pointer_to_object | class_object.

Definition delete_expression (operand : operand_type) : bool :=
  match operand with
  | pointer_to_object => true
  | class_object => false
  end.

(** [AVLRankTree(const AVLRankTree &tree)].  The query is taken from
    [this], whose members were just initialised, not from [tree].  The last
    statement, [delete query], has the local object [query], of type
    [QueryResult], as its operand. *)
Definition copy_tree (tree : AVLRankTree)
  : instantiation (option AVLRankTree) :=
  if delete_expression class_object then
    instantiated
      (let this := {| size := GetSize tree; root := NULL; max_node := None;
                      min_node := None |} in
       if is_null (root tree) then Some this
       else
         let query := Query this default_filter in
         made <- TreeFromQuery (Z.to_nat (total query) + 1) query 0
                               (total query - 1) [] unbuilt ;;
         Some (built (size this) made))
  else ill_formed _.

(** [AVLRankTree(first_tree, second_tree)]. *)
Definition merge_trees (first_tree second_tree : AVLRankTree)
  : option AVLRankTree :=
  let this := {| size := size first_tree + size second_tree; root := NULL;
                 max_node := None; min_node := None |} in
  if size this =? 0 then Some this
  else
    let first_query := Query first_tree default_filter in
    let second_query := Query second_tree default_filter in
    merged <- MergeTwoQueries first_query second_query ;;
    query <- merged ;;
    made <- TreeFromQuery (Z.to_nat (total query) + 1) query 0
                          (total query - 1) [] unbuilt ;;
    Some (built (size this) made).

(** The boundary pointers of [CollectRank] after the range step. *)
Definition range_boundary (this : AVLRankTree) (range : option Key)
           (dir : COMPARE_RESULT) (fallback : ptr) : ptr :=
  match range with
  | None => fallback
  | Some k =>
    match ClosestTraverse [] (root this) k None dir with
    | Some p => Some p
    | None => fallback
    end
  end.

(** [Number] is [long long] unless the program names another type.  The
    limit of a filter is any value of that type the caller likes, and a sum
    or difference of two [long long] that the type cannot hold is
    undefined. *)
Definition LLONG_MAX : Z := 9223372036854775807.

Definition LLONG_MIN : Z := -9223372036854775808.

Definition is_long_long (n : Z) : bool :=
  (LLONG_MIN <=? n) && (n <=? LLONG_MAX).

Definition long_long_add (a b : Z) : option Z :=
  if is_long_long a && is_long_long b && is_long_long (a + b)
  then Some (a + b) else None.

Definition long_long_sub (a b : Z) : option Z :=
  if is_long_long a && is_long_long b && is_long_long (a - b)
  then Some (a - b) else None.

(** [if (filter.limit > 0) { ... }] up to the assignment of the tightened
    boundary: the pair [(max, min)] afterwards.  [max_index - filter.limit
    + 1] and [min_index + filter.limit - 1] are evaluated from the left, in
    [Number]. *)
Definition limit_boundary (this : AVLRankTree) (filter : FilterObject)
           (res_index : Z) (max min : ptr) (maxk mink : Key)
  : option (ptr * ptr) :=
  let max_index := GetIndexOfKey this maxk in
  let min_index := GetIndexOfKey this mink in
  if reverse filter then
    difference <- long_long_sub max_index (limit filter) ;;
    index <- long_long_add difference 1 ;;
    if index >=? min_index then
      next <- long_long_add index 1 ;;
      p <- FindIndexTraverse (root this) next res_index ;;
      Some (max, p)
    else Some (max, min)
  else
    sum <- long_long_add min_index (limit filter) ;;
    index <- long_long_sub sum 1 ;;
    if index <=? max_index then
      next <- long_long_add index 1 ;;
      p <- FindIndexTraverse (root this) next res_index ;;
      Some (p, min)
    else Some (max, min).

(** The tail of [CollectRank] from [GetMostLowerCommonNode] on. *)
Definition collect_between (this : AVLRankTree) (max_up min_up : list link)
           (rank : R) : option R :=
  let max_n := node_at (root this) max_up in
  let min_n := node_at (root this) min_up in
  mlc <- GetMostLowerCommonNode (root this) min_n max_n ;;
  let mlc_n := deref (root this) mlc in
  rank <- CollectRankTraverse (root this) mlc_n (rev max_up) max_n rank
                              LEFT_CHILD ;;
  rank <- CollectRankTraverse (root this) mlc_n (rev min_up) min_n rank
                              RIGHT_CHILD ;;
  Some (rank_add rank (GetRelativeRank rank_new mlc_n ROOT)).

Definition CollectRank (this : AVLRankTree) (filter : FilterObject)
  : option R :=
  let rank := rank_new in
  let tmp := rank_new in
  let max := range_boundary this (max_range filter) LESS_THAN (max_node this) in
  let min :=
    range_boundary this (min_range filter) GREATER_THAN (min_node this) in
  match max, min with
  | Some max_up, Some min_up =>
    match node_at (root this) max_up, node_at (root this) min_up with
    | (Nd _ maxk _ _ _ _) as max_n, Nd _ mink _ _ _ _ =>
      if COMPARE_RESULT_eqb (compare maxk mink) EQUAL then
        Some (rank_add rank (GetRelativeRank tmp max_n ROOT))
      else
        let tmp := GetRelativeRank tmp (root this) LEFT_CHILD in
        let res_index := rank_num tmp in
        if limit filter >? 0 then
          '(max, min) <- limit_boundary this filter res_index max min
                                        maxk mink ;;
          match max, min with
          | Some max_up, Some min_up =>
            match node_at (root this) max_up, node_at (root this) min_up with
            | (Nd _ maxk _ _ _ _) as max_n, Nd _ mink _ _ _ _ =>
              if COMPARE_RESULT_eqb (compare maxk mink) EQUAL then
                Some (rank_add rank (GetRelativeRank rank_new max_n ROOT))
              else collect_between this max_up min_up rank
            | _, _ => None
            end
          | _, _ => Some rank
          end
        else collect_between this max_up min_up rank
    | _, _ => None
    end
  | _, _ => Some rank
  end.

(** ** Specification vocabulary *)

(** The in-order sequence of entries. *)
Fixpoint inorder (t : Node) : list KeyValuePair :=
  match t with
  | NULL => []
  | Nd l k v _ _ r =>
    inorder l ++ {| pair_key := k; pair_value := v |} :: inorder r
  end.

Definition keys (t : Node) : list Key := map pair_key (inorder t).

(** The number of nodes reachable from a node. *)
Fixpoint count (t : Node) : Z :=
  match t with
  | NULL => 0
  | Nd l _ _ _ _ r => count l + 1 + count r
  end.

(** [every P t]: [P] holds at every node of [t]. *)
Fixpoint every (P : Node -> Prop) (t : Node) : Prop :=
  match t with
  | NULL => True
  | Nd l _ _ _ _ r => P t /\ every P l /\ every P r
  end.

Definition le_key (a b : Key) : Prop := compare a b <> GREATER_THAN.
Definition lt_key (a b : Key) : Prop := compare a b = LESS_THAN.

(** Invariant 1 as the specification words it: left keys compare less,
    right keys compare greater-or-equal. *)
Definition ties_right_at (n : Node) : Prop :=
  match n with
  | NULL => True
  | Nd l k _ _ _ r =>
    Forall (fun x => lt_key x k) (keys l) /\
    Forall (fun x => le_key k x) (keys r)
  end.

(** The ordering the rotations keep: left keys compare less-or-equal,
    right keys compare greater-or-equal. *)
Definition ordered_at (n : Node) : Prop :=
  match n with
  | NULL => True
  | Nd l k _ _ _ r =>
    Forall (fun x => le_key x k) (keys l) /\
    Forall (fun x => le_key k x) (keys r)
  end.

(** Invariant 2. *)
Definition balanced_at (n : Node) : Prop :=
  match n with
  | NULL => True
  | Nd l _ _ _ _ r => Z.abs (GetHeight l - GetHeight r) <= 1
  end.

(** Invariant 3. *)
Definition height_at (n : Node) : Prop :=
  match n with
  | NULL => True
  | Nd l _ _ h _ r => h = 1 + Z.max (GetHeight l) (GetHeight r)
  end.

(** The aggregate cached at a node, the identity for an absent child. *)
Definition GetRank (n : Node) : R :=
  match n with NULL => rank_new | Nd _ _ _ _ rk _ => rk end.

(** Invariant 4. *)
Definition rank_at (n : Node) : Prop :=
  match n with
  | NULL => True
  | Nd l k v _ rk r =>
    rk = rank_add (rank_add (rank_of k v) (GetRank l)) (GetRank r)
  end.

(** Invariant 6, one cache: the pointer is null iff the tree is empty, and
    otherwise points at a node whose key no key of the tree beats. *)
Definition points_at_extreme (better : Key -> Key -> Prop) (t : Node)
           (p : ptr) : Prop :=
  match p with
  | None => t = NULL
  | Some path =>
    match node_at t path with
    | NULL => False
    | Nd _ k _ _ _ _ => Forall (fun x => better k x) (keys t)
    end
  end.

(** Invariants 2 to 6 with the ordering [ord] for invariant 1. *)
Record invariants_with (ord : Node -> Prop) (t : AVLRankTree) : Prop := {
  inv_order : every ord (root t);
  inv_balance : every balanced_at (root t);
  inv_height : every height_at (root t);
  inv_rank : every rank_at (root t);
  inv_size : size t = count (root t);
  inv_min : points_at_extreme le_key (root t) (min_node t);
  inv_max : points_at_extreme (fun k x => le_key x k) (root t) (max_node t)
}.

(** The six invariants as the specification states them. *)
Definition claimed_invariants : AVLRankTree -> Prop :=
  invariants_with ties_right_at.

(** The six invariants with the ordering that allows ties on both sides. *)
Definition invariants : AVLRankTree -> Prop :=
  invariants_with ordered_at.

(** Trees reachable through the public mutating operations. *)
Inductive reachable : AVLRankTree -> Prop :=
| reach_empty : reachable empty_tree
| reach_merge a b t :
    reachable a -> reachable b -> merge_trees a b = Some t -> reachable t
| reach_Insert t k v t' :
    reachable t -> Insert t k v = Some t' -> reachable t'
| reach_Remove t k b t' :
    reachable t -> Remove t k = Some (b, t') -> reachable t'.

(** The same with the copy constructor. *)
Inductive reachable_with_copy : AVLRankTree -> Prop :=
| reachc_empty : reachable_with_copy empty_tree
| reachc_copy a t :
    reachable_with_copy a -> copy_tree a = instantiated (Some t) ->
    reachable_with_copy t
| reachc_merge a b t :
    reachable_with_copy a -> reachable_with_copy b ->
    merge_trees a b = Some t -> reachable_with_copy t
| reachc_Insert t k v t' :
    reachable_with_copy t -> Insert t k v = Some t' -> reachable_with_copy t'
| reachc_Remove t k b t' :
    reachable_with_copy t -> Remove t k = Some (b, t') ->
    reachable_with_copy t'.

(** The ascending two-pointer merge of two sequences: the head of the first
    is taken when it compares less than the head of the second, the head of
    the second otherwise; a sequence left alone is copied. *)
Fixpoint two_pointer_merge (a b : list KeyValuePair) : list KeyValuePair :=
  let fix into (b : list KeyValuePair) : list KeyValuePair :=
    match a with
    | [] => b
    | x :: a' =>
      match b with
      | [] => a
      | y :: b' =>
        match compare (pair_key x) (pair_key y) with
        | LESS_THAN => x :: two_pointer_merge a' b
        | _ => y :: into b'
        end
      end
    end in
  into b.

(** The combine-reduction of the per-element contributions of a
    sequence of entries. *)
Definition reduce_contributions (l : list KeyValuePair) : R :=
  fold_left (fun acc p => rank_add acc (rank_of (pair_key p) (pair_value p)))
            l rank_new.

(** The entries a filter selects, before any limit: inside the inclusive
    range and accepted by the predicate. *)
Definition selects (filter : FilterObject) (p : KeyValuePair) : bool :=
  match min_range filter with
  | Some m => negb (COMPARE_RESULT_eqb (compare (pair_key p) m) LESS_THAN)
  | None => true
  end
  && match max_range filter with
     | Some m =>
       negb (COMPARE_RESULT_eqb (compare (pair_key p) m) GREATER_THAN)
     | None => true
     end
  && match FilterFunction filter with
     | Some f => f (pair_key p) (pair_value p)
     | None => true
     end.

Definition selected (filter : FilterObject) (t : Node) : list KeyValuePair :=
  List.filter (selects filter) (inorder t).

(** The last [n] elements of a sequence, and its first [n] elements. *)
Definition high_window (n : Z) (l : list KeyValuePair) : list KeyValuePair :=
  skipn (length l - Z.to_nat n) l.

Definition low_window (n : Z) (l : list KeyValuePair) : list KeyValuePair :=
  firstn (Z.to_nat n) l.

(** What a pointer found below [t] designates. *)
Definition found_below (t : Node) (p : list link) (P : Key -> Prop) : Prop :=
  exists e, pair_of (node_at t p) = Some e /\ In e (inorder t) /\
            P (pair_key e).

(** The greatest key that is at most [k], among the keys [ks]. *)
Definition floor_of (ks : list Key) (k c : Key) : Prop :=
  le_key c k /\ forall x, In x ks -> le_key x k -> le_key x c.

(** The smallest key that is at least [k], among the keys [ks]. *)
Definition ceiling_of (ks : list Key) (k c : Key) : Prop :=
  le_key k c /\ forall x, In x ks -> le_key k x -> le_key c x.

(** The height of the tree [TreeFromQuery] builds from [n] entries. *)
Definition built_height (n : Z) : Z := if n =? 0 then -1 else Z.log2 n.

(** The [n] entries of an array from index [s] on. *)
Definition segment (l : list KeyValuePair) (s n : nat) : list KeyValuePair :=
  firstn n (skipn s l).

(** A position below [here]. *)
Definition below (here : list link) (p : ptr) : ptr :=
  match p with None => None | Some path => Some (here ++ path) end.

(** Invariants 2, 3 and 4 together. *)
Definition shaped (t : Node) : Prop :=
  every balanced_at t /\ every height_at t /\ every rank_at t.

(** What [TreeFromQuery] builds from [query->result[start .. end]] and what
    it leaves in the members of the tree under construction. *)
Definition builds (query : QueryResult) (start end_ : Z) (here : list link)
           (this : building) (t : Node) (this' : building) : Prop :=
  inorder t = segment (result query) (Z.to_nat start)
                      (Z.to_nat (end_ - start + 1)) /\
  is_null t = (start >? end_) /\
  every balanced_at t /\ every height_at t /\
  GetHeight t = built_height (end_ - start + 1) /\
  b_root this'
  = (if start >? end_ then b_root this
     else match b_root this with None => Some here | Some p => Some p end) /\
  b_min this'
  = (if (start =? 0) && (start <=? end_) then below here (FindMin t)
     else b_min this) /\
  b_max this'
  = (if (end_ =? total query - 1) && (start <=? end_)
     then below here (FindMax t) else b_max this).

(** The in-order keys strictly increase: the ordering invariant on a tree
    in which no key occurs twice. *)
Definition distinct_keys (t : Node) : Prop :=
  StronglySorted lt_key (keys t).

(** A filter with only [min_range] set, and one with only [max_range]
    set. *)
Definition filter_from (k : Key) : FilterObject :=
  {| limit := -1; reverse := false; min_range := Some k; max_range := None;
     FilterFunction := None |}.

Definition filter_up_to (k : Key) : FilterObject :=
  {| limit := -1; reverse := false; min_range := None; max_range := Some k;
     FilterFunction := None |}.

(** The part of a filter that [CollectRank] reads besides the limit: the
    inclusive range. *)
Definition in_range (filter : FilterObject) (p : KeyValuePair) : bool :=
  match min_range filter with
  | Some m => negb (COMPARE_RESULT_eqb (compare (pair_key p) m) LESS_THAN)
  | None => true
  end
  && match max_range filter with
     | Some m =>
       negb (COMPARE_RESULT_eqb (compare (pair_key p) m) GREATER_THAN)
     | None => true
     end.

(** Entries whose key is not below, or not above, a bound. *)
Definition not_below (lo : Key) (p : KeyValuePair) : bool :=
  negb (COMPARE_RESULT_eqb (compare (pair_key p) lo) LESS_THAN).

Definition not_above (hi : Key) (p : KeyValuePair) : bool :=
  negb (COMPARE_RESULT_eqb (compare (pair_key p) hi) GREATER_THAN).

(** Entries whose key lies between two keys, both included. *)
Definition between (lo hi : Key) (p : KeyValuePair) : bool :=
  not_below lo p && not_above hi p.

(** The window [CollectRank] cuts out of the entries in range: their first
    [limit] with a positive limit, their last [limit] when [reverse] is set
    too, all of them otherwise. *)
Definition window (filter : FilterObject) (l : list KeyValuePair)
  : list KeyValuePair :=
  if limit filter >? 0 then
    if reverse filter then high_window (limit filter) l
    else low_window (limit filter) l
  else l.

(** A sequence cut to the limit of a filter; a limit of -1 or less is no
    limit. *)
Definition limited (filter : FilterObject) (l : list KeyValuePair)
  : list KeyValuePair :=
  if limit filter <=? -1 then l else firstn (Z.to_nat (limit filter)) l.

(** A query result extended by a sequence of entries. *)
Definition advance (query : QueryResult) (l : list KeyValuePair)
  : QueryResult :=
  {| result := result query ++ l;
     total := total query + Z.of_nat (length l) |}.

(** What the limit of a filter lets a query that already holds
    [total query] entries take from a sequence. *)
Definition room (filter : FilterObject) (query : QueryResult)
           (l : list KeyValuePair) : list KeyValuePair :=
  if limit filter <=? -1 then l
  else firstn (Z.to_nat (limit filter - total query)) l.

(** The number of entries whose key compares less than [key]. *)
Definition keys_below (key : Key) (t : Node) : Z :=
  Z.of_nat
    (length
       (List.filter
          (fun e => COMPARE_RESULT_eqb (compare (pair_key e) key) LESS_THAN)
          (inorder t))).

(** The side of its parent a position is on. *)
Definition position_of (up : list link) : NODE_POSITION :=
  match up with
  | [] => ROOT
  | to_left :: _ => LEFT_CHILD
  | to_right :: _ => RIGHT_CHILD
  end.

End Tree.

Arguments NULL {Key Value R}.
Arguments out_of_range {A}.
Arguments ill_formed {A}.

(** ** Laws of the pluggable interfaces *)

(** The comparator is a three-way total preorder. *)
Class CompareLaws (Key : Type) {cmp : Compare Key} : Prop := {
  compare_antisym :
    forall a b : Key, compare a b = GREATER_THAN <-> compare b a = LESS_THAN;
  compare_trans :
    forall a b c : Key,
      compare a b <> GREATER_THAN -> compare b c <> GREATER_THAN ->
      compare a c <> GREATER_THAN
}.

(** [operator+=] is a commutative monoid operation with identity
    [RankInfo()]. *)
Class RankLaws (Key Value R : Type) {ops : RankInfo Key Value R} : Prop := {
  rank_add_comm : forall a b : R, rank_add a b = rank_add b a;
  rank_add_assoc :
    forall a b c : R, rank_add a (rank_add b c) = rank_add (rank_add a b) c;
  rank_add_new : forall a : R, rank_add a rank_new = a
}.

(** The member [rank] counts elements. *)
Class RankCounts (Key Value R : Type) {ops : RankInfo Key Value R} : Prop := {
  rank_num_new : rank_num rank_new = 0;
  rank_num_of : forall (k : Key) (v : Value), rank_num (rank_of k v) = 1;
  rank_num_add :
    forall a b : R, rank_num (rank_add a b) = rank_num a + rank_num b;
  rank_num_sub :
    forall a b : R, rank_num (rank_sub a b) = rank_num a - rank_num b
}.

Arguments CompareLaws Key {cmp}.
Arguments RankLaws Key Value R {ops}.
Arguments RankCounts Key Value R {ops}.

(** [operator-=] undoes [operator+=]. *)
Class RankInverse (Key Value R : Type) {ops : RankInfo Key Value R} : Prop := {
  rank_sub_add : forall a b : R, rank_sub (rank_add a b) b = a
}.

Arguments RankInverse Key Value R {ops}.

(** ** The scenarios of the specification, run on the model *)

Module Scenarios.

Definition tree_of (kvs : list (Z * Z)) : option (AVLRankTree (R := Z)) :=
  fold_left (fun acc kv => t <- acc ;; Insert t (fst kv) (snd kv))
            kvs (Some empty_tree).

Definition entries (l : list (KeyValuePair (Key := Z) (Value := Z)))
  : list (Z * Z) :=
  map (fun p => (pair_key p, pair_value p)) l.

Definition keys_of (q : QueryResult (Key := Z) (Value := Z)) : list Z :=
  map (fun p => pair_key p) (result q).

Definition leaf (k v : Z) : Node (Key := Z) (Value := Z) (R := Z) :=
  Nd NULL k v 0 1 NULL.

(** Keys 1, 2, 3 inserted in that order. *)
Definition tree_123 : AVLRankTree (Key := Z) (Value := Z) (R := Z) :=
  {| size := 3;
     root := Nd (leaf 1 10) 2 20 1 3 (leaf 3 30);
     max_node := Some [to_right];
     min_node := Some [to_left] |}.

(** Keys 1, 3, 5 inserted in that order. *)
Definition tree_135 : AVLRankTree (Key := Z) (Value := Z) (R := Z) :=
  {| size := 3;
     root := Nd (leaf 1 10) 3 30 1 3 (leaf 5 50);
     max_node := Some [to_right];
     min_node := Some [to_left] |}.

(** The single key 1. *)
Definition tree_1 : AVLRankTree (Key := Z) (Value := Z) (R := Z) :=
  {| size := 1; root := leaf 1 10; max_node := Some []; min_node := Some [] |}.

(** The key 1 inserted twice. *)
Definition tree_11 : AVLRankTree (Key := Z) (Value := Z) (R := Z) :=
  {| size := 2;
     root := Nd NULL 1 10 1 2 (leaf 1 20);
     max_node := Some [to_right];
     min_node := Some [] |}.

(** The key 1 inserted three times. *)
Definition tree_111 : AVLRankTree (Key := Z) (Value := Z) (R := Z) :=
  {| size := 3;
     root := Nd (leaf 1 10) 1 20 1 3 (leaf 1 30);
     max_node := Some [to_right];
     min_node := Some [to_left] |}.

(** (3,100), (3,101), (3,102), (2,103), (1,104), (1,105) inserted in that
    order. *)
Definition tree_dup : AVLRankTree (Key := Z) (Value := Z) (R := Z) :=
  {| size := 6;
     root := Nd (Nd NULL 1 104 1 2 (leaf 1 105)) 2 103 2 6
                (Nd (leaf 3 100) 3 101 1 3 (leaf 3 102));
     max_node := Some [to_right; to_right];
     min_node := Some [to_left] |}.

Definition keys_1_to_10 : list (Z * Z) :=
  map (fun k => (k, k)) [1; 2; 3; 4; 5; 6; 7; 8; 9; 10].

Definition filter_3_8_limit_3 : FilterObject (Key := Z) (Value := Z) :=
  {| limit := 3; reverse := false; min_range := Some 3; max_range := Some 8;
     FilterFunction := None |}.

Definition filter_last_1 : FilterObject (Key := Z) (Value := Z) :=
  {| limit := 1; reverse := true; min_range := None; max_range := None;
     FilterFunction := None |}.

Definition entry (k v : Z) : KeyValuePair (Key := Z) (Value := Z) :=
  {| pair_key := k; pair_value := v |}.

Definition filter_2_3 : FilterObject (Key := Z) (Value := Z) :=
  {| limit := -1; reverse := false; min_range := Some 2; max_range := Some 3;
     FilterFunction := None |}.

Definition filter_first_2 : FilterObject (Key := Z) (Value := Z) :=
  {| limit := 2; reverse := false; min_range := None; max_range := None;
     FilterFunction := None |}.

(** The keys 2 and 3 in a chain to the right: with the key 1 on top and
    nothing to the left, the top node is two levels out of balance. *)
Definition chain_23 : Node (Key := Z) (Value := Z) (R := Z) :=
  Nd NULL 2 20 1 2 (leaf 3 30).

End Scenarios.

(** * Verification *)

Unset Implicit Arguments.

(** ** The scenarios of the specification *)

Module ScenarioFacts.
Import Scenarios.

Lemma tree_123_built :
  tree_of [(1, 10); (2, 20); (3, 30)] = Some tree_123.
Proof. reflexivity. Qed.

Lemma scenario_insert_123 :
  size tree_123 = 3 /\
  FindIndex tree_123 1
  = Some (Returned (Some {| pair_key := 2; pair_value := 20 |})) /\
  GetIndexOfKey tree_123 3 = 2 /\
  CollectRank tree_123 default_filter = Some 3.
Proof. repeat split; reflexivity. Qed.

Lemma scenario_remove_2 :
  exists t, Remove tree_123 2 = Some (true, t) /\
            Find t 2 = None /\ size t = 2 /\
            keys_of (Query t default_filter) = [1; 3].
Proof. eexists; repeat split; reflexivity. Qed.

Lemma tree_135_built :
  tree_of [(1, 10); (3, 30); (5, 50)] = Some tree_135.
Proof. reflexivity. Qed.

Lemma scenario_closest :
  Closest tree_135 2 GREATER_THAN
  = Some {| pair_key := 3; pair_value := 30 |} /\
  Closest tree_135 4 LESS_THAN
  = Some {| pair_key := 3; pair_value := 30 |}.
Proof. split; reflexivity. Qed.

Lemma scenario_range_limit :
  exists t, tree_of keys_1_to_10 = Some t /\
            keys_of (Query t filter_3_8_limit_3) = [3; 4; 5] /\
            CollectRank t filter_3_8_limit_3 = Some 3.
Proof. eexists; repeat split; reflexivity. Qed.

Lemma tree_1_built : tree_of [(1, 10)] = Some tree_1.
Proof. reflexivity. Qed.

Lemma tree_11_built : tree_of [(1, 10); (1, 20)] = Some tree_11.
Proof. reflexivity. Qed.

Lemma tree_111_built : tree_of [(1, 10); (1, 20); (1, 30)] = Some tree_111.
Proof. reflexivity. Qed.

Lemma tree_dup_built :
  tree_of [(3, 100); (3, 101); (3, 102); (2, 103); (1, 104); (1, 105)]
  = Some tree_dup.
Proof. reflexivity. Qed.

End ScenarioFacts.

#[local] Arguments Z.add _ _ : simpl never.
#[local] Arguments Z.sub _ _ : simpl never.
#[local] Arguments Z.max _ _ : simpl never.
#[local] Arguments Z.abs _ : simpl never.
#[local] Arguments Z.quot _ _ : simpl never.
#[local] Arguments Z.of_nat _ : simpl never.
#[local] Arguments Z.to_nat _ : simpl never.

(** ** Sequences, counts and the unfiltered query *)

Section Basics.

Context {Key Value R : Type}.
Context {comparing_func : Compare Key}.
Context {rank_ops : RankInfo Key Value R}.

Local Abbreviation Node := (Node (Key := Key) (Value := Value) (R := R)).
Local Abbreviation AVLRankTree :=
  (AVLRankTree (Key := Key) (Value := Value) (R := R)).

Lemma count_length (t : Node) : count t = Z.of_nat (length (inorder t)).
Proof.
  induction t as [|l IHl k v h rk r IHr]; simpl; [reflexivity|].
  rewrite length_app; simpl. lia.
Qed.

Lemma count_nonneg (t : Node) : 0 <= count t.
Proof. rewrite count_length. lia. Qed.

Lemma count_zero_null (t : Node) : count t = 0 -> t = NULL.
Proof.
  destruct t as [|l k v h rk r]; [reflexivity|].
  simpl. pose proof (count_nonneg l). pose proof (count_nonneg r). lia.
Qed.

Lemma QueryTraverse_default (t : Node) (q : QueryResult) :
  QueryTraverse t q default_filter
  = {| result := result q ++ inorder t; total := total q + count t |}.
Proof.
  revert q.
  induction t as [|l IHl k v h rk r IHr]; intros q; simpl.
  - rewrite app_nil_r, Z.add_0_r. destruct q; reflexivity.
  - unfold limit_reached; simpl.
    rewrite andb_false_r. rewrite IHl; simpl. rewrite IHr; simpl.
    f_equal; [rewrite <- !app_assoc; reflexivity | lia].
Qed.

Lemma Query_default (t : AVLRankTree) :
  Query t default_filter
  = {| result := inorder (root t); total := count (root t) |}.
Proof. unfold Query. rewrite QueryTraverse_default. reflexivity. Qed.

Lemma Query_default_total (t : AVLRankTree) :
  total (Query t default_filter)
  = Z.of_nat (length (result (Query t default_filter))).
Proof. rewrite Query_default; simpl. apply count_length. Qed.

Lemma every_impl (P Q : Node -> Prop) (t : Node) :
  (forall n, P n -> Q n) -> every P t -> every Q t.
Proof.
  intros HPQ. induction t as [|l IHl k v h rk r IHr]; simpl; [trivial|].
  intros (Hn & Hl & Hr). auto.
Qed.

End Basics.

(** ** Order statistics: [FindIndex] *)

Section Index.

Context {Key Value R : Type}.
Context {comparing_func : Compare Key}.
Context {rank_ops : RankInfo Key Value R}.
Context {counts : RankCounts Key Value R}.

Local Abbreviation Node := (Node (Key := Key) (Value := Value) (R := R)).
Local Abbreviation AVLRankTree :=
  (AVLRankTree (Key := Key) (Value := Value) (R := R)).

Lemma rank_num_count (t : Node) :
  every rank_at t -> rank_num (GetRank t) = count t.
Proof.
  induction t as [|l IHl k v h rk r IHr]; simpl.
  - intros _. apply rank_num_new.
  - intros (Hrk & Hl & Hr). rewrite Hrk.
    rewrite !rank_num_add, rank_num_of, IHl, IHr by assumption. lia.
Qed.

(** [GetRelativeRank] with its default direction counts the node and its
    left subtree. *)
Lemma relative_rank_left (t : Node) :
  every rank_at t ->
  rank_num (GetRelativeRank rank_new t LEFT_CHILD)
  = match t with NULL => 0 | Nd l _ _ _ _ _ => count l + 1 end.
Proof.
  destruct t as [|l k v h rk r]; simpl.
  - intros _. apply rank_num_new.
  - intros (Hrk & Hl & Hr).
    pose proof (rank_num_count l Hl) as Nl.
    pose proof (rank_num_count r Hr) as Nr.
    assert (Hn : rank_num rk = count l + 1 + count r).
    { rewrite Hrk, !rank_num_add, rank_num_of. lia. }
    destruct r as [|rl rk' rv rh rrk rr]; destruct l as [|ll lk lv lh lrk lr];
      simpl in *; rewrite ?rank_num_sub; lia.
Qed.

(** The running index of [FindIndexTraverse] is the 1-based position of the
    current node; [base] entries precede its subtree. *)
Lemma FindIndexTraverse_spec (t : Node) :
  every rank_at t ->
  forall base index cur_index,
    0 <= base ->
    cur_index = base + count (get_left t) + 1 ->
    base < index <= base + count t ->
    exists path e,
      FindIndexTraverse t index cur_index = Some (Some path) /\
      pair_of (node_at t path) = Some e /\
      nth_error (inorder t) (Z.to_nat (index - base - 1)) = Some e.
Proof.
  induction t as [|l IHl k v h rk r IHr]; intros Hrk base index cur Hb Hc Hi.
  - simpl in Hi. lia.
  - simpl in Hrk. destruct Hrk as (Hn & Hl & Hr).
    simpl in Hc, Hi. simpl FindIndexTraverse.
    pose proof (count_nonneg l) as Pl. pose proof (count_nonneg r) as Pr.
    destruct (index =? cur) eqn:E1.
    + apply Z.eqb_eq in E1. subst index.
      exists [], {| pair_key := k; pair_value := v |}.
      repeat split.
      simpl. rewrite nth_error_app2; rewrite <- (Nat2Z.id (length (inorder l)));
        rewrite <- count_length.
      * replace (Z.to_nat (cur - base - 1) - Z.to_nat (count l))%nat with O
          by lia. reflexivity.
      * lia.
    + apply Z.eqb_neq in E1.
      destruct (index >? cur) eqn:E2.
      * assert (cur < index) by lia.
        rewrite (relative_rank_left r Hr).
        destruct r as [|rl rk' rv rh rrk rr]; [simpl in Hi; lia|].
        destruct (IHr Hr cur index (cur + (count rl + 1))) as (p & e & Hf & Hp & Hnth).
        -- lia.
        -- simpl. lia.
        -- simpl in *. lia.
        -- rewrite Hf. exists (to_right :: p), e. repeat split; [exact Hp|].
           simpl inorder. rewrite nth_error_app2;
             rewrite <- (Nat2Z.id (length (inorder l))), <- count_length;
             [|lia].
           replace (Z.to_nat (index - base - 1) - Z.to_nat (count l))%nat
             with (S (Z.to_nat (index - cur - 1))) by lia.
           exact Hnth.
      * assert (index < cur) by lia.
        destruct l as [|ll lk lv lh lrk lr]; [simpl in *; lia|].
        assert (Hlr : cur - rank_num (GetRank lr) - 1 = base + count ll + 1).
        { simpl in Hl. destruct Hl as (_ & _ & Hlr).
          rewrite (rank_num_count lr Hlr). simpl in Hc. lia. }
        assert (Hcur : match lr with
                       | NULL => cur
                       | Nd _ _ _ _ lrrk _ => cur - rank_num lrrk
                       end - 1 = base + count ll + 1).
        { destruct lr; simpl in Hlr; [rewrite rank_num_new in Hlr|]; lia. }
        rewrite Hcur.
        destruct (IHl Hl base index (base + count ll + 1)) as (p & e & Hf & Hp & Hnth).
        -- lia.
        -- reflexivity.
        -- simpl in *. lia.
        -- rewrite Hf. exists (to_left :: p), e. repeat split; [exact Hp|].
           change (inorder (Nd (Nd ll lk lv lh lrk lr) k v h rk r))
             with (inorder (Nd ll lk lv lh lrk lr)
                     ++ {| pair_key := k; pair_value := v |} :: inorder r).
           rewrite nth_error_app1; [exact Hnth|].
           apply nth_error_Some. rewrite Hnth. discriminate.
Qed.

(** C2. For every tree satisfying the invariants (whatever the ordering
    invariant) and every index [0 <= i < size], [FindIndex i] returns the
    [i]-th element (0-based) of the full unfiltered [Query()] result. *)
Theorem FindIndex_is_ith_of_Query
        (ord : Node -> Prop) (t : AVLRankTree) (i : Z) :
  invariants_with ord t ->
  0 <= i < size t ->
  exists e,
    nth_error (result (Query t default_filter)) (Z.to_nat i) = Some e /\
    FindIndex t i = Some (Returned (Some e)).
Proof.
  intros Hinv Hi.
  pose proof (inv_rank Hinv) as Hrk. pose proof (inv_size Hinv) as Hsz.
  unfold FindIndex.
  replace ((i <? 0) || (i >=? size t)) with false
    by (symmetry; apply orb_false_iff; split; lia).
  rewrite (relative_rank_left (root t) Hrk).
  destruct (root t) as [|l k v h rk r] eqn:Hroot.
  - rewrite Hsz in Hi. simpl in Hi. lia.
  - destruct (FindIndexTraverse_spec (Nd l k v h rk r) Hrk 0 (i + 1) (count l + 1))
      as (p & e & Hf & Hp & Hnth).
    + lia.
    + simpl. lia.
    + rewrite <- Hsz. lia.
    + exists e. rewrite Hf. rewrite Query_default, Hroot. simpl result.
      replace (i + 1 - 0 - 1) with i in Hnth by lia.
      split; [exact Hnth|]. unfold deref. rewrite Hp. reflexivity.
Qed.

End Index.

(** ** The comparator as an order *)

Section Order.

Context {Key : Type}.
Context {comparing_func : Compare Key}.
Context {laws : CompareLaws Key}.

Lemma compare_refl (a : Key) : compare a a = EQUAL.
Proof.
  destruct (compare a a) eqn:E; [|reflexivity|];
    pose proof E as E'; apply compare_antisym in E'; congruence.
Qed.

Lemma compare_equal_sym (a b : Key) :
  compare a b = EQUAL -> compare b a = EQUAL.
Proof.
  intros E. destruct (compare b a) eqn:E'; [|reflexivity|];
    apply compare_antisym in E'; congruence.
Qed.

Lemma le_key_refl (a : Key) : le_key a a.
Proof. unfold le_key. rewrite compare_refl. discriminate. Qed.

Lemma le_key_trans (a b c : Key) : le_key a b -> le_key b c -> le_key a c.
Proof. apply compare_trans. Qed.

Lemma lt_key_le (a b : Key) : lt_key a b -> le_key a b.
Proof. unfold lt_key, le_key. congruence. Qed.

Lemma equal_le (a b : Key) : compare a b = EQUAL -> le_key a b /\ le_key b a.
Proof.
  intros E. pose proof (compare_equal_sym _ _ E). unfold le_key.
  split; congruence.
Qed.

Lemma greater_le (a b : Key) : compare a b = GREATER_THAN -> le_key b a.
Proof. intros E. apply compare_antisym in E. apply lt_key_le. exact E. Qed.

Lemma not_le_lt (a b : Key) : ~ le_key a b <-> lt_key b a.
Proof.
  unfold le_key, lt_key. rewrite <- compare_antisym.
  destruct (compare a b); split; intros H; try congruence.
  - exfalso. apply H. discriminate.
  - exfalso. apply H. discriminate.
Qed.

Lemma lt_key_not_le (a b : Key) : lt_key a b -> le_key b a -> False.
Proof. intros Hlt Hle. apply not_le_lt in Hlt. auto. Qed.

Lemma le_lt_trans (a b c : Key) : le_key a b -> lt_key b c -> lt_key a c.
Proof.
  intros Hab Hbc. apply not_le_lt. intros Hca.
  apply (lt_key_not_le _ _ Hbc). eapply le_key_trans; eassumption.
Qed.

Lemma lt_le_trans (a b c : Key) : lt_key a b -> le_key b c -> lt_key a c.
Proof.
  intros Hab Hbc. apply not_le_lt. intros Hca.
  apply (lt_key_not_le _ _ Hab). eapply le_key_trans; eassumption.
Qed.

Lemma le_or_lt (a b : Key) : le_key a b \/ lt_key b a.
Proof.
  unfold le_key, lt_key. rewrite <- compare_antisym.
  destruct (compare a b); [left|left|right]; congruence.
Qed.

End Order.

Create HintDb order.
#[local] Hint Resolve le_key_refl lt_key_le greater_le : order.

(** ** Predecessor and successor search: [Closest] *)

Section ClosestFacts.

Context {Key Value R : Type}.
Context {comparing_func : Compare Key}.
Context {rank_ops : RankInfo Key Value R}.
Context {laws : CompareLaws Key}.

Local Abbreviation Node := (Node (Key := Key) (Value := Value) (R := R)).
Local Abbreviation AVLRankTree :=
  (AVLRankTree (Key := Key) (Value := Value) (R := R)).

Lemma keys_Nd (l : Node) k v h rk (r : Node) :
  keys (Nd l k v h rk r) = keys l ++ k :: keys r.
Proof. unfold keys. simpl. rewrite map_app. reflexivity. Qed.

Lemma in_keys_Nd (l : Node) k v h rk (r : Node) x :
  In x (keys (Nd l k v h rk r)) <-> In x (keys l) \/ x = k \/ In x (keys r).
Proof.
  rewrite keys_Nd, in_app_iff. simpl. intuition congruence.
Qed.

Lemma in_inorder_keys (t : Node) e :
  In e (inorder t) -> In (pair_key e) (keys t).
Proof. intros H. unfold keys. apply in_map. exact H. Qed.

Lemma found_below_left (l : Node) k v h rk (r : Node) p P :
  found_below l p P -> found_below (Nd l k v h rk r) (to_left :: p) P.
Proof.
  intros (e & He & Hin & HP). exists e. simpl. repeat split; auto.
  apply in_or_app. left. exact Hin.
Qed.

Lemma found_below_right (l : Node) k v h rk (r : Node) p P :
  found_below r p P -> found_below (Nd l k v h rk r) (to_right :: p) P.
Proof.
  intros (e & He & Hin & HP). exists e. simpl. repeat split; auto.
  apply in_or_app. right. right. exact Hin.
Qed.

Lemma found_below_here (l : Node) k v h rk (r : Node) (P : Key -> Prop) :
  P k -> found_below (Nd l k v h rk r) [] P.
Proof.
  intros HP. exists {| pair_key := k; pair_value := v |}. simpl.
  repeat split; auto. apply in_or_app. right. left. reflexivity.
Qed.

Lemma found_below_impl (t : Node) p (P Q : Key -> Prop) :
  (forall c, In c (keys t) -> P c -> Q c) ->
  found_below t p P -> found_below t p Q.
Proof.
  intros HPQ (e & He & Hin & HP). exists e. repeat split; auto.
  apply HPQ; [apply in_inorder_keys|]; assumption.
Qed.

Lemma ClosestTraverse_floor (t : Node) :
  every ordered_at t ->
  forall here result_node k,
    let out := ClosestTraverse here t k result_node LESS_THAN in
    (out = result_node /\ forall x, In x (keys t) -> lt_key k x) \/
    (exists p, out = Some (here ++ p) /\
               found_below t p (floor_of (keys t) k)).
Proof.
  induction t as [|l IHl c v h rk r IHr]; intros Hord here res k; simpl.
  - left. split; [reflexivity|]. intros x [].
  - simpl in Hord. destruct Hord as ((Hlc & Hcr) & Hl & Hr).
    rewrite Forall_forall in Hlc, Hcr.
    destruct (compare k c) eqn:E.
    + (* k < c: descend left, no candidate recorded *)
      simpl. destruct (IHl Hl (here ++ [to_left]) res k) as [(Ho & Hall)|(p & Ho & Hf)].
      * left. split; [exact Ho|]. intros x Hx.
        apply in_keys_Nd in Hx. destruct Hx as [Hx|[->|Hx]]; auto.
        eapply lt_le_trans; [exact E|]. auto.
      * right. exists (to_left :: p). rewrite Ho, <- app_assoc. split; [reflexivity|].
        apply found_below_left with (k := c) (v := v) (h := h) (rk := rk) (r := r) in Hf.
        revert Hf. apply found_below_impl. intros c' _ (Hc'k & Hmax).
        split; [exact Hc'k|]. intros x Hx Hxk.
        apply in_keys_Nd in Hx. destruct Hx as [Hx|[->|Hx]]; auto.
        -- exfalso. eapply lt_key_not_le; eassumption.
        -- exfalso. apply (lt_key_not_le _ _ E).
           eapply le_key_trans; [apply Hcr; exact Hx|exact Hxk].
    + (* equal: this node *)
      right. exists []. rewrite app_nil_r. split; [reflexivity|].
      apply found_below_here. destruct (equal_le _ _ E) as (Hkc & Hck).
      split; [exact Hck|]. intros x _ Hxk. eapply le_key_trans; eassumption.
    + (* k > c: this node is a candidate, descend right *)
      simpl. pose proof (greater_le _ _ E) as Hck.
      assert (Hhere : found_below (Nd l c v h rk r) []
                        (fun c' => le_key c' k /\
                                   forall x, In x (keys l) \/ x = c ->
                                             le_key x c')).
      { apply found_below_here. split; [exact Hck|].
        intros x [Hx| ->]; auto with order. }
      destruct (IHr Hr (here ++ [to_right]) (Some here) k)
        as [(Ho & Hall)|(p & Ho & Hf)].
      * right. exists []. rewrite app_nil_r. split; [exact Ho|].
        revert Hhere. apply found_below_impl. intros c' _ (Hc'k & Hmax).
        split; [exact Hc'k|]. intros x Hx Hxk.
        apply in_keys_Nd in Hx. destruct Hx as [Hx|[->|Hx]]; auto.
        exfalso. eapply lt_key_not_le; [apply Hall; exact Hx|exact Hxk].
      * right. exists (to_right :: p). rewrite Ho, <- app_assoc.
        split; [reflexivity|].
        assert (Hf' : found_below r p (fun c' => floor_of (keys r) k c' /\
                                                 le_key c c')).
        { destruct Hf as (e & He & Hin & HP). exists e.
          split; [exact He|]. split; [exact Hin|]. split; [exact HP|].
          apply Hcr. apply in_inorder_keys. exact Hin. }
        apply found_below_right with (l := l) (k := c) (v := v) (h := h) (rk := rk)
          in Hf'.
        revert Hf'. apply found_below_impl. intros c' _ ((Hc'k & Hmax) & Hcc').
        split; [exact Hc'k|]. intros x Hx Hxk.
        apply in_keys_Nd in Hx. destruct Hx as [Hx|[->|Hx]]; auto.
        eapply le_key_trans; [apply Hlc; exact Hx|exact Hcc'].
Qed.

Lemma ClosestTraverse_ceiling (t : Node) :
  every ordered_at t ->
  forall here result_node k,
    let out := ClosestTraverse here t k result_node GREATER_THAN in
    (out = result_node /\ forall x, In x (keys t) -> lt_key x k) \/
    (exists p, out = Some (here ++ p) /\
               found_below t p (ceiling_of (keys t) k)).
Proof.
  induction t as [|l IHl c v h rk r IHr]; intros Hord here res k; simpl.
  - left. split; [reflexivity|]. intros x [].
  - simpl in Hord. destruct Hord as ((Hlc & Hcr) & Hl & Hr).
    rewrite Forall_forall in Hlc, Hcr.
    destruct (compare k c) eqn:E.
    + (* k < c: this node is a candidate, descend left *)
      simpl. pose proof (lt_key_le _ _ E) as Hkc.
      assert (Hhere : found_below (Nd l c v h rk r) []
                        (fun c' => le_key k c' /\
                                   forall x, In x (keys r) \/ x = c ->
                                             le_key c' x)).
      { apply found_below_here. split; [exact Hkc|].
        intros x [Hx| ->]; auto with order. }
      destruct (IHl Hl (here ++ [to_left]) (Some here) k)
        as [(Ho & Hall)|(p & Ho & Hf)].
      * right. exists []. rewrite app_nil_r. split; [exact Ho|].
        revert Hhere. apply found_below_impl. intros c' _ (Hc'k & Hmin).
        split; [exact Hc'k|]. intros x Hx Hxk.
        apply in_keys_Nd in Hx. destruct Hx as [Hx|[->|Hx]]; auto.
        exfalso. eapply lt_key_not_le; [apply Hall; exact Hx|exact Hxk].
      * right. exists (to_left :: p). rewrite Ho, <- app_assoc.
        split; [reflexivity|].
        assert (Hf' : found_below l p (fun c' => ceiling_of (keys l) k c' /\
                                                 le_key c' c)).
        { destruct Hf as (e & He & Hin & HP). exists e.
          split; [exact He|]. split; [exact Hin|]. split; [exact HP|].
          apply Hlc. apply in_inorder_keys. exact Hin. }
        apply found_below_left with (k := c) (v := v) (h := h) (rk := rk) (r := r)
          in Hf'.
        revert Hf'. apply found_below_impl. intros c' _ ((Hc'k & Hmin) & Hcc').
        split; [exact Hc'k|]. intros x Hx Hxk.
        apply in_keys_Nd in Hx. destruct Hx as [Hx|[->|Hx]]; auto.
        eapply le_key_trans; [exact Hcc'|apply Hcr; exact Hx].
    + (* equal: this node *)
      right. exists []. rewrite app_nil_r. split; [reflexivity|].
      apply found_below_here. destruct (equal_le _ _ E) as (Hkc & Hck).
      split; [exact Hkc|]. intros x _ Hxk. eapply le_key_trans; eassumption.
    + (* k > c: descend right, no candidate recorded *)
      simpl. pose proof (proj1 (compare_antisym _ _) E) as Hlt.
      destruct (IHr Hr (here ++ [to_right]) res k) as [(Ho & Hall)|(p & Ho & Hf)].
      * left. split; [exact Ho|]. intros x Hx.
        apply in_keys_Nd in Hx. destruct Hx as [Hx|[->|Hx]]; auto.
        eapply le_lt_trans; [apply Hlc; exact Hx|exact Hlt].
      * right. exists (to_right :: p). rewrite Ho, <- app_assoc.
        split; [reflexivity|].
        apply found_below_right with (l := l) (k := c) (v := v) (h := h) (rk := rk)
          in Hf.
        revert Hf. apply found_below_impl. intros c' _ (Hc'k & Hmin).
        split; [exact Hc'k|]. intros x Hx Hxk.
        apply in_keys_Nd in Hx. destruct Hx as [Hx|[->|Hx]]; auto.
        -- exfalso. apply (lt_key_not_le _ _ Hlt).
           eapply le_key_trans; [exact Hxk|apply Hlc; exact Hx].
        -- exfalso. eapply lt_key_not_le; eassumption.
Qed.

(** C5, amended. On a tree whose keys are ordered,
    [Closest(k, LESS_THAN)] returns an entry of the tree with the greatest
    key less than or equal to [k] (so an entry whose key compares equal to
    [k] when there is one), and is absent exactly when every key is greater
    than [k]; [Closest(k, GREATER_THAN)] returns an entry with the smallest
    key greater than or equal to [k], and is absent exactly when every key
    is less than [k]. *)
Theorem Closest_floor_ceiling (t : AVLRankTree) (k : Key) :
  every ordered_at (root t) ->
  match Closest t k LESS_THAN with
  | Some e => In e (inorder (root t)) /\
              floor_of (keys (root t)) k (pair_key e)
  | None => forall x, In x (keys (root t)) -> lt_key k x
  end /\
  match Closest t k GREATER_THAN with
  | Some e => In e (inorder (root t)) /\
              ceiling_of (keys (root t)) k (pair_key e)
  | None => forall x, In x (keys (root t)) -> lt_key x k
  end.
Proof.
  intros Hord. unfold Closest. simpl COMPARE_RESULT_eqb. cbv iota. split.
  - destruct (ClosestTraverse_floor (root t) Hord [] None k)
      as [(Ho & Hall)|(p & Ho & e & He & Hin & HP)].
    + rewrite Ho. simpl. exact Hall.
    + rewrite Ho. simpl. rewrite He. split; assumption.
  - destruct (ClosestTraverse_ceiling (root t) Hord [] None k)
      as [(Ho & Hall)|(p & Ho & e & He & Hin & HP)].
    + rewrite Ho. simpl. exact Hall.
    + rewrite Ho. simpl. rewrite He. split; assumption.
Qed.

End ClosestFacts.

(** ** Merge construction *)

Section Arithmetic.

Lemma built_height_halves (n : Z) :
  1 <= n ->
  let nl := (n - 1) / 2 in
  let nr := n - 1 - nl in
  Z.max (built_height nl) (built_height nr) + 1 = built_height n /\
  Z.abs (built_height nl - built_height nr) <= 1.
Proof.
  intros Hn nl nr.
  assert (Hnl : nl = (n - 1) / 2) by reflexivity.
  assert (Hnr' : nr = n - 1 - nl) by reflexivity.
  clearbody nl nr.
  destruct (Z.eq_dec n 1) as [->|Hn1].
  - subst nr nl. split; [reflexivity|vm_compute; discriminate].
  - assert (Hcase : (n = 2 * nr /\ nl = nr - 1) \/ (n = 2 * nr + 1 /\ nl = nr)).
    { pose proof (Z.div_mod (n - 1) 2 ltac:(lia)).
      pose proof (Z.mod_pos_bound (n - 1) 2 ltac:(lia)). lia. }
    assert (Hnr : 1 <= nr) by lia.
    assert (Hlog : Z.log2 n = Z.log2 nr + 1).
    { destruct Hcase as [(Hc & _)|(Hc & _)]; rewrite Hc.
      - rewrite Z.log2_double by lia. lia.
      - rewrite Z.log2_succ_double by lia. lia. }
    unfold built_height.
    replace (n =? 0) with false by (symmetry; apply Z.eqb_neq; lia).
    replace (nr =? 0) with false by (symmetry; apply Z.eqb_neq; lia).
    rewrite Hlog.
    pose proof (Z.log2_nonneg nr).
    destruct (nl =? 0) eqn:E.
    + apply Z.eqb_eq in E.
      destruct (Z.eq_dec nr 1) as [->|Hne]; [simpl Z.log2; lia|].
      assert (nr = 0) by lia. lia.
    + apply Z.eqb_neq in E.
      destruct Hcase as [(_ & Hl)|(_ & Hl)].
      * pose proof (Z.log2_succ_le nl) as Hs.
        replace (Z.succ nl) with nr in Hs by lia.
        pose proof (Z.log2_le_mono nl nr ltac:(lia)). lia.
      * rewrite Hl. lia.
Qed.

End Arithmetic.

Section RankFacts.

Context {Key Value R : Type}.
Context {rank_ops : RankInfo Key Value R}.
Context {rank_laws : RankLaws Key Value R}.

Local Abbreviation Node := (Node (Key := Key) (Value := Value) (R := R)).

Lemma rank_add_swap (a b c : R) :
  rank_add (rank_add a b) c = rank_add (rank_add a c) b.
Proof.
  rewrite <- !rank_add_assoc. f_equal. apply rank_add_comm.
Qed.

Lemma UpdateRank_Nd (l : Node) k v h rk (r c1 c2 : Node) :
  UpdateRank (Nd l k v h rk r) c1 c2
  = Nd l k v h (rank_add (rank_add (rank_of k v) (GetRank c1)) (GetRank c2)) r.
Proof.
  destruct c1, c2; simpl; rewrite ?rank_add_new; reflexivity.
Qed.

End RankFacts.

Section Merge.

Context {Key Value R : Type}.
Context {comparing_func : Compare Key}.
Context {rank_ops : RankInfo Key Value R}.

Local Abbreviation Node := (Node (Key := Key) (Value := Value) (R := R)).
Local Abbreviation AVLRankTree :=
  (AVLRankTree (Key := Key) (Value := Value) (R := R)).
Local Abbreviation KeyValuePair := (KeyValuePair (Key := Key) (Value := Value)).
Local Abbreviation QueryResult := (QueryResult (Key := Key) (Value := Value)).

Lemma two_pointer_merge_nil_r (a : list KeyValuePair) :
  two_pointer_merge a [] = a.
Proof. destruct a; reflexivity. Qed.

Lemma two_pointer_merge_nil_l (b : list KeyValuePair) :
  two_pointer_merge [] b = b.
Proof. destruct b; reflexivity. Qed.

Lemma two_pointer_merge_cons (x y : KeyValuePair) (a b : list KeyValuePair) :
  two_pointer_merge (x :: a) (y :: b)
  = match compare (pair_key x) (pair_key y) with
    | LESS_THAN => x :: two_pointer_merge a (y :: b)
    | _ => y :: two_pointer_merge (x :: a) b
    end.
Proof. reflexivity. Qed.

Lemma two_pointer_merge_length (a b : list KeyValuePair) :
  length (two_pointer_merge a b) = (length a + length b)%nat.
Proof.
  revert b. induction a as [|x a IHa]; intros b.
  - rewrite two_pointer_merge_nil_l. reflexivity.
  - induction b as [|y b IHb].
    + rewrite two_pointer_merge_nil_r. simpl. lia.
    + rewrite two_pointer_merge_cons.
      destruct (compare (pair_key x) (pair_key y)); cbn [length];
        rewrite ?IHa, ?IHb; cbn [length]; lia.
Qed.

Lemma skipn_nth_error (A : Type) (l : list A) (n : nat) (x : A) :
  nth_error l n = Some x -> skipn n l = x :: skipn (S n) l.
Proof.
  revert n. induction l as [|y l IHl]; intros [|n] H; simpl in *;
    try discriminate.
  - congruence.
  - apply IHl. exact H.
Qed.

Lemma nth_error_in_range (A : Type) (l : list A) (i : Z) :
  0 <= i < Z.of_nat (length l) ->
  exists x, nth_error l (Z.to_nat i) = Some x.
Proof.
  intros Hi. destruct (nth_error l (Z.to_nat i)) eqn:E; [eauto|].
  apply nth_error_None in E. lia.
Qed.

(** The loop of [MergeTwoQueries] is the two-pointer merge of what is left
    of the two arrays. *)
Lemma merge_loop_spec (first second : QueryResult) :
  total first = Z.of_nat (length (result first)) ->
  total second = Z.of_nat (length (result second)) ->
  forall fuel i j out,
    0 <= i <= total first -> 0 <= j <= total second ->
    total first + total second - (i + j) <= Z.of_nat fuel ->
    merge_loop fuel first second (total first + total second) i j (i + j) out
    = Some (out ++ two_pointer_merge (skipn (Z.to_nat i) (result first))
                                     (skipn (Z.to_nat j) (result second))).
Proof.
  intros Hf Hs.
  induction fuel as [|fuel IH]; intros i j out Hi Hj Hfuel.
  - simpl. replace (i + j <? total first + total second) with false
      by (symmetry; apply Z.ltb_ge; lia).
    rewrite !skipn_all2 by lia. rewrite app_nil_r. reflexivity.
  - simpl. destruct (i + j <? total first + total second) eqn:Et.
    2:{ apply Z.ltb_ge in Et. rewrite !skipn_all2 by lia.
        rewrite app_nil_r. reflexivity. }
    apply Z.ltb_lt in Et.
    assert (Si : Z.to_nat (i + 1) = S (Z.to_nat i)) by lia.
    assert (Sj : Z.to_nat (j + 1) = S (Z.to_nat j)) by lia.
    destruct (i <? total first) eqn:Ei; destruct (j <? total second) eqn:Ej;
      simpl andb; cbv iota.
    + apply Z.ltb_lt in Ei, Ej.
      destruct (nth_error_in_range _ (result first) i ltac:(lia)) as (a & Ha).
      destruct (nth_error_in_range _ (result second) j ltac:(lia)) as (b & Hb).
      rewrite Ha, Hb.
      rewrite (skipn_nth_error _ _ _ _ Ha), (skipn_nth_error _ _ _ _ Hb).
      rewrite two_pointer_merge_cons.
      destruct (compare (pair_key a) (pair_key b)).
      * replace (i + j + 1) with (i + 1 + j) by lia.
        rewrite IH by lia. rewrite Si, <- app_assoc.
        rewrite <- (skipn_nth_error _ _ _ _ Hb). reflexivity.
      * replace (i + j + 1) with (i + (j + 1)) by lia.
        rewrite IH by lia. rewrite Sj, <- app_assoc.
        rewrite <- (skipn_nth_error _ _ _ _ Ha). reflexivity.
      * replace (i + j + 1) with (i + (j + 1)) by lia.
        rewrite IH by lia. rewrite Sj, <- app_assoc.
        rewrite <- (skipn_nth_error _ _ _ _ Ha). reflexivity.
    + apply Z.ltb_lt in Ei. apply Z.ltb_ge in Ej.
      replace (j >=? total second) with true by (symmetry; apply Z.geb_le; lia).
      destruct (nth_error_in_range _ (result first) i ltac:(lia)) as (a & Ha).
      rewrite Ha. replace (i + j + 1) with (i + 1 + j) by lia.
      rewrite IH by lia. rewrite Si, <- app_assoc.
      rewrite (skipn_nth_error _ _ _ _ Ha).
      rewrite (skipn_all2 (n := Z.to_nat j)) by lia.
      rewrite !two_pointer_merge_nil_r. reflexivity.
    + apply Z.ltb_lt in Ej. apply Z.ltb_ge in Ei.
      replace (j >=? total second) with false
        by (symmetry; rewrite Z.geb_leb; apply Z.leb_gt; lia).
      destruct (nth_error_in_range _ (result second) j ltac:(lia)) as (b & Hb).
      rewrite Hb. replace (i + j + 1) with (i + (j + 1)) by lia.
      rewrite IH by lia. rewrite Sj, <- app_assoc.
      rewrite (skipn_nth_error _ _ _ _ Hb).
      rewrite (skipn_all2 (n := Z.to_nat i)) by lia.
      rewrite !two_pointer_merge_nil_l. reflexivity.
    + apply Z.ltb_ge in Ei, Ej. lia.
Qed.

Lemma MergeTwoQueries_spec (first second : QueryResult) :
  total first = Z.of_nat (length (result first)) ->
  total second = Z.of_nat (length (result second)) ->
  total first + total second <> 0 ->
  MergeTwoQueries first second
  = Some (Some {| result := two_pointer_merge (result first) (result second);
                  total := total first + total second |}).
Proof.
  intros Hf Hs Hne. unfold MergeTwoQueries.
  replace (total first + total second =? 0) with false
    by (symmetry; apply Z.eqb_neq; exact Hne).
  change (merge_loop (Z.to_nat (total first + total second)) first second
            (total first + total second) 0 0 0 [])
    with (merge_loop (Z.to_nat (total first + total second)) first second
            (total first + total second) 0 0 (0 + 0) []).
  rewrite merge_loop_spec by lia. reflexivity.
Qed.

End Merge.

Section Build.

Context {Key Value R : Type}.
Context {comparing_func : Compare Key}.
Context {rank_ops : RankInfo Key Value R}.

Local Abbreviation Node := (Node (Key := Key) (Value := Value) (R := R)).
Local Abbreviation AVLRankTree :=
  (AVLRankTree (Key := Key) (Value := Value) (R := R)).
Local Abbreviation KeyValuePair := (KeyValuePair (Key := Key) (Value := Value)).
Local Abbreviation QueryResult := (QueryResult (Key := Key) (Value := Value)).

Lemma firstn_middle (A : Type) (X : list A) (a b : nat) (x : A) :
  nth_error X a = Some x ->
  firstn (a + 1 + b) X = firstn a X ++ x :: firstn b (skipn (a + 1) X).
Proof.
  revert X. induction a as [|a IHa]; intros [|y X] H; simpl in H;
    try discriminate.
  - injection H as ->. reflexivity.
  - simpl. f_equal. apply IHa. exact H.
Qed.

Lemma segment_split (L : list KeyValuePair) (s a b : nat) (x : KeyValuePair) :
  nth_error L (s + a) = Some x ->
  segment L s (a + 1 + b) = segment L s a ++ x :: segment L (s + a + 1) b.
Proof.
  intros H. unfold segment.
  rewrite (firstn_middle _ (skipn s L) a b x).
  - rewrite skipn_skipn.
    replace (a + 1 + s)%nat with (s + a + 1)%nat by lia. reflexivity.
  - rewrite nth_error_skipn. exact H.
Qed.

Lemma below_under (here : list link) (d : link) (p : ptr) :
  below here (under d p) = below (here ++ [d]) p.
Proof. destruct p; simpl; [rewrite <- app_assoc|]; reflexivity. Qed.

Lemma FindMin_Nd (l : Node) k v h rk (r : Node) :
  FindMin (Nd l k v h rk r)
  = if is_null l then Some [] else under to_left (FindMin l).
Proof. destruct l; reflexivity. Qed.

Lemma FindMax_Nd (l : Node) k v h rk (r : Node) :
  FindMax (Nd l k v h rk r)
  = if is_null r then Some [] else under to_right (FindMax r).
Proof. destruct r; reflexivity. Qed.

Lemma TreeFromQuery_builds (query : QueryResult) :
  total query = Z.of_nat (length (result query)) ->
  forall fuel start end_ here this,
    0 <= start -> end_ < total query -> start <= end_ + 1 ->
    end_ - start + 1 <= Z.of_nat fuel ->
    exists t this',
      TreeFromQuery fuel query start end_ here this = Some (t, this') /\
      builds query start end_ here this t this'.
Proof.
  intros Htot.
  induction fuel as [|fuel IH]; intros start end_ here this Hs He Hse Hfuel.
  - assert (Hgt : (start >? end_) = true) by (apply Z.gtb_lt; lia).
    exists NULL, this. simpl. rewrite Hgt. split; [reflexivity|].
    unfold builds. rewrite Hgt.
    replace (start <=? end_) with false by (symmetry; apply Z.leb_gt; lia).
    rewrite !andb_false_r.
    replace (end_ - start + 1) with 0 by lia.
    repeat split; simpl; trivial.
  - simpl TreeFromQuery. destruct (start >? end_) eqn:Hgt.
    { exists NULL, this. split; [reflexivity|].
      apply Z.gtb_lt in Hgt. unfold builds.
      replace (start >? end_) with true by (symmetry; apply Z.gtb_lt; lia).
      replace (start <=? end_) with false by (symmetry; apply Z.leb_gt; lia).
      rewrite !andb_false_r.
      replace (end_ - start + 1) with 0 by lia.
      repeat split; simpl; trivial. }
    assert (Hle : start <= end_) by (rewrite Z.gtb_ltb in Hgt; apply Z.ltb_ge in Hgt; lia).
    set (n := end_ - start + 1).
    set (middle := Z.quot (start + end_) 2).
    assert (Hmid : middle = start + (n - 1) / 2).
    { subst middle n. rewrite Z.quot_div_nonneg by lia.
      pose proof (Z.div_mod (start + end_) 2 ltac:(lia)).
      pose proof (Z.mod_pos_bound (start + end_) 2 ltac:(lia)).
      pose proof (Z.div_mod (end_ - start + 1 - 1) 2 ltac:(lia)).
      pose proof (Z.mod_pos_bound (end_ - start + 1 - 1) 2 ltac:(lia)). lia. }
    assert (Hhalf : 0 <= (n - 1) / 2 /\ 2 * ((n - 1) / 2) <= n - 1).
    { pose proof (Z.div_mod (n - 1) 2 ltac:(lia)).
      pose proof (Z.mod_pos_bound (n - 1) 2 ltac:(lia)). subst n. lia. }
    assert (Hmr : start <= middle <= end_) by (subst n; lia).
    replace (middle <? 0) with false by (symmetry; apply Z.ltb_ge; lia).
    destruct (nth_error_in_range _ (result query) middle ltac:(lia)) as (kv & Hkv).
    rewrite Hkv.
    set (this1 := match b_root this with
                  | None => {| b_root := Some here; b_max := b_max this;
                               b_min := b_min this |}
                  | Some _ => this
                  end).
    set (this2 := if middle =? 0
                  then {| b_root := b_root this1; b_max := b_max this1;
                          b_min := Some here |}
                  else this1).
    set (this3 := if middle =? total query - 1
                  then {| b_root := b_root this2; b_max := Some here;
                          b_min := b_min this2 |}
                  else this2).
    assert (H3root : b_root this3
                     = match b_root this with
                       | None => Some here | Some p => Some p end).
    { subst this3 this2 this1.
      destruct (b_root this) eqn:Er, (middle =? 0), (middle =? total query - 1);
        simpl; rewrite ?Er; reflexivity. }
    assert (H3min : b_min this3
                    = if middle =? 0 then Some here else b_min this).
    { subst this3 this2 this1.
      destruct (b_root this), (middle =? 0), (middle =? total query - 1);
        reflexivity. }
    assert (H3max : b_max this3
                    = if middle =? total query - 1 then Some here
                      else b_max this).
    { subst this3 this2 this1.
      destruct (b_root this), (middle =? 0), (middle =? total query - 1);
        reflexivity. }
    clearbody this3. clear this1 this2.
    destruct (IH start (middle - 1) (here ++ [to_left]) this3)
      as (l & thisL & HL & Hl); try lia.
    rewrite HL. cbv beta iota.
    destruct (IH (middle + 1) end_ (here ++ [to_right]) thisL)
      as (r & thisR & HR & Hr); try lia.
    rewrite HR. cbv beta iota zeta.
    eexists. exists thisR. split; [reflexivity|].
    destruct Hl as (Lin & Lnull & Lbal & Lhgt & Lh & Lroot & Lmin & Lmax).
    destruct Hr as (Rin & Rnull & Rbal & Rhgt & Rh & Rroot & Rmin & Rmax).
    pose proof (built_height_halves n ltac:(subst n; lia)) as Hh.
    cbv zeta in Hh.
    replace (middle - 1 - start + 1) with ((n - 1) / 2) in * by lia.
    replace (end_ - (middle + 1) + 1) with (n - 1 - (n - 1) / 2) in *
      by (subst n; lia).
    rewrite <- Lh, <- Rh in Hh. destruct Hh as (Hh1 & Hh2).
    unfold builds. rewrite Hgt. fold n.
    split.
    { simpl inorder. rewrite Lin, Rin.
      replace (Z.to_nat n)
        with (Z.to_nat ((n - 1) / 2) + 1 + Z.to_nat (n - 1 - (n - 1) / 2))%nat
        by lia.
      destruct kv as [kk kvv]. simpl pair_key. simpl pair_value.
      rewrite (segment_split (result query) (Z.to_nat start)
                 (Z.to_nat ((n - 1) / 2)) _ {| pair_key := kk; pair_value := kvv |}).
      - do 3 f_equal. lia.
      - rewrite <- Hkv. f_equal. lia. }
    split; [reflexivity|].
    split; [simpl; repeat split; assumption|].
    split; [simpl; repeat split; try assumption; lia|].
    split; [simpl; lia|].
    replace (start <=? end_) with true by (symmetry; apply Z.leb_le; lia).
    rewrite !andb_true_r.
    split.
    { rewrite Rroot, Lroot, H3root.
      destruct (middle + 1 >? end_), (start >? middle - 1), (b_root this);
        reflexivity. }
    split.
    { rewrite Rmin.
      replace (middle + 1 =? 0) with false by (symmetry; apply Z.eqb_neq; lia).
      simpl andb. cbv iota. rewrite Lmin, H3min.
      rewrite FindMin_Nd, Lnull.
      destruct (start =? 0) eqn:E0; simpl andb; cbv iota.
      - apply Z.eqb_eq in E0.
        destruct (start <=? middle - 1) eqn:E1.
        + rewrite Z.gtb_ltb.
          replace (middle - 1 <? start) with false
            by (symmetry; apply Z.ltb_ge; apply Z.leb_le in E1; lia).
          rewrite below_under. reflexivity.
        + apply Z.leb_gt in E1.
          replace (start >? middle - 1) with true
            by (symmetry; apply Z.gtb_lt; lia).
          replace (middle =? 0) with true by (symmetry; apply Z.eqb_eq; lia).
          simpl. rewrite app_nil_r. reflexivity.
      - apply Z.eqb_neq in E0.
        replace (middle =? 0) with false by (symmetry; apply Z.eqb_neq; lia).
        reflexivity. }
    { rewrite Rmax.
      rewrite FindMax_Nd, Rnull.
      destruct (end_ =? total query - 1) eqn:E0; simpl andb; cbv iota.
      - apply Z.eqb_eq in E0.
        destruct (middle + 1 <=? end_) eqn:E1.
        + rewrite Z.gtb_ltb.
          replace (end_ <? middle + 1) with false
            by (symmetry; apply Z.ltb_ge; apply Z.leb_le in E1; lia).
          rewrite below_under. reflexivity.
        + apply Z.leb_gt in E1.
          replace (middle + 1 >? end_) with true
            by (symmetry; apply Z.gtb_lt; lia).
          rewrite Lmax.
          replace (middle - 1 =? total query - 1) with false
            by (symmetry; apply Z.eqb_neq; lia).
          simpl andb. cbv iota. rewrite H3max.
          replace (middle =? total query - 1) with true
            by (symmetry; apply Z.eqb_eq; lia).
          simpl. rewrite app_nil_r. reflexivity.
      - apply Z.eqb_neq in E0. rewrite Lmax.
        replace (middle - 1 =? total query - 1) with false
          by (symmetry; apply Z.eqb_neq; lia).
        simpl andb. cbv iota. rewrite H3max.
        replace (middle =? total query - 1) with false
          by (symmetry; apply Z.eqb_neq; lia).
        reflexivity. }
Qed.

Lemma segment_all (L : list KeyValuePair) : segment L 0 (length L) = L.
Proof. unfold segment. rewrite skipn_0. apply firstn_all. Qed.

(** The tree a constructor holds after [TreeFromQuery(query, 0, total-1)]
    on a non-empty array. *)
Lemma built_from_query (query : QueryResult) (sz : Z) :
  total query = Z.of_nat (length (result query)) ->
  total query <> 0 ->
  exists made,
    TreeFromQuery (Z.to_nat (total query) + 1) query 0 (total query - 1) []
                  unbuilt = Some made /\
    root (built sz made) = fst made /\
    inorder (fst made) = result query /\
    every balanced_at (fst made) /\ every height_at (fst made) /\
    size (built sz made) = sz /\
    min_node (built sz made) = FindMin (fst made) /\
    max_node (built sz made) = FindMax (fst made).
Proof.
  intros Htot Hne.
  destruct (TreeFromQuery_builds query Htot (Z.to_nat (total query) + 1) 0
              (total query - 1) [] unbuilt)
    as (t & this' & Hrun & Hin & Hnull & Hbal & Hhgt & Hh & Hroot & Hmin & Hmax);
    try lia.
  exists (t, this'). split; [exact Hrun|].
  replace (0 >? total query - 1) with false in *
    by (symmetry; rewrite Z.gtb_ltb; apply Z.ltb_ge; lia).
  replace (0 <=? total query - 1) with true in *
    by (symmetry; apply Z.leb_le; lia).
  rewrite Z.eqb_refl in *. simpl andb in *. cbv iota in *.
  unfold built. simpl fst. simpl snd. simpl root. simpl size.
  simpl min_node. simpl max_node.
  rewrite Hroot, Hmin, Hmax. simpl.
  repeat split; trivial.
  - rewrite Hin. replace (Z.to_nat (total query - 1 - 0 + 1))
      with (length (result query)) by lia.
    apply segment_all.
  - destruct (FindMin t); reflexivity.
  - destruct (FindMax t); reflexivity.
Qed.

(** The merge constructor, on sources whose [size] is their node count. *)
Lemma merge_trees_built (first_tree second_tree : AVLRankTree) :
  size first_tree = count (root first_tree) ->
  size second_tree = count (root second_tree) ->
  exists t,
    merge_trees first_tree second_tree = Some t /\
    inorder (root t)
    = two_pointer_merge (inorder (root first_tree))
                        (inorder (root second_tree)) /\
    every balanced_at (root t) /\ every height_at (root t) /\
    size t = count (root first_tree) + count (root second_tree) /\
    min_node t = FindMin (root t) /\
    max_node t = FindMax (root t) /\
    (size t = 0 \/
     exists fuel made,
       TreeFromQuery fuel
         {| result := two_pointer_merge (inorder (root first_tree))
                                        (inorder (root second_tree));
            total := size t |} 0 (size t - 1) [] unbuilt = Some made /\
       root t = fst made).
Proof.
  intros Hf Hs. unfold merge_trees. simpl size.
  destruct (size first_tree + size second_tree =? 0) eqn:E.
  - apply Z.eqb_eq in E.
    pose proof (count_nonneg (root first_tree)).
    pose proof (count_nonneg (root second_tree)).
    rewrite (count_zero_null (root first_tree)) by lia.
    rewrite (count_zero_null (root second_tree)) by lia.
    eexists. split; [reflexivity|]. simpl.
    repeat split; trivial. left. exact E.
  - apply Z.eqb_neq in E.
    rewrite !Query_default.
    rewrite MergeTwoQueries_spec; simpl result; simpl total;
      try apply count_length; [|lia].
    set (query := {| result := two_pointer_merge (inorder (root first_tree))
                                                 (inorder (root second_tree));
                     total := count (root first_tree)
                              + count (root second_tree) |}).
    destruct (built_from_query query (size first_tree + size second_tree))
      as (made & Hrun & Hroot & Hin & Hbal & Hhgt & Hsz & Hmin & Hmax).
    + subst query. simpl. rewrite two_pointer_merge_length, !count_length. lia.
    + subst query. simpl. lia.
    + change (count (root first_tree) + count (root second_tree))
        with (total query) at 1 2.
      rewrite Hrun. eexists. split; [reflexivity|].
      rewrite Hroot, Hsz, Hmin, Hmax, Hin.
      repeat split; trivial; try lia.
      right. exists (Z.to_nat (total query) + 1)%nat, made.
      split; [|reflexivity].
      rewrite <- Hrun. subst query. simpl total. rewrite Hf, Hs. reflexivity.
Qed.

(** C8. For every two source trees (whose [size] is their node count) with
    in-order element sequences A and B, the merge constructor returns a tree
    whose in-order sequence is the ascending two-pointer merge of A and B by
    the comparator, and whose size is |A| + |B|. *)
Theorem merge_trees_is_two_pointer_merge
        (first_tree second_tree : AVLRankTree) :
  size first_tree = count (root first_tree) ->
  size second_tree = count (root second_tree) ->
  exists t,
    merge_trees first_tree second_tree = Some t /\
    inorder (root t)
    = two_pointer_merge (inorder (root first_tree))
                        (inorder (root second_tree)) /\
    size t = Z.of_nat (length (inorder (root first_tree)))
             + Z.of_nat (length (inorder (root second_tree))) /\
    size t = count (root t).
Proof.
  intros Hf Hs.
  destruct (merge_trees_built first_tree second_tree Hf Hs)
    as (t & Hrun & Hin & _ & _ & Hsz & _).
  exists t. split; [exact Hrun|]. split; [exact Hin|].
  rewrite <- !count_length. split; [exact Hsz|].
  rewrite Hsz, (count_length (root t)), Hin, two_pointer_merge_length.
  rewrite !count_length. lia.
Qed.

End Build.

(** ** The default comparator and the default aggregate *)

Lemma CompareFunc_laws : CompareLaws Z.
Proof.
  split; unfold compare, CompareFunc.
  - intros a b.
    destruct (a <? b) eqn:E1, (a >? b) eqn:E2, (b <? a) eqn:E3, (b >? a) eqn:E4;
      split; intros H; try discriminate; try reflexivity; exfalso;
      rewrite ?Z.gtb_ltb in *;
      rewrite ?Z.ltb_lt, ?Z.ltb_ge in *; lia.
  - intros a b c.
    destruct (a <? b) eqn:E1, (a >? b) eqn:E2, (b <? c) eqn:E3, (b >? c) eqn:E4,
             (a <? c) eqn:E5, (a >? c) eqn:E6;
      intros H1 H2; try discriminate; try congruence; exfalso;
      rewrite ?Z.gtb_ltb in *;
      rewrite ?Z.ltb_lt, ?Z.ltb_ge in *; lia.
Qed.

Lemma DefaultRank_laws (Key Value : Type) : RankLaws Key Value Z.
Proof. split; simpl; intros; lia. Qed.

Lemma DefaultRank_counts (Key Value : Type) : RankCounts Key Value Z.
Proof. split; simpl; intros; lia. Qed.

Lemma DefaultRank_inverse (Key Value : Type) : RankInverse Key Value Z.
Proof. split; simpl; intros; lia. Qed.

(** ** Concrete trees *)

Module Concrete.
Import Scenarios.

Ltac decide_keys :=
  repeat first
    [ apply Forall_nil
    | apply Forall_cons
    | progress (unfold le_key, lt_key)
    | progress simpl
    | discriminate
    | reflexivity
    | split ].

Ltac check_invariants :=
  constructor; simpl; repeat split; try reflexivity; try lia;
  try (vm_compute; discriminate); decide_keys.

Lemma tree_123_invariants : invariants tree_123.
Proof. check_invariants. Qed.

Lemma tree_135_invariants : invariants tree_135.
Proof. check_invariants. Qed.

Lemma tree_11_claimed_invariants : claimed_invariants tree_11.
Proof. check_invariants. Qed.

Lemma tree_123_distinct_keys : distinct_keys (root tree_123).
Proof.
  unfold distinct_keys. simpl.
  repeat (apply SSorted_cons || apply SSorted_nil || apply Forall_cons
          || apply Forall_nil || reflexivity).
Qed.

End Concrete.

(** ** Ordering: nodes and in-order sequence *)

Section Ordering.

Context {Key Value R : Type}.
Context {comparing_func : Compare Key}.
Context {rank_ops : RankInfo Key Value R}.
Context {laws : CompareLaws Key}.

Local Abbreviation Node := (Node (Key := Key) (Value := Value) (R := R)).
Local Abbreviation KeyValuePair := (KeyValuePair (Key := Key) (Value := Value)).

Lemma sorted_app_intro {rel : Key -> Key -> Prop} (xs ys : list Key) :
  StronglySorted rel xs -> StronglySorted rel ys ->
  (forall x y, In x xs -> In y ys -> rel x y) ->
  StronglySorted rel (xs ++ ys).
Proof.
  induction xs as [|x xs IH]; intros Hx Hy Hxy; simpl; [exact Hy|].
  inversion Hx as [|? ? Hxs Hall]; subst.
  constructor.
  - apply IH; auto. intros a b Ha Hb. apply Hxy; simpl; auto.
  - apply Forall_app. split; [exact Hall|].
    apply Forall_forall. intros y Hyin. apply Hxy; simpl; auto.
Qed.

Lemma sorted_app_elim {rel : Key -> Key -> Prop} (xs ys : list Key) :
  StronglySorted rel (xs ++ ys) ->
  StronglySorted rel xs /\ StronglySorted rel ys /\
  (forall x y, In x xs -> In y ys -> rel x y).
Proof.
  induction xs as [|x xs IH]; simpl; intros H.
  - repeat split; [constructor|exact H|intros ? ? []].
  - inversion H as [|? ? Hs Hall]; subst.
    destruct (IH Hs) as (Hxs & Hys & Hxy).
    apply Forall_app in Hall. destruct Hall as (Hall1 & Hall2).
    repeat split.
    + constructor; assumption.
    + exact Hys.
    + intros a b [->|Ha] Hb.
      * rewrite Forall_forall in Hall2. auto.
      * auto.
Qed.

Lemma sorted_cons_elim {rel : Key -> Key -> Prop} (x : Key) (xs : list Key) :
  StronglySorted rel (x :: xs) ->
  StronglySorted rel xs /\ forall y, In y xs -> rel x y.
Proof.
  intros H. inversion H as [|? ? Hs Hall]; subst.
  rewrite Forall_forall in Hall. auto.
Qed.

Lemma sorted_cons_intro {rel : Key -> Key -> Prop} (x : Key) (xs : list Key) :
  StronglySorted rel xs -> (forall y, In y xs -> rel x y) ->
  StronglySorted rel (x :: xs).
Proof.
  intros Hs Hall. constructor; [exact Hs|]. apply Forall_forall. exact Hall.
Qed.

(** The per-node ordering is the in-order sequence of keys being
    non-decreasing. *)
Lemma ordered_sorted (t : Node) :
  every ordered_at t <-> StronglySorted le_key (keys t).
Proof.
  induction t as [|l IHl k v h rk r IHr].
  - simpl. split; intros _; [constructor|exact I].
  - rewrite keys_Nd. simpl every. rewrite !Forall_forall. split.
    + intros ((Hlk & Hkr) & Hl & Hr).
      apply sorted_app_intro.
      * apply IHl. exact Hl.
      * apply sorted_cons_intro; [apply IHr; exact Hr|exact Hkr].
      * intros x y Hx [->|Hy]; [auto|].
        eapply le_key_trans; [apply Hlk; exact Hx|apply Hkr; exact Hy].
    + intros H. apply sorted_app_elim in H. destruct H as (Hl & Hkr & Hcross).
      apply sorted_cons_elim in Hkr. destruct Hkr as (Hr & Hkr).
      repeat split.
      * intros x Hx. apply Hcross; simpl; auto.
      * exact Hkr.
      * apply IHl. exact Hl.
      * apply IHr. exact Hr.
Qed.

(** [FindMin] returns the leftmost node, whose entry heads the in-order
    sequence. *)
Lemma FindMin_leftmost (t : Node) :
  is_null t = false ->
  exists path k v h rk r rest,
    FindMin t = Some path /\ node_at t path = Nd NULL k v h rk r /\
    inorder t = {| pair_key := k; pair_value := v |} :: rest.
Proof.
  induction t as [|l IHl k v h rk r _]; intros Hn; [discriminate|].
  rewrite FindMin_Nd. destruct (is_null l) eqn:El.
  - destruct l; [|discriminate].
    exists [], k, v, h, rk, r, (inorder r). repeat split.
  - destruct (IHl eq_refl) as (p & k' & v' & h' & rk' & r' & rest & Hf & Hp & Hin).
    exists (to_left :: p), k', v', h', rk', r',
           (rest ++ {| pair_key := k; pair_value := v |} :: inorder r).
    rewrite Hf. simpl. rewrite Hp, Hin. repeat split.
Qed.

Lemma FindMax_rightmost (t : Node) :
  is_null t = false ->
  exists path k v h rk l rest,
    FindMax t = Some path /\ node_at t path = Nd l k v h rk NULL /\
    inorder t = rest ++ [{| pair_key := k; pair_value := v |}].
Proof.
  induction t as [|l _ k v h rk r IHr]; intros Hn; [discriminate|].
  rewrite FindMax_Nd. destruct (is_null r) eqn:Er.
  - destruct r; [|discriminate].
    exists [], k, v, h, rk, l, (inorder l). repeat split.
  - destruct (IHr eq_refl) as (p & k' & v' & h' & rk' & l' & rest & Hf & Hp & Hin).
    exists (to_right :: p), k', v', h', rk', l',
           (inorder l ++ {| pair_key := k; pair_value := v |} :: rest).
    rewrite Hf. simpl. rewrite Hp, Hin. rewrite <- app_assoc. repeat split.
Qed.

Lemma FindMin_null (t : Node) : is_null t = true -> FindMin t = None.
Proof. destruct t; [reflexivity|discriminate]. Qed.

Lemma FindMax_null (t : Node) : is_null t = true -> FindMax t = None.
Proof. destruct t; [reflexivity|discriminate]. Qed.

(** Invariant 6 for the caches [Insert], [Remove] and the merge
    constructor compute. *)
Lemma FindMin_extreme (t : Node) :
  every ordered_at t -> points_at_extreme le_key t (FindMin t).
Proof.
  intros Hord. destruct t as [|l k v h rk r] eqn:Et; [reflexivity|].
  rewrite <- Et in *.
  destruct (FindMin_leftmost t) as (p & k' & v' & h' & rk' & r' & rest & Hf & Hp & Hin);
    [subst; reflexivity|].
  rewrite Hf. unfold points_at_extreme. rewrite Hp.
  apply ordered_sorted in Hord. unfold keys in *. rewrite Hin in *.
  simpl in *. apply sorted_cons_elim in Hord. destruct Hord as (_ & Hall).
  constructor; [apply le_key_refl|]. apply Forall_forall. exact Hall.
Qed.

Lemma FindMax_extreme (t : Node) :
  every ordered_at t ->
  points_at_extreme (fun k x => le_key x k) t (FindMax t).
Proof.
  intros Hord. destruct t as [|l k v h rk r] eqn:Et; [reflexivity|].
  rewrite <- Et in *.
  destruct (FindMax_rightmost t) as (p & k' & v' & h' & rk' & l' & rest & Hf & Hp & Hin);
    [subst; reflexivity|].
  rewrite Hf. unfold points_at_extreme. rewrite Hp.
  apply ordered_sorted in Hord. unfold keys in *. rewrite Hin in *.
  rewrite map_app in *. simpl in *.
  apply sorted_app_elim in Hord. destruct Hord as (_ & _ & Hall).
  apply Forall_app. split.
  - apply Forall_forall. intros x Hx. apply Hall; simpl; auto.
  - constructor; [apply le_key_refl|constructor].
Qed.

End Ordering.

(** ** Rotations and rebalancing *)

Section Rebalancing.

Context {Key Value R : Type}.
Context {comparing_func : Compare Key}.
Context {rank_ops : RankInfo Key Value R}.
Context {rank_laws : RankLaws Key Value R}.

Local Abbreviation Node := (Node (Key := Key) (Value := Value) (R := R)).
Local Abbreviation KeyValuePair := (KeyValuePair (Key := Key) (Value := Value)).

Lemma shaped_NULL : shaped (NULL : Node).
Proof. repeat split. Qed.

Lemma shaped_Nd (l : Node) k v h rk (r : Node) :
  shaped (Nd l k v h rk r) <->
  shaped l /\ shaped r /\
  Z.abs (GetHeight l - GetHeight r) <= 1 /\
  h = 1 + Z.max (GetHeight l) (GetHeight r) /\
  rk = rank_add (rank_add (rank_of k v) (GetRank l)) (GetRank r).
Proof. unfold shaped. simpl. tauto. Qed.

Lemma height_lower (t : Node) : every height_at t -> -1 <= GetHeight t.
Proof.
  induction t as [|l IHl k v h rk r IHr]; simpl; [lia|].
  intros (Hh & Hl & Hr). specialize (IHl Hl). specialize (IHr Hr). lia.
Qed.

Lemma shaped_height (t : Node) : shaped t -> -1 <= GetHeight t.
Proof. intros (_ & Hh & _). apply height_lower. exact Hh. Qed.

Lemma shaped_nonnull (t : Node) :
  shaped t -> 0 <= GetHeight t -> is_null t = false.
Proof. destruct t; simpl; [lia|reflexivity]. Qed.

Lemma RotateR_Nd (a : Node) yk yv yh yrk (b : Node) xk xv xh xrk (c : Node) :
  RotateR (Nd (Nd a yk yv yh yrk b) xk xv xh xrk c)
  = let xh' := Z.max (GetHeight b) (GetHeight c) + 1 in
    let xrk' := rank_add (rank_add (rank_of xk xv) (GetRank b)) (GetRank c) in
    Some (Nd a yk yv (Z.max (GetHeight a) xh' + 1)
             (rank_add (rank_add (rank_of yk yv) (GetRank a)) xrk')
             (Nd b xk xv xh' xrk' c)).
Proof. unfold RotateR. rewrite !UpdateRank_Nd. reflexivity. Qed.

Lemma RotateL_Nd (a : Node) xk xv xh xrk (b : Node) yk yv yh yrk (c : Node) :
  RotateL (Nd a xk xv xh xrk (Nd b yk yv yh yrk c))
  = let xh' := Z.max (GetHeight b) (GetHeight a) + 1 in
    let xrk' := rank_add (rank_add (rank_of xk xv) (GetRank a)) (GetRank b) in
    Some (Nd (Nd a xk xv xh' xrk' b) yk yv (Z.max (GetHeight c) xh' + 1)
             (rank_add (rank_add (rank_of yk yv) xrk') (GetRank c)) c).
Proof.
  unfold RotateL. rewrite !UpdateRank_Nd. cbv zeta. simpl GetRank.
  rewrite (rank_add_swap (rank_of xk xv) (GetRank b) (GetRank a)).
  rewrite (rank_add_swap (rank_of yk yv) (GetRank c)). reflexivity.
Qed.

Lemma RotateR_inorder (n t : Node) :
  RotateR n = Some t -> inorder t = inorder n.
Proof.
  destruct n as [|[|a yk yv yh yrk b] xk xv xh xrk c]; try discriminate.
  rewrite RotateR_Nd. cbv zeta. intros [= <-]. simpl.
  rewrite <- app_assoc. reflexivity.
Qed.

Lemma RotateL_inorder (n t : Node) :
  RotateL n = Some t -> inorder t = inorder n.
Proof.
  destruct n as [|a xk xv xh xrk [|b yk yv yh yrk c]]; try discriminate.
  rewrite RotateL_Nd. cbv zeta. intros [= <-]. simpl.
  rewrite <- app_assoc. reflexivity.
Qed.

Lemma Balance_inorder (n t : Node) :
  Balance n = Some t -> inorder t = inorder n.
Proof.
  unfold Balance.
  destruct (GetBalance n) as [b|]; [|discriminate].
  destruct (balance_is b 2 (get_left n) _) as [[|]|]; try discriminate.
  { apply RotateR_inorder. }
  destruct (balance_is b (-2) (get_right n) _) as [[|]|]; try discriminate.
  { apply RotateL_inorder. }
  destruct (balance_is b 2 (get_left n) _) as [[|]|]; try discriminate.
  { destruct (RotateL (get_left n)) as [l'|] eqn:El; [|discriminate].
    intros Hr. apply RotateR_inorder in Hr. apply RotateL_inorder in El.
    rewrite Hr. destruct n; simpl in *; [reflexivity|]. rewrite El. reflexivity. }
  destruct (balance_is b (-2) (get_right n) _) as [[|]|]; try discriminate.
  { destruct (RotateR (get_right n)) as [r'|] eqn:Er; [|discriminate].
    intros Hl. apply RotateL_inorder in Hl. apply RotateR_inorder in Er.
    rewrite Hl. destruct n; simpl in *; [reflexivity|]. rewrite Er. reflexivity. }
  intros [= <-]. reflexivity.
Qed.

Lemma refresh_inorder (l : Node) k v h rk (r t : Node) :
  refresh (Nd l k v h rk r) = Some t ->
  inorder t = inorder l ++ {| pair_key := k; pair_value := v |} :: inorder r.
Proof.
  unfold refresh. rewrite UpdateRank_Nd. intros H.
  apply Balance_inorder in H. exact H.
Qed.

Lemma balance_is_eq (b : Z) (l : Node) k v h rk (r : Node) (test : Z -> bool) :
  balance_is b b (Nd l k v h rk r) test
  = Some (test (GetHeight l - GetHeight r)).
Proof. unfold balance_is. rewrite Z.eqb_refl. reflexivity. Qed.

Lemma balance_is_neq (b c : Z) (child : Node) (test : Z -> bool) :
  b <> c -> balance_is b c child test = Some false.
Proof.
  intros H. unfold balance_is.
  replace (b =? c) with false by (symmetry; apply Z.eqb_neq; exact H).
  reflexivity.
Qed.

Ltac shape_node :=
  apply shaped_Nd;
  refine (conj _ (conj _ (conj _ (conj _ _))));
  simpl GetHeight; simpl GetRank;
  try assumption; try reflexivity; try lia.

(** [refresh] on a node whose subtrees are well shaped and differ in height
    by at most two. *)
Lemma refresh_spec (l : Node) k v h rk (r : Node) :
  shaped l -> shaped r ->
  Z.abs (GetHeight l - GetHeight r) <= 2 ->
  exists t,
    refresh (Nd l k v h rk r) = Some t /\
    shaped t /\ is_null t = false /\
    Z.max (GetHeight l) (GetHeight r) <= GetHeight t
    <= Z.max (GetHeight l) (GetHeight r) + 1 /\
    (Z.abs (GetHeight l - GetHeight r) <= 1 ->
     GetHeight t = Z.max (GetHeight l) (GetHeight r) + 1).
Proof.
  intros Hl Hr Hd.
  pose proof (shaped_height l Hl) as Ll. pose proof (shaped_height r Hr) as Lr.
  unfold refresh. rewrite UpdateRank_Nd. unfold Balance.
  simpl GetBalance. cbv beta iota. simpl get_left. simpl get_right.
  set (b := GetHeight l - GetHeight r) in *.
  destruct (Z.eq_dec b 2) as [E2|N2]; [|destruct (Z.eq_dec b (-2)) as [Em|Nm]].
  - (* left-heavy *)
    rewrite E2.
    destruct l as [|a yk yv yh yrk c]; [simpl in *; lia|].
    rewrite !balance_is_eq, (balance_is_neq 2 (-2)) by lia.
    apply shaped_Nd in Hl. destruct Hl as (Ha & Hc & Hac & Hyh & Hyrk).
    pose proof (shaped_height a Ha) as La. pose proof (shaped_height c Hc) as Lc.
    simpl GetHeight in *.
    destruct (GetHeight a - GetHeight c >=? 0) eqn:Ecase.
    + rewrite Z.geb_leb in Ecase. apply Z.leb_le in Ecase.
      rewrite RotateR_Nd. cbv zeta. eexists. split; [reflexivity|].
      split; [|simpl; repeat split; lia].
      shape_node.
      shape_node.
    + rewrite Z.geb_leb in Ecase. apply Z.leb_gt in Ecase.
      replace (GetHeight a - GetHeight c <? 0) with true
        by (symmetry; apply Z.ltb_lt; lia).
      destruct c as [|c1 ck cv ch crk c2]; [simpl in *; lia|].
      apply shaped_Nd in Hc. destruct Hc as (Hc1 & Hc2 & Hc12 & Hch & Hcrk).
      pose proof (shaped_height c1 Hc1). pose proof (shaped_height c2 Hc2).
      simpl GetHeight in *.
      rewrite RotateL_Nd. cbv zeta beta iota. simpl set_left.
      rewrite RotateR_Nd. cbv zeta. eexists. split; [reflexivity|].
      split; [|simpl; repeat split; lia].
      shape_node.
      * shape_node.
      * shape_node.
  - (* right-heavy *)
    rewrite Em.
    destruct r as [|a yk yv yh yrk c]; [simpl in *; lia|].
    rewrite (balance_is_neq (-2) 2), !balance_is_eq by lia.
    apply shaped_Nd in Hr. destruct Hr as (Ha & Hc & Hac & Hyh & Hyrk).
    pose proof (shaped_height a Ha) as La. pose proof (shaped_height c Hc) as Lc.
    simpl GetHeight in *.
    destruct (GetHeight a - GetHeight c <=? 0) eqn:Ecase.
    + apply Z.leb_le in Ecase.
      rewrite RotateL_Nd. cbv zeta. eexists. split; [reflexivity|].
      split; [|simpl; repeat split; lia].
      shape_node.
      shape_node.
    + apply Z.leb_gt in Ecase.
      rewrite (balance_is_neq (-2) 2) by lia.
      replace (GetHeight a - GetHeight c >? 0) with true
        by (symmetry; apply Z.gtb_lt; lia).
      destruct a as [|a1 ak av ah ark a2]; [simpl in *; lia|].
      apply shaped_Nd in Ha. destruct Ha as (Ha1 & Ha2 & Ha12 & Hah & Hark).
      pose proof (shaped_height a1 Ha1). pose proof (shaped_height a2 Ha2).
      simpl GetHeight in *.
      rewrite RotateR_Nd. cbv zeta beta iota. simpl set_right.
      rewrite RotateL_Nd. cbv zeta. eexists. split; [reflexivity|].
      split; [|simpl; repeat split; lia].
      shape_node.
      * shape_node.
      * shape_node.
  - (* no rotation *)
    rewrite !(balance_is_neq b 2), !(balance_is_neq b (-2)) by assumption.
    eexists. split; [reflexivity|].
    split; [|simpl; repeat split; lia].
    shape_node.
Qed.

End Rebalancing.

(** ** Insertion *)

Section Insertion.

Context {Key Value R : Type}.
Context {comparing_func : Compare Key}.
Context {rank_ops : RankInfo Key Value R}.
Context {laws : CompareLaws Key}.
Context {rank_laws : RankLaws Key Value R}.

Local Abbreviation Node := (Node (Key := Key) (Value := Value) (R := R)).
Local Abbreviation AVLRankTree :=
  (AVLRankTree (Key := Key) (Value := Value) (R := R)).
Local Abbreviation KeyValuePair := (KeyValuePair (Key := Key) (Value := Value)).

Lemma InsertTraverse_shape (t : Node) (k : Key) (v : Value) :
  shaped t ->
  exists t',
    InsertTraverse t k v = Some t' /\ shaped t' /\ is_null t' = false /\
    GetHeight t <= GetHeight t' <= GetHeight t + 1.
Proof.
  induction t as [|l IHl c cv h rk r IHr]; intros Hs.
  - simpl. eexists. split; [reflexivity|]. split; [|simpl; split; [reflexivity|lia]].
    apply shaped_Nd. refine (conj _ (conj _ (conj _ (conj _ _))));
      try apply shaped_NULL; simpl; try lia.
    rewrite !rank_add_new. reflexivity.
  - apply shaped_Nd in Hs. destruct Hs as (Hl & Hr & Hb & Hh & Hrk).
    assert (Left :
      compare k c = LESS_THAN ->
      exists t',
        (l' <- InsertTraverse l k v ;;
         if is_null l' then None else refresh (Nd l' c cv h rk r)) = Some t' /\
        shaped t' /\ is_null t' = false /\
        GetHeight (Nd l c cv h rk r) <= GetHeight t'
        <= GetHeight (Nd l c cv h rk r) + 1).
    { intros _. destruct (IHl Hl) as (l' & Hi & Hl' & Hn & Hhl). rewrite Hi, Hn.
      destruct (refresh_spec l' c cv h rk r Hl' Hr ltac:(lia))
        as (t' & Hf & Ht' & Hnt & Hht & Hex).
      exists t'. split; [exact Hf|]. split; [exact Ht'|]. split; [exact Hnt|].
      simpl GetHeight. lia. }
    assert (Right :
      exists t',
        (r' <- InsertTraverse r k v ;;
         if is_null r' then None else refresh (Nd l c cv h rk r')) = Some t' /\
        shaped t' /\ is_null t' = false /\
        GetHeight (Nd l c cv h rk r) <= GetHeight t'
        <= GetHeight (Nd l c cv h rk r) + 1).
    { destruct (IHr Hr) as (r' & Hi & Hr' & Hn & Hhr). rewrite Hi, Hn.
      destruct (refresh_spec l c cv h rk r' Hl Hr' ltac:(lia))
        as (t' & Hf & Ht' & Hnt & Hht & Hex).
      exists t'. split; [exact Hf|]. split; [exact Ht'|]. split; [exact Hnt|].
      simpl GetHeight. lia. }
    simpl InsertTraverse. destruct (compare k c); auto.
Qed.

(** The new entry goes after every entry whose key is less than or equal
    to its key and before every entry whose key is greater. *)
Lemma InsertTraverse_inorder (t : Node) (k : Key) (v : Value) (t' : Node) :
  every ordered_at t ->
  InsertTraverse t k v = Some t' ->
  exists xs ys,
    inorder t = xs ++ ys /\
    inorder t' = xs ++ {| pair_key := k; pair_value := v |} :: ys /\
    Forall (fun e => le_key (pair_key e) k) xs /\
    Forall (fun e => lt_key k (pair_key e)) ys.
Proof.
  revert t'.
  induction t as [|l IHl c cv h rk r IHr]; intros t' Hord Hins.
  - simpl in Hins. injection Hins as <-. exists [], []. simpl.
    repeat split; constructor.
  - simpl in Hord. destruct Hord as ((Hlc & Hcr) & Hl & Hr).
    rewrite Forall_forall in Hlc, Hcr.
    assert (Right :
      le_key c k ->
      (r' <- InsertTraverse r k v ;;
       if is_null r' then None else refresh (Nd l c cv h rk r')) = Some t' ->
      exists xs ys,
        inorder (Nd l c cv h rk r) = xs ++ ys /\
        inorder t' = xs ++ {| pair_key := k; pair_value := v |} :: ys /\
        Forall (fun e => le_key (pair_key e) k) xs /\
        Forall (fun e => lt_key k (pair_key e)) ys).
    { intros Hck H.
      destruct (InsertTraverse r k v) as [r'|] eqn:Hi; [|discriminate].
      destruct (is_null r'); [discriminate|].
      apply (refresh_inorder _ _ _ h rk) in H.
      destruct (IHr r' Hr eq_refl) as (xs & ys & Hxy & Hin & Hxs & Hys).
      exists (inorder l ++ {| pair_key := c; pair_value := cv |} :: xs), ys.
      simpl inorder. rewrite H, Hin, Hxy, <- !app_assoc. simpl.
      split; [reflexivity|]. split; [reflexivity|]. split; [|exact Hys].
      apply Forall_app. split.
      - apply Forall_forall. intros e He.
        apply (le_key_trans _ c); [|exact Hck].
        apply Hlc. apply in_inorder_keys. exact He.
      - constructor; assumption. }
    cbn [InsertTraverse] in Hins. destruct (compare k c) eqn:E.
    + destruct (InsertTraverse l k v) as [l'|] eqn:Hi; [|discriminate].
      destruct (is_null l'); [discriminate|].
      apply (refresh_inorder _ _ _ h rk) in Hins.
      destruct (IHl l' Hl eq_refl) as (xs & ys & Hxy & Hin & Hxs & Hys).
      exists xs, (ys ++ {| pair_key := c; pair_value := cv |} :: inorder r).
      simpl inorder. rewrite Hins, Hin, Hxy, <- !app_assoc. simpl.
      split; [reflexivity|]. split; [reflexivity|]. split; [exact Hxs|].
      apply Forall_app. split; [exact Hys|].
      constructor; [exact E|].
      apply Forall_forall. intros e He.
      apply (lt_le_trans k c (pair_key e) E).
      apply Hcr. apply in_inorder_keys. exact He.
    + apply Right; [|exact Hins]. apply (equal_le _ _ E).
    + apply Right; [|exact Hins]. apply greater_le. exact E.
Qed.

Lemma sorted_insert (xs ys : list KeyValuePair) (k : Key) (v : Value) :
  StronglySorted le_key (map pair_key (xs ++ ys)) ->
  Forall (fun e => le_key (pair_key e) k) xs ->
  Forall (fun e => lt_key k (pair_key e)) ys ->
  StronglySorted le_key
    (map pair_key (xs ++ {| pair_key := k; pair_value := v |} :: ys)).
Proof.
  rewrite !map_app. simpl. intros Hs Hxs Hys.
  rewrite Forall_forall in Hxs, Hys.
  apply sorted_app_elim in Hs. destruct Hs as (Sx & Sy & Hxy).
  assert (Hky : forall y, In y (map pair_key ys) -> le_key k y).
  { intros y Hy. apply in_map_iff in Hy. destruct Hy as (e & <- & He).
    apply lt_key_le. auto. }
  apply sorted_app_intro; trivial.
  - apply sorted_cons_intro; assumption.
  - intros x y Hx [<-|Hy].
    + apply in_map_iff in Hx. destruct Hx as (e & <- & He). auto.
    + auto.
Qed.

Lemma InsertTraverse_ordered (t : Node) (k : Key) (v : Value) (t' : Node) :
  every ordered_at t -> InsertTraverse t k v = Some t' ->
  every ordered_at t'.
Proof.
  intros Hord Hins.
  destruct (InsertTraverse_inorder t k v t' Hord Hins)
    as (xs & ys & Hxy & Hin & Hxs & Hys).
  apply ordered_sorted. apply ordered_sorted in Hord.
  unfold keys in *. rewrite Hin. rewrite Hxy in Hord.
  apply sorted_insert; assumption.
Qed.

Lemma InsertTraverse_count (t : Node) (k : Key) (v : Value) (t' : Node) :
  every ordered_at t -> InsertTraverse t k v = Some t' ->
  count t' = count t + 1.
Proof.
  intros Hord Hins.
  destruct (InsertTraverse_inorder t k v t' Hord Hins)
    as (xs & ys & Hxy & Hin & _).
  rewrite !count_length, Hin, Hxy, !length_app. simpl. lia.
Qed.

End Insertion.

(** ** Removal *)

Section Removal.

Context {Key Value R : Type}.
Context {comparing_func : Compare Key}.
Context {rank_ops : RankInfo Key Value R}.
Context {laws : CompareLaws Key}.
Context {rank_laws : RankLaws Key Value R}.

Local Abbreviation Node := (Node (Key := Key) (Value := Value) (R := R)).
Local Abbreviation AVLRankTree :=
  (AVLRankTree (Key := Key) (Value := Value) (R := R)).
Local Abbreviation KeyValuePair := (KeyValuePair (Key := Key) (Value := Value)).

Lemma RemoveTraverse_two_children (l : Node) k v h rk (r : Node) key :
  is_null l = false -> is_null r = false -> compare key k = EQUAL ->
  RemoveTraverse (Nd l k v h rk r) key
  = match deref r (FindMin r) with
    | NULL => None
    | Nd _ mk mv _ mrk _ =>
      tmp <- RemoveTraverse r mk ;; refresh (Nd l mk mv h mrk tmp)
    end.
Proof.
  intros Hl Hr E. cbn [RemoveTraverse]. rewrite E.
  destruct l, r; try discriminate; reflexivity.
Qed.

Lemma RemoveTraverse_one_child (l : Node) k v h rk (r : Node) key :
  is_null l || is_null r = true -> compare key k = EQUAL ->
  RemoveTraverse (Nd l k v h rk r) key
  = Some (if is_null l then r else l).
Proof.
  intros Hn E. cbn [RemoveTraverse]. rewrite E.
  destruct l, r; try discriminate; reflexivity.
Qed.

Lemma RemoveTraverse_shape (t : Node) :
  shaped t ->
  forall key,
  exists t',
    RemoveTraverse t key = Some t' /\ shaped t' /\
    GetHeight t - 1 <= GetHeight t' <= GetHeight t.
Proof.
  induction t as [|l IHl c cv h rk r IHr]; intros Hs key.
  - exists NULL. simpl. repeat split; lia.
  - apply shaped_Nd in Hs. destruct Hs as (Hl & Hr & Hb & Hh & Hrk).
    pose proof (shaped_height l Hl) as Ll.
    pose proof (shaped_height r Hr) as Lr.
    destruct (compare key c) eqn:E.
    + cbn [RemoveTraverse]. rewrite E.
      destruct (IHl Hl key) as (l' & Hrm & Hl' & Hhl). rewrite Hrm.
      destruct (refresh_spec l' c cv h rk r Hl' Hr ltac:(lia))
        as (t' & Hf & Ht' & Hnt & Hht & Hex).
      exists t'. split; [exact Hf|]. split; [exact Ht'|]. simpl GetHeight. lia.
    + destruct (is_null l || is_null r) eqn:En.
      * rewrite RemoveTraverse_one_child by assumption.
        eexists. split; [reflexivity|].
        destruct l, r; simpl in *; try discriminate;
          (split; [assumption|lia]).
      * apply orb_false_iff in En. destruct En as (Enl & Enr).
        rewrite RemoveTraverse_two_children by assumption.
        destruct (FindMin_leftmost r Enr)
          as (p & mk & mv & mh & mrk & mr & rest & Hfm & Hp & Hin).
        rewrite Hfm. unfold deref. rewrite Hp.
        destruct (IHr Hr mk) as (r' & Hrm & Hr' & Hhr). rewrite Hrm.
        destruct (refresh_spec l mk mv h mrk r' Hl Hr' ltac:(lia))
          as (t' & Hf & Ht' & Hnt & Hht & Hex).
        exists t'. split; [exact Hf|]. split; [exact Ht'|].
        simpl GetHeight. lia.
    + cbn [RemoveTraverse]. rewrite E.
      destruct (IHr Hr key) as (r' & Hrm & Hr' & Hhr). rewrite Hrm.
      destruct (refresh_spec l c cv h rk r' Hl Hr' ltac:(lia))
        as (t' & Hf & Ht' & Hnt & Hht & Hex).
      exists t'. split; [exact Hf|]. split; [exact Ht'|]. simpl GetHeight. lia.
Qed.

(** Every entry of the result is an entry of the argument. *)
Lemma RemoveTraverse_entries (t : Node) :
  forall key t', RemoveTraverse t key = Some t' ->
                 incl (inorder t') (inorder t).
Proof.
  induction t as [|l IHl c cv h rk r IHr]; intros key t' Hrm.
  - simpl in Hrm. injection Hrm as <-. apply incl_refl.
  - destruct (compare key c) eqn:E.
    + cbn [RemoveTraverse] in Hrm. rewrite E in Hrm.
      destruct (RemoveTraverse l key) as [l'|] eqn:Hl; [|discriminate].
      apply (refresh_inorder _ _ _ h rk) in Hrm. rewrite Hrm. simpl inorder.
      apply incl_app; [|apply incl_appr, incl_refl].
      apply incl_appl. eapply IHl. exact Hl.
    + destruct (is_null l || is_null r) eqn:En.
      * rewrite RemoveTraverse_one_child in Hrm by assumption.
        injection Hrm as <-. simpl inorder.
        destruct (is_null l); [apply incl_appr, incl_tl|apply incl_appl];
          apply incl_refl.
      * apply orb_false_iff in En. destruct En as (Enl & Enr).
        rewrite RemoveTraverse_two_children in Hrm by assumption.
        destruct (FindMin_leftmost r Enr)
          as (p & mk & mv & mh & mrk & mr & rest & Hfm & Hp & Hin).
        rewrite Hfm in Hrm. unfold deref in Hrm. rewrite Hp in Hrm.
        destruct (RemoveTraverse r mk) as [r'|] eqn:Hr; [|discriminate].
        apply (refresh_inorder _ _ _ h mrk) in Hrm. rewrite Hrm. simpl inorder.
        apply incl_app; [apply incl_appl, incl_refl|].
        apply incl_appr, incl_tl. apply incl_cons.
        -- rewrite Hin. left. reflexivity.
        -- eapply IHr. exact Hr.
    + cbn [RemoveTraverse] in Hrm. rewrite E in Hrm.
      destruct (RemoveTraverse r key) as [r'|] eqn:Hr; [|discriminate].
      apply (refresh_inorder _ _ _ h rk) in Hrm. rewrite Hrm. simpl inorder.
      apply incl_app; [apply incl_appl, incl_refl|].
      apply incl_appr. apply incl_cons; [left; reflexivity|].
      apply incl_tl. eapply IHr. exact Hr.
Qed.

Lemma incl_keys (xs ys : list KeyValuePair) (x : Key) :
  incl xs ys -> In x (map pair_key xs) -> In x (map pair_key ys).
Proof.
  intros Hi Hx. apply in_map_iff in Hx. destruct Hx as (e & <- & He).
  apply in_map. apply Hi. exact He.
Qed.

Lemma RemoveTraverse_ordered (t : Node) :
  every ordered_at t ->
  forall key t', RemoveTraverse t key = Some t' -> every ordered_at t'.
Proof.
  induction t as [|l IHl c cv h rk r IHr]; intros Hord key t' Hrm.
  - simpl in Hrm. injection Hrm as <-. exact I.
  - pose proof Hord as Hnode.
    simpl in Hord. destruct Hord as ((Hlc & Hcr) & Hl & Hr).
    rewrite Forall_forall in Hlc, Hcr.
    assert (Hsl : StronglySorted le_key (keys l)) by (apply ordered_sorted, Hl).
    assert (Hsr : StronglySorted le_key (keys r)) by (apply ordered_sorted, Hr).
    destruct (compare key c) eqn:E.
    + cbn [RemoveTraverse] in Hrm. rewrite E in Hrm.
      destruct (RemoveTraverse l key) as [l'|] eqn:Hl'; [|discriminate].
      apply (refresh_inorder _ _ _ h rk) in Hrm.
      pose proof (RemoveTraverse_entries l key l' Hl') as Hincl.
      apply ordered_sorted. unfold keys. rewrite Hrm, map_app. simpl map.
      apply sorted_app_intro.
      * apply ordered_sorted. eapply IHl; eassumption.
      * apply sorted_cons_intro; assumption.
      * intros x y Hx Hy. apply (incl_keys _ _ _ Hincl) in Hx.
        destruct Hy as [<-|Hy]; [auto|].
        apply (le_key_trans _ c); auto.
    + destruct (is_null l || is_null r) eqn:En.
      * rewrite RemoveTraverse_one_child in Hrm by assumption.
        injection Hrm as <-. destruct (is_null l); assumption.
      * apply orb_false_iff in En. destruct En as (Enl & Enr).
        rewrite RemoveTraverse_two_children in Hrm by assumption.
        destruct (FindMin_leftmost r Enr)
          as (p & mk & mv & mh & mrk & mr & rest & Hfm & Hp & Hin).
        rewrite Hfm in Hrm. unfold deref in Hrm. rewrite Hp in Hrm.
        destruct (RemoveTraverse r mk) as [r'|] eqn:Hr'; [|discriminate].
        apply (refresh_inorder _ _ _ h mrk) in Hrm.
        pose proof (RemoveTraverse_entries r mk r' Hr') as Hincl.
        assert (Hmk : In mk (keys r)).
        { unfold keys. rewrite Hin. left. reflexivity. }
        assert (Hmin : forall y, In y (keys r) -> le_key mk y).
        { unfold keys in *. rewrite Hin in *. simpl in *.
          apply sorted_cons_elim in Hsr. destruct Hsr as (_ & Hall).
          intros y [<-|Hy]; [apply le_key_refl|auto]. }
        apply ordered_sorted. unfold keys. rewrite Hrm, map_app. simpl map.
        apply sorted_app_intro.
        -- exact Hsl.
        -- apply sorted_cons_intro.
           ++ apply ordered_sorted. eapply IHr; eassumption.
           ++ intros y Hy. apply Hmin. apply (incl_keys _ _ _ Hincl). exact Hy.
        -- intros x y Hx Hy. apply (le_key_trans _ c); [auto|].
           destruct Hy as [<-|Hy]; [auto|].
           apply Hcr. apply (incl_keys _ _ _ Hincl). exact Hy.
    + cbn [RemoveTraverse] in Hrm. rewrite E in Hrm.
      destruct (RemoveTraverse r key) as [r'|] eqn:Hr'; [|discriminate].
      apply (refresh_inorder _ _ _ h rk) in Hrm.
      pose proof (RemoveTraverse_entries r key r' Hr') as Hincl.
      apply ordered_sorted. unfold keys. rewrite Hrm, map_app. simpl map.
      apply sorted_app_intro.
      * exact Hsl.
      * apply sorted_cons_intro.
        -- apply ordered_sorted. eapply IHr; eassumption.
        -- intros y Hy. apply Hcr. apply (incl_keys _ _ _ Hincl). exact Hy.
      * intros x y Hx Hy. apply (le_key_trans _ c); [auto|].
        destruct Hy as [<-|Hy]; [apply le_key_refl|].
        apply Hcr. apply (incl_keys _ _ _ Hincl). exact Hy.
Qed.

(** The search finds the key that heads the in-order sequence. *)
Lemma FindTraverse_head (t : Node) :
  every ordered_at t ->
  forall mk mv rest,
    inorder t = {| pair_key := mk; pair_value := mv |} :: rest ->
    FindTraverse t mk <> None.
Proof.
  induction t as [|l IHl c cv h rk r IHr]; intros Hord mk mv rest Hin.
  - discriminate.
  - simpl in Hord. destruct Hord as ((Hlc & Hcr) & Hl & Hr).
    rewrite Forall_forall in Hlc.
    simpl FindTraverse.
    destruct l as [|ll lk lv lh lrk lr] eqn:El.
    + simpl in Hin. injection Hin as <- _ _. rewrite compare_refl. discriminate.
    + rewrite <- El in *. simpl inorder in Hin.
      destruct (inorder l) as [|e rest'] eqn:Hl'.
      { exfalso. rewrite El in Hl'. simpl in Hl'. apply app_eq_nil in Hl'.
        destruct Hl' as (_ & Hl'). discriminate. }
      simpl in Hin. injection Hin as -> _.
      assert (Hle : le_key mk c).
      { apply Hlc. unfold keys. rewrite Hl'. left. reflexivity. }
      destruct (compare mk c) eqn:E; try discriminate.
      * specialize (IHl Hl mk mv rest' eq_refl).
        destruct (FindTraverse l mk); [discriminate|contradiction].
      * contradiction.
Qed.

(** A successful search means exactly one node is unlinked. *)
Lemma RemoveTraverse_count (t : Node) :
  every ordered_at t ->
  forall key t',
    FindTraverse t key <> None ->
    RemoveTraverse t key = Some t' ->
    count t' = count t - 1.
Proof.
  induction t as [|l IHl c cv h rk r IHr]; intros Hord key t' Hfind Hrm.
  - simpl in Hfind. contradiction.
  - simpl in Hord. destruct Hord as (_ & Hl & Hr).
    simpl in Hfind.
    destruct (compare key c) eqn:E.
    + cbn [RemoveTraverse] in Hrm. rewrite E in Hrm.
      destruct (RemoveTraverse l key) as [l'|] eqn:Hl'; [|discriminate].
      apply (refresh_inorder _ _ _ h rk) in Hrm.
      assert (Hc : count l' = count l - 1).
      { eapply IHl; try eassumption.
        destruct (FindTraverse l key); [discriminate|contradiction]. }
      rewrite (count_length t'), Hrm, length_app. simpl.
      rewrite !count_length in *. lia.
    + destruct (is_null l || is_null r) eqn:En.
      * rewrite RemoveTraverse_one_child in Hrm by assumption.
        injection Hrm as <-. destruct l, r; simpl in *; try discriminate; lia.
      * apply orb_false_iff in En. destruct En as (Enl & Enr).
        rewrite RemoveTraverse_two_children in Hrm by assumption.
        destruct (FindMin_leftmost r Enr)
          as (p & mk & mv & mh & mrk & mr & rest & Hfm & Hp & Hin).
        rewrite Hfm in Hrm. unfold deref in Hrm. rewrite Hp in Hrm.
        destruct (RemoveTraverse r mk) as [r'|] eqn:Hr'; [|discriminate].
        apply (refresh_inorder _ _ _ h mrk) in Hrm.
        assert (Hc : count r' = count r - 1).
        { eapply IHr; try eassumption.
          eapply FindTraverse_head; eassumption. }
        rewrite (count_length t'), Hrm, length_app. simpl.
        rewrite !count_length in *. lia.
    + cbn [RemoveTraverse] in Hrm. rewrite E in Hrm.
      destruct (RemoveTraverse r key) as [r'|] eqn:Hr'; [|discriminate].
      apply (refresh_inorder _ _ _ h rk) in Hrm.
      assert (Hc : count r' = count r - 1).
      { eapply IHr; try eassumption.
        destruct (FindTraverse r key); [discriminate|contradiction]. }
      rewrite (count_length t'), Hrm, length_app. simpl.
      rewrite !count_length in *. lia.
Qed.

End Removal.

(** ** The merged tree is ordered and carries its aggregates *)

Section MergeOrder.

Context {Key Value R : Type}.
Context {comparing_func : Compare Key}.
Context {rank_ops : RankInfo Key Value R}.
Context {laws : CompareLaws Key}.
Context {rank_laws : RankLaws Key Value R}.

Local Abbreviation Node := (Node (Key := Key) (Value := Value) (R := R)).
Local Abbreviation AVLRankTree :=
  (AVLRankTree (Key := Key) (Value := Value) (R := R)).
Local Abbreviation KeyValuePair := (KeyValuePair (Key := Key) (Value := Value)).
Local Abbreviation QueryResult := (QueryResult (Key := Key) (Value := Value)).

Lemma two_pointer_merge_in (a b : list KeyValuePair) (e : KeyValuePair) :
  In e (two_pointer_merge a b) -> In e a \/ In e b.
Proof.
  revert b. induction a as [|x a IHa]; intros b.
  - rewrite two_pointer_merge_nil_l. auto.
  - induction b as [|y b IHb].
    + rewrite two_pointer_merge_nil_r. auto.
    + rewrite two_pointer_merge_cons.
      destruct (compare (pair_key x) (pair_key y));
        (intros [<-|H]; [simpl; auto|]).
      * apply IHa in H. simpl in *. tauto.
      * apply IHb in H. simpl in *. tauto.
      * apply IHb in H. simpl in *. tauto.
Qed.

Lemma two_pointer_merge_sorted (a b : list KeyValuePair) :
  StronglySorted le_key (map pair_key a) ->
  StronglySorted le_key (map pair_key b) ->
  StronglySorted le_key (map pair_key (two_pointer_merge a b)).
Proof.
  revert b. induction a as [|x a IHa]; intros b Ha Hb.
  - rewrite two_pointer_merge_nil_l. exact Hb.
  - induction b as [|y b IHb].
    + rewrite two_pointer_merge_nil_r. exact Ha.
    + cbn [map] in Ha, Hb.
      apply sorted_cons_elim in Ha. destruct Ha as (Sa & Hxa).
      pose proof Hb as Hyb'.
      apply sorted_cons_elim in Hyb'. destruct Hyb' as (Sb & Hyb).
      assert (Later :
        le_key (pair_key y) (pair_key x) ->
        StronglySorted le_key
          (map pair_key (y :: two_pointer_merge (x :: a) b))).
      { intros Hyx. cbn [map]. apply sorted_cons_intro.
        - apply IHb. exact Sb.
        - intros z Hz. apply in_map_iff in Hz. destruct Hz as (e & <- & He).
          apply two_pointer_merge_in in He. destruct He as [[<-|He]|He].
          + exact Hyx.
          + apply (le_key_trans _ (pair_key x)); [exact Hyx|].
            apply Hxa. apply in_map. exact He.
          + apply Hyb. apply in_map. exact He. }
      rewrite two_pointer_merge_cons.
      destruct (compare (pair_key x) (pair_key y)) eqn:E.
      * cbn [map]. apply sorted_cons_intro.
        -- apply IHa; assumption.
        -- intros z Hz. apply in_map_iff in Hz. destruct Hz as (e & <- & He).
           apply two_pointer_merge_in in He. destruct He as [He|[<-|He]].
           ++ apply Hxa. apply in_map. exact He.
           ++ apply lt_key_le. exact E.
           ++ apply (le_key_trans _ (pair_key y)); [apply lt_key_le; exact E|].
              apply Hyb. apply in_map. exact He.
      * apply Later. apply (equal_le _ _ E).
      * apply Later. apply greater_le. exact E.
Qed.

Lemma TreeFromQuery_ranks (query : QueryResult) :
  forall fuel start end_ here this t this',
    TreeFromQuery fuel query start end_ here this = Some (t, this') ->
    every rank_at t.
Proof.
  induction fuel as [|fuel IH]; intros start end_ here this t this' H;
    cbn [TreeFromQuery] in H.
  - destruct (start >? end_); [|discriminate].
    injection H as <- _. exact I.
  - destruct (start >? end_).
    { injection H as <- _. exact I. }
    destruct (Z.quot (start + end_) 2 <? 0); [discriminate|].
    destruct (nth_error (result query) _) as [kv|]; [|discriminate].
    match type of H with
    | context [TreeFromQuery fuel query start ?e ?h ?s] =>
      destruct (TreeFromQuery fuel query start e h s) as [[l thisL]|] eqn:HL;
        [|discriminate]
    end.
    match type of H with
    | context [TreeFromQuery fuel query ?b end_ ?h ?s] =>
      destruct (TreeFromQuery fuel query b end_ h s) as [[r thisR]|] eqn:HR;
        [|discriminate]
    end.
    rewrite UpdateRank_Nd in H. injection H as <- _.
    simpl. repeat split; [eapply IH; exact HL|eapply IH; exact HR].
Qed.

End MergeOrder.

(** ** Invariants of the reachable trees *)

Section Reachability.

Context {Key Value R : Type}.
Context {comparing_func : Compare Key}.
Context {rank_ops : RankInfo Key Value R}.
Context {laws : CompareLaws Key}.
Context {rank_laws : RankLaws Key Value R}.

Local Abbreviation Node := (Node (Key := Key) (Value := Value) (R := R)).
Local Abbreviation AVLRankTree :=
  (AVLRankTree (Key := Key) (Value := Value) (R := R)).

Lemma invariants_shaped (t : AVLRankTree) : invariants t -> shaped (root t).
Proof. intros H. repeat split; apply H. Qed.

Lemma invariants_intro (sz : Z) (t : Node) :
  every ordered_at t -> shaped t -> sz = count t ->
  invariants {| size := sz; root := t; max_node := FindMax t;
                min_node := FindMin t |}.
Proof.
  intros Hord (Hb & Hh & Hr) Hsz.
  constructor; simpl; trivial.
  - apply FindMin_extreme. exact Hord.
  - apply FindMax_extreme. exact Hord.
Qed.

Lemma empty_tree_invariants : invariants (empty_tree : AVLRankTree).
Proof. apply (invariants_intro 0 NULL); [exact I|apply shaped_NULL|reflexivity]. Qed.

Lemma Insert_invariants (t : AVLRankTree) (k : Key) (v : Value) :
  invariants t -> exists t', Insert t k v = Some t' /\ invariants t'.
Proof.
  intros Hinv. unfold Insert.
  destruct (InsertTraverse_shape (root t) k v (invariants_shaped t Hinv))
    as (t' & Hins & Hs & _).
  rewrite Hins. eexists. split; [reflexivity|].
  apply invariants_intro.
  - eapply InsertTraverse_ordered; [apply Hinv|exact Hins].
  - exact Hs.
  - rewrite (InsertTraverse_count (root t) k v t'); [|apply Hinv|exact Hins].
    rewrite (inv_size Hinv). reflexivity.
Qed.

Lemma Remove_invariants (t : AVLRankTree) (k : Key) :
  invariants t -> exists b t', Remove t k = Some (b, t') /\ invariants t'.
Proof.
  intros Hinv. unfold Remove.
  destruct (Find t k) as [e|] eqn:Hfind.
  - destruct (RemoveTraverse_shape (root t) (invariants_shaped t Hinv) k)
      as (t' & Hrm & Hs & _).
    rewrite Hrm. do 2 eexists. split; [reflexivity|].
    apply invariants_intro.
    + eapply RemoveTraverse_ordered; [apply Hinv|exact Hrm].
    + exact Hs.
    + rewrite (RemoveTraverse_count (root t) (inv_order Hinv) k t'); trivial.
      * rewrite (inv_size Hinv). reflexivity.
      * unfold Find in Hfind. intros Hnone. rewrite Hnone in Hfind.
        discriminate.
  - exists false, t. split; [reflexivity|exact Hinv].
Qed.

Lemma merge_trees_invariants (a b : AVLRankTree) :
  invariants a -> invariants b ->
  exists t, merge_trees a b = Some t /\ invariants t.
Proof.
  intros Ha Hb.
  destruct (merge_trees_built a b (inv_size Ha) (inv_size Hb))
    as (t & Hrun & Hin & Hbal & Hhgt & Hsz & Hmin & Hmax & Hhow).
  exists t. split; [exact Hrun|].
  assert (Hcount : size t = count (root t)).
  { rewrite Hsz, (count_length (root t)), Hin, two_pointer_merge_length.
    rewrite !count_length. lia. }
  assert (Hord : every ordered_at (root t)).
  { apply ordered_sorted. unfold keys. rewrite Hin.
    apply two_pointer_merge_sorted; apply ordered_sorted; apply inv_order;
      assumption. }
  assert (Hrk : every rank_at (root t)).
  { destruct Hhow as [H0|(fuel & made & Hmade & Hroot)].
    - rewrite (count_zero_null (root t)) by lia. exact I.
    - rewrite Hroot. destruct made as [m thism].
      eapply TreeFromQuery_ranks. exact Hmade. }
  constructor; trivial.
  - rewrite Hmin. apply FindMin_extreme. exact Hord.
  - rewrite Hmax. apply FindMax_extreme. exact Hord.
Qed.

(** C1, amended. Every tree reachable through the empty constructor, the
    merge constructor, [Insert] and [Remove] satisfies invariants 2 to 6
    and the ordering invariant in the form the rotations keep (at every
    node the left keys compare less-or-equal and the right keys compare
    greater-or-equal), and each of these operations returns on it. *)
Theorem reachable_invariants (t : AVLRankTree) :
  reachable t ->
  invariants t /\
  (forall k v, exists t', Insert t k v = Some t') /\
  (forall k, exists b t', Remove t k = Some (b, t')) /\
  (forall u, reachable u -> exists m, merge_trees t u = Some m).
Proof.
  assert (Hinv : forall s : AVLRankTree, reachable s -> invariants s).
  { intros s Hs.
    induction Hs as [|a b s Ha IHa Hb IHb Hm|s k v s' Hs IH Hi|s k b s' Hs IH Hr].
    - apply empty_tree_invariants.
    - destruct (merge_trees_invariants a b IHa IHb) as (m & Hm' & Hinv).
      congruence.
    - destruct (Insert_invariants s k v IH) as (m & Hm' & Hinv). congruence.
    - destruct (Remove_invariants s k IH) as (b' & m & Hm' & Hinv). congruence. }
  intros Ht. pose proof (Hinv t Ht) as Hi.
  split; [exact Hi|]. split; [|split].
  - intros k v. destruct (Insert_invariants t k v Hi) as (t' & H & _). eauto.
  - intros k. destruct (Remove_invariants t k Hi) as (b & t' & H & _). eauto.
  - intros u Hu.
    destruct (merge_trees_invariants t u Hi (Hinv u Hu)) as (m & H & _). eauto.
Qed.

End Reachability.

(** ** Positions of present keys: [GetIndexOfKey] *)

Section KeyIndex.

Context {Key Value R : Type}.
Context {comparing_func : Compare Key}.
Context {rank_ops : RankInfo Key Value R}.
Context {laws : CompareLaws Key}.
Context {counts : RankCounts Key Value R}.

Local Abbreviation Node := (Node (Key := Key) (Value := Value) (R := R)).
Local Abbreviation AVLRankTree :=
  (AVLRankTree (Key := Key) (Value := Value) (R := R)).

(** On ordered keys the search finds a key that is present. *)
Lemma FindTraverse_complete (t : Node) (key : Key) :
  every ordered_at t ->
  (exists x, In x (keys t) /\ compare key x = EQUAL) ->
  FindTraverse t key <> None.
Proof.
  induction t as [|l IHl c cv h rk r IHr]; intros Hord (x & Hx & Ex).
  - destruct Hx.
  - simpl in Hord. destruct Hord as ((Hlc & Hcr) & Hl & Hr).
    rewrite Forall_forall in Hlc, Hcr.
    destruct (equal_le _ _ Ex) as (Hkx & Hxk).
    simpl. destruct (compare key c) eqn:E; [|discriminate|].
    + apply in_keys_Nd in Hx. destruct Hx as [Hx|[->|Hx]].
      * specialize (IHl Hl (ex_intro _ x (conj Hx Ex))).
        destruct (FindTraverse l key); [discriminate|contradiction].
      * congruence.
      * exfalso. apply (lt_key_not_le _ _ E).
        apply (le_key_trans _ x); [auto|exact Hxk].
    + apply in_keys_Nd in Hx. destruct Hx as [Hx|[->|Hx]].
      * exfalso. apply compare_antisym in E. apply (lt_key_not_le _ _ E).
        apply (le_key_trans _ x); [exact Hkx|auto].
      * congruence.
      * specialize (IHr Hr (ex_intro _ x (conj Hx Ex))).
        destruct (FindTraverse r key); [discriminate|contradiction].
Qed.

Lemma FindTraverse_sound (t : Node) (key : Key) (p : list link) :
  FindTraverse t key = Some p ->
  exists e, pair_of (node_at t p) = Some e /\ In e (inorder t) /\
            compare key (pair_key e) = EQUAL.
Proof.
  revert p. induction t as [|l IHl c cv h rk r IHr]; intros p H.
  - discriminate.
  - simpl in H. destruct (compare key c) eqn:E.
    + destruct (FindTraverse l key) as [q|]; [|discriminate].
      injection H as <-. destruct (IHl q eq_refl) as (e & He & Hin & Ee).
      exists e. simpl. repeat split; trivial. apply in_or_app. auto.
    + injection H as <-. exists {| pair_key := c; pair_value := cv |}.
      simpl. repeat split; trivial. apply in_or_app. right. left. reflexivity.
    + destruct (FindTraverse r key) as [q|]; [|discriminate].
      injection H as <-. destruct (IHr q eq_refl) as (e & He & Hin & Ee).
      exists e. simpl. repeat split; trivial. apply in_or_app. right. right.
      exact Hin.
Qed.

(** For a key the search finds, [GetIndexOfKeyTraverse] is the in-order
    position of an entry with that key. *)
Lemma GetIndexOfKeyTraverse_found (t : Node) (key : Key) :
  every rank_at t ->
  FindTraverse t key <> None ->
  0 <= GetIndexOfKeyTraverse t key < count t /\
  exists e,
    nth_error (inorder t) (Z.to_nat (GetIndexOfKeyTraverse t key)) = Some e /\
    compare key (pair_key e) = EQUAL.
Proof.
  induction t as [|l IHl c cv h rk r IHr]; intros Hrk Hfind.
  - simpl in Hfind. contradiction.
  - pose proof (relative_rank_left _ Hrk) as Hrel. cbv beta iota in Hrel.
    simpl in Hrk. destruct Hrk as (_ & Hl & Hr).
    pose proof (count_nonneg l) as Pl. pose proof (count_nonneg r) as Pr.
    assert (Hlen : length (inorder l) = Z.to_nat (count l))
      by (rewrite count_length; lia).
    simpl in Hfind. cbn [GetIndexOfKeyTraverse]. rewrite Hrel.
    destruct (compare key c) eqn:E.
    + assert (Hf : FindTraverse l key <> None)
        by (destruct (FindTraverse l key); [discriminate|contradiction]).
      destruct (IHl Hl Hf) as (Hi & e & Hnth & Ee).
      split; [simpl; lia|]. exists e. split; [|exact Ee].
      simpl inorder. rewrite nth_error_app1; [exact Hnth|]. lia.
    + split; [simpl; lia|].
      exists {| pair_key := c; pair_value := cv |}. split; [|exact E].
      simpl inorder. rewrite nth_error_app2 by lia.
      replace (Z.to_nat (count l + 1 - 1) - length (inorder l))%nat with O
        by lia.
      reflexivity.
    + assert (Hf : FindTraverse r key <> None)
        by (destruct (FindTraverse r key); [discriminate|contradiction]).
      destruct (IHr Hr Hf) as (Hi & e & Hnth & Ee).
      split; [simpl; lia|]. exists e. split; [|exact Ee].
      simpl inorder. rewrite nth_error_app2 by lia.
      replace (Z.to_nat (count l + 1 + GetIndexOfKeyTraverse r key)
               - length (inorder l))%nat
        with (S (Z.to_nat (GetIndexOfKeyTraverse r key))) by lia.
      exact Hnth.
Qed.

(** X8. The part of C4 the code keeps: for a key present in a tree satisfying
    the invariants, [GetIndexOfKey] is the 0-based in-order position of an
    entry with that key. *)
Theorem GetIndexOfKey_present (t : AVLRankTree) (key : Key) :
  invariants t ->
  (exists x, In x (keys (root t)) /\ compare key x = EQUAL) ->
  0 <= GetIndexOfKey t key < size t /\
  exists e,
    nth_error (result (Query t default_filter))
              (Z.to_nat (GetIndexOfKey t key)) = Some e /\
    compare key (pair_key e) = EQUAL.
Proof.
  intros Hinv Hpresent. unfold GetIndexOfKey.
  rewrite Query_default, (inv_size Hinv). simpl result.
  apply GetIndexOfKeyTraverse_found; [apply Hinv|].
  apply FindTraverse_complete; [apply Hinv|exact Hpresent].
Qed.

End KeyIndex.

(** ** Removal of a key that occurs once *)

Section RemovalExact.

Context {Key Value R : Type}.
Context {comparing_func : Compare Key}.
Context {rank_ops : RankInfo Key Value R}.
Context {laws : CompareLaws Key}.
Context {rank_laws : RankLaws Key Value R}.

Local Abbreviation Node := (Node (Key := Key) (Value := Value) (R := R)).
Local Abbreviation AVLRankTree :=
  (AVLRankTree (Key := Key) (Value := Value) (R := R)).
Local Abbreviation KeyValuePair := (KeyValuePair (Key := Key) (Value := Value)).

Lemma sorted_weaken (ks : list Key) :
  StronglySorted lt_key ks -> StronglySorted le_key ks.
Proof.
  induction 1 as [|x xs Hs IH Hall]; constructor; [exact IH|].
  eapply Forall_impl; [|exact Hall]. intros y. apply lt_key_le.
Qed.

Lemma distinct_keys_ordered (t : Node) : distinct_keys t -> every ordered_at t.
Proof. intros H. apply ordered_sorted, sorted_weaken, H. Qed.

Lemma distinct_keys_Nd (l : Node) c cv h rk (r : Node) :
  distinct_keys (Nd l c cv h rk r) ->
  distinct_keys l /\ distinct_keys r /\
  (forall x, In x (keys l) -> lt_key x c) /\
  (forall x, In x (keys r) -> lt_key c x).
Proof.
  unfold distinct_keys. rewrite keys_Nd. intros H.
  apply sorted_app_elim in H. destruct H as (Hl & Hcr & Hcross).
  apply sorted_cons_elim in Hcr. destruct Hcr as (Hr & Hc).
  repeat split; trivial. intros x Hx. apply Hcross; simpl; auto.
Qed.

Lemma split_middle (A : Type) (xs ys L Rr : list A) (e m : A) :
  xs ++ e :: ys = L ++ m :: Rr ->
  (exists mid, L = xs ++ e :: mid /\ ys = mid ++ m :: Rr) \/
  (xs = L /\ e = m /\ ys = Rr) \/
  (exists mid, Rr = mid ++ e :: ys /\ xs = L ++ m :: mid).
Proof.
  revert L. induction xs as [|x xs IH]; intros [|y L] H; simpl in H.
  - injection H as -> ->. right. left. auto.
  - injection H as -> ->. left. exists L. auto.
  - injection H as -> <-. right. right. exists xs. auto.
  - injection H as -> H. destruct (IH L H) as [(mid & -> & ->)|[(-> & -> & ->)|(mid & -> & ->)]].
    + left. exists mid. auto.
    + right. left. auto.
    + right. right. exists mid. auto.
Qed.

Lemma equal_not_lt (a b c : Key) :
  compare a b = EQUAL -> compare a c = EQUAL -> lt_key b c -> False.
Proof.
  intros Eab Eac Hbc. destruct (equal_le _ _ Eab) as (Hab & _).
  destruct (equal_le _ _ Eac) as (Hac & Hca).
  apply (lt_key_not_le _ _ Hbc). apply (le_key_trans _ a); assumption.
Qed.

(** Where no key occurs twice, [RemoveTraverse] takes out exactly the
    entry of the key and leaves the rest of the sequence as it was. *)
Lemma RemoveTraverse_inorder (t : Node) :
  distinct_keys t ->
  forall key xs e ys t',
    inorder t = xs ++ e :: ys ->
    compare key (pair_key e) = EQUAL ->
    RemoveTraverse t key = Some t' ->
    inorder t' = xs ++ ys.
Proof.
  induction t as [|l IHl c cv h rk r IHr]; intros Hd key xs e ys t' Hin Ee Hrm.
  - destruct xs; discriminate.
  - apply distinct_keys_Nd in Hd. destruct Hd as (Hdl & Hdr & Hlc & Hcr).
    simpl inorder in Hin. symmetry in Hin.
    assert (InL : forall mid, inorder l = xs ++ e :: mid -> lt_key (pair_key e) c).
    { intros mid Hl. apply Hlc. unfold keys. rewrite Hl, map_app.
      apply in_or_app. right. left. reflexivity. }
    assert (InR : forall mid, inorder r = mid ++ e :: ys -> lt_key c (pair_key e)).
    { intros mid Hr. apply Hcr. unfold keys. rewrite Hr, map_app.
      apply in_or_app. right. left. reflexivity. }
    destruct (split_middle _ _ _ _ _ _ _ Hin)
      as [(mid & Hl & ->)|[(-> & -> & ->)|(mid & Hr & ->)]].
    + (* the entry lies in the left subtree *)
      pose proof (InL mid Hl) as Hlt.
      assert (E : compare key c = LESS_THAN).
      { apply (le_lt_trans _ (pair_key e)); [apply (equal_le _ _ Ee)|exact Hlt]. }
      cbn [RemoveTraverse] in Hrm. rewrite E in Hrm.
      destruct (RemoveTraverse l key) as [l'|] eqn:Hl'; [|discriminate].
      apply (refresh_inorder _ _ _ h rk) in Hrm.
      rewrite Hrm, (IHl Hdl key xs e mid l' Hl Ee Hl'), <- app_assoc.
      reflexivity.
    + (* the entry is this node *)
      simpl pair_key in Ee.
      destruct (is_null l || is_null r) eqn:En.
      * rewrite RemoveTraverse_one_child in Hrm by assumption.
        injection Hrm as <-.
        destruct l, r; simpl in *; try discriminate;
          rewrite ?app_nil_r; reflexivity.
      * apply orb_false_iff in En. destruct En as (Enl & Enr).
        rewrite RemoveTraverse_two_children in Hrm by assumption.
        destruct (FindMin_leftmost r Enr)
          as (p & mk & mv & mh & mrk & mr & rest & Hfm & Hp & Hinr).
        rewrite Hfm in Hrm. unfold deref in Hrm. rewrite Hp in Hrm.
        destruct (RemoveTraverse r mk) as [r'|] eqn:Hr'; [|discriminate].
        apply (refresh_inorder _ _ _ h mrk) in Hrm.
        rewrite Hrm, Hinr.
        rewrite (IHr Hdr mk [] {| pair_key := mk; pair_value := mv |} rest r'
                     Hinr (compare_refl mk) Hr').
        reflexivity.
    + (* the entry lies in the right subtree *)
      pose proof (InR mid Hr) as Hlt.
      assert (E : compare key c = GREATER_THAN).
      { apply compare_antisym.
        apply (lt_le_trans _ (pair_key e)); [exact Hlt|apply (equal_le _ _ Ee)]. }
      cbn [RemoveTraverse] in Hrm. rewrite E in Hrm.
      destruct (RemoveTraverse r key) as [r'|] eqn:Hr'; [|discriminate].
      apply (refresh_inorder _ _ _ h rk) in Hrm.
      rewrite Hrm, (IHr Hdr key mid e ys r' Hr Ee Hr'), <- app_assoc.
      reflexivity.
Qed.

(** X4. [Remove] of a key that no entry carries reports failure and leaves the
    tree as it is. *)
Theorem Remove_absent (t : AVLRankTree) (key : Key) :
  (forall x, In x (keys (root t)) -> compare key x <> EQUAL) ->
  Remove t key = Some (false, t).
Proof.
  intros Habs. unfold Remove, Find.
  destruct (FindTraverse (root t) key) as [p|] eqn:Hf; [|reflexivity].
  destruct (FindTraverse_sound _ _ _ Hf) as (e & _ & Hin & Ee).
  exfalso. apply (Habs (pair_key e)); [|exact Ee].
  apply in_inorder_keys. exact Hin.
Qed.

(** X5. The part of C9 the code keeps: on a tree satisfying the invariants in
    which no key occurs twice, [Remove] of a present key reports success,
    takes out exactly the entry of that key, decrements [size] and keeps
    the invariants. *)
Theorem Remove_present_distinct (t : AVLRankTree) (key : Key)
        (xs ys : list KeyValuePair) (e : KeyValuePair) :
  invariants t -> distinct_keys (root t) ->
  inorder (root t) = xs ++ e :: ys ->
  compare key (pair_key e) = EQUAL ->
  exists t',
    Remove t key = Some (true, t') /\
    inorder (root t') = xs ++ ys /\
    size t' = size t - 1 /\
    invariants t' /\ distinct_keys (root t').
Proof.
  intros Hinv Hd Hin Ee.
  destruct (Remove_invariants t key Hinv) as (b & t' & Hrm & Hinv').
  unfold Remove in Hrm.
  assert (Hfind : FindTraverse (root t) key <> None).
  { apply FindTraverse_complete; [apply Hinv|].
    exists (pair_key e). split; [|exact Ee].
    apply in_inorder_keys. rewrite Hin. apply in_or_app. right. left.
    reflexivity. }
  unfold Find in Hrm.
  destruct (FindTraverse (root t) key) as [p|] eqn:Hf; [|contradiction].
  destruct (FindTraverse_sound _ _ _ Hf) as (e0 & He0 & _).
  unfold deref in Hrm. rewrite He0 in Hrm.
  destruct (RemoveTraverse (root t) key) as [r'|] eqn:Hr'; [|discriminate].
  injection Hrm as <- <-.
  unfold Remove, Find. rewrite Hf. unfold deref. rewrite He0, Hr'.
  eexists. split; [reflexivity|].
  pose proof (RemoveTraverse_inorder _ Hd key xs e ys r' Hin Ee Hr') as Hin'.
  simpl root. simpl size. split; [exact Hin'|]. split; [reflexivity|].
  split; [exact Hinv'|].
  unfold distinct_keys, keys in *. rewrite Hin'. rewrite Hin in Hd.
  rewrite map_app in *. simpl map in Hd.
  apply sorted_app_elim in Hd. destruct Hd as (Hx & Hey & Hcross).
  apply sorted_cons_elim in Hey. destruct Hey as (Hy & _).
  apply sorted_app_intro; trivial.
  intros x y Hx' Hy'. apply Hcross; simpl; auto.
Qed.

End RemovalExact.

(** ** Range aggregate over trees without repeated keys *)

Section Aggregate.

Context {Key Value R : Type}.
Context {comparing_func : Compare Key}.
Context {rank_ops : RankInfo Key Value R}.
Context {laws : CompareLaws Key}.
Context {rank_laws : RankLaws Key Value R}.
Context {rank_inverse : RankInverse Key Value R}.

Local Abbreviation Node := (Node (Key := Key) (Value := Value) (R := R)).
Local Abbreviation AVLRankTree :=
  (AVLRankTree (Key := Key) (Value := Value) (R := R)).
Local Abbreviation KeyValuePair := (KeyValuePair (Key := Key) (Value := Value)).

Lemma rank_new_add (a : R) : rank_add rank_new a = a.
Proof. rewrite rank_add_comm. apply rank_add_new. Qed.

Lemma fold_contributions (l : list KeyValuePair) (a : R) :
  fold_left (fun acc p => rank_add acc (rank_of (pair_key p) (pair_value p)))
            l a
  = rank_add a (reduce_contributions l).
Proof.
  unfold reduce_contributions. revert a.
  induction l as [|e l IH]; intros a; simpl.
  - rewrite rank_add_new. reflexivity.
  - rewrite IH. rewrite (IH (rank_add rank_new _)).
    rewrite rank_new_add, rank_add_assoc. reflexivity.
Qed.

Lemma reduce_contributions_app (xs ys : list KeyValuePair) :
  reduce_contributions (xs ++ ys)
  = rank_add (reduce_contributions xs) (reduce_contributions ys).
Proof.
  unfold reduce_contributions at 1. rewrite fold_left_app.
  rewrite fold_contributions. reflexivity.
Qed.

Lemma reduce_contributions_cons (e : KeyValuePair) (ys : list KeyValuePair) :
  reduce_contributions (e :: ys)
  = rank_add (rank_of (pair_key e) (pair_value e)) (reduce_contributions ys).
Proof.
  unfold reduce_contributions at 1. simpl. rewrite fold_contributions.
  rewrite rank_new_add. reflexivity.
Qed.

(** The aggregate cached at a node is the combine-reduction of the
    contributions of its subtree. *)
Lemma GetRank_reduce (t : Node) :
  every rank_at t -> GetRank t = reduce_contributions (inorder t).
Proof.
  induction t as [|l IHl k v h rk r IHr]; simpl.
  - reflexivity.
  - intros (Hrk & Hl & Hr). rewrite Hrk, IHl, IHr by assumption.
    rewrite reduce_contributions_app, reduce_contributions_cons. simpl.
    rewrite (rank_add_comm (rank_of k v)), <- !rank_add_assoc.
    reflexivity.
Qed.

Lemma relative_LEFT (l : Node) k v h rk (r : Node) (any : R) :
  rank_at (Nd l k v h rk r) ->
  GetRelativeRank any (Nd l k v h rk r) LEFT_CHILD
  = rank_add (rank_of k v) (GetRank l).
Proof.
  simpl. intros ->. destruct r, l; simpl;
    rewrite ?rank_add_new, ?rank_sub_add; reflexivity.
Qed.

Lemma relative_RIGHT (l : Node) k v h rk (r : Node) (any : R) :
  rank_at (Nd l k v h rk r) ->
  GetRelativeRank any (Nd l k v h rk r) RIGHT_CHILD
  = rank_add (rank_of k v) (GetRank r).
Proof.
  simpl. intros ->. destruct r, l; simpl;
    rewrite ?rank_add_new; try reflexivity;
    try (rewrite rank_sub_add; reflexivity);
    rewrite rank_add_swap, rank_sub_add; reflexivity.
Qed.

Lemma relative_ROOT (l : Node) k v h rk (r : Node) (any : R) :
  rank_at (Nd l k v h rk r) ->
  GetRelativeRank any (Nd l k v h rk r) ROOT = rank_of k v.
Proof.
  simpl. intros ->. destruct r, l; simpl;
    rewrite ?rank_add_new, ?rank_sub_add; reflexivity.
Qed.

Lemma node_at_app (t : Node) (p q : list link) :
  node_at t (p ++ q) = node_at (node_at t p) q.
Proof.
  revert t. induction p as [|d p IH]; intros t; simpl; [reflexivity|].
  destruct t as [|l k v h rk r].
  - destruct q; reflexivity.
  - destruct d; apply IH.
Qed.

Lemma node_at_key_in (t : Node) (p : list link) l k v h rk r :
  node_at t p = Nd l k v h rk r -> In k (keys t).
Proof.
  revert t. induction p as [|d p IH]; intros t H; simpl in H.
  - subst t. apply in_keys_Nd. auto.
  - destruct t as [|tl tk tv th trk tr]; [discriminate|].
    apply in_keys_Nd. destruct d; [left|right; right]; apply IH; exact H.
Qed.

(** One step of the climb at a node that is not skipped. *)
Lemma climb_step (T : Node) c cv ch crk (L Rt : Node)
      (up : list link) (rel : Node) relk (acc : R) dir
      (l : Node) k v h rk (r : Node) :
  T = Nd L c cv ch crk Rt ->
  node_at T (rev up) = Nd l k v h rk r ->
  pair_of rel = Some relk ->
  compare c k <> EQUAL ->
  dir <> ROOT ->
  (dir = RIGHT_CHILD -> compare k (pair_key relk) <> LESS_THAN) ->
  (dir = LEFT_CHILD -> compare k (pair_key relk) <> GREATER_THAN) ->
  rank_at (Nd l k v h rk r) ->
  CollectRankTraverse T T up rel acc dir
  = match up with
    | [] => None
    | _ :: parent =>
      CollectRankTraverse T T parent rel
        (rank_add acc
           (rank_add (rank_of k v)
                     (GetRank (if NODE_POSITION_eqb dir RIGHT_CHILD
                               then r else l))))
        dir
    end.
Proof.
  intros HT Hnode Hrel Hck Hdir Hright Hleft Hrk.
  destruct rel as [|rl rk0 rv rh rrk rr]; [discriminate|].
  simpl in Hrel. injection Hrel as <-. simpl pair_key in *.
  destruct up as [|d parent].
  - simpl in Hnode. subst T. injection Hnode as -> -> -> -> -> ->.
    exfalso. apply Hck. apply compare_refl.
  - cbn [CollectRankTraverse]. rewrite Hnode. rewrite HT at 1.
    destruct (compare c k) eqn:E; try (exfalso; apply Hck; reflexivity);
      simpl COMPARE_RESULT_eqb; cbv iota.
    + destruct dir; [contradiction| |]; simpl NODE_POSITION_eqb; cbv iota.
      * destruct (compare k rk0) eqn:E2;
          try (exfalso; apply Hleft; reflexivity);
          simpl COMPARE_RESULT_eqb; cbv iota;
          rewrite (relative_LEFT _ _ _ _ _ _ _ Hrk); reflexivity.
      * destruct (compare k rk0) eqn:E2;
          try (exfalso; apply Hright; reflexivity);
          simpl COMPARE_RESULT_eqb; cbv iota;
          rewrite (relative_RIGHT _ _ _ _ _ _ _ Hrk); reflexivity.
    + destruct dir; [contradiction| |]; simpl NODE_POSITION_eqb; cbv iota.
      * destruct (compare k rk0) eqn:E2;
          try (exfalso; apply Hleft; reflexivity);
          simpl COMPARE_RESULT_eqb; cbv iota;
          rewrite (relative_LEFT _ _ _ _ _ _ _ Hrk); reflexivity.
      * destruct (compare k rk0) eqn:E2;
          try (exfalso; apply Hright; reflexivity);
          simpl COMPARE_RESULT_eqb; cbv iota;
          rewrite (relative_RIGHT _ _ _ _ _ _ _ Hrk); reflexivity.
Qed.

Lemma rank_shuffle (a r o l : R) :
  rank_add (rank_add a r) (rank_add o l)
  = rank_add a (rank_add (rank_add o l) r).
Proof.
  rewrite <- (rank_add_assoc a r). f_equal. apply rank_add_comm.
Qed.

(** Climbing from the maximum of a subtree [s] that hangs below the common
    ancestor collects the whole of [s] and goes on at the parent of [s]. *)
Lemma climb_from_max (T : Node) c cv ch crk (L Rt : Node)
      (rel : Node) (relk : KeyValuePair) :
  T = Nd L c cv ch crk Rt ->
  pair_of rel = Some relk ->
  forall s : Node,
    every rank_at s -> is_null s = false ->
    (forall x, In x (keys s) ->
               compare c x <> EQUAL /\
               compare x (pair_key relk) <> GREATER_THAN) ->
    forall up_s acc maxp,
      node_at T (rev up_s) = s ->
      FindMax s = Some maxp ->
      CollectRankTraverse T T (rev maxp ++ up_s) rel acc LEFT_CHILD
      = match up_s with
        | [] => None
        | _ :: parent =>
          CollectRankTraverse T T parent rel (rank_add acc (GetRank s))
                              LEFT_CHILD
        end.
Proof.
  intros HT Hrel.
  induction s as [|l _ k v h rk r IHr]; intros Hrk Hn Hkeys up_s acc maxp Hat Hmax;
    [discriminate|].
  pose proof Hrk as Hnode. simpl in Hnode. destruct Hnode as (Hrk0 & Hl & Hr).
  destruct (Hkeys k) as (Hck & Hkrel); [apply in_keys_Nd; auto|].
  assert (Step := climb_step T c cv ch crk L Rt up_s rel relk).
  rewrite FindMax_Nd in Hmax. destruct (is_null r) eqn:En.
  - injection Hmax as <-. simpl app.
    rewrite (Step acc LEFT_CHILD l k v h rk r); trivial; try discriminate.
    simpl NODE_POSITION_eqb. cbv iota.
    destruct r; [|discriminate]. simpl GetRank.
    simpl in Hrk0. rewrite rank_add_new in Hrk0. rewrite <- Hrk0. reflexivity.
  - destruct (FindMax r) as [mp|] eqn:Hmp; [|discriminate].
    injection Hmax as <-. simpl rev. rewrite <- app_assoc. simpl app.
    rewrite (IHr Hr eq_refl) with (maxp := mp); trivial.
    + rewrite (Step (rank_add acc (GetRank r)) LEFT_CHILD l k v h rk r);
        trivial; try discriminate.
      simpl NODE_POSITION_eqb. cbv iota. simpl GetRank.
      destruct up_s; [reflexivity|]. f_equal.
      rewrite rank_shuffle. simpl in Hrk0. rewrite <- Hrk0. reflexivity.
    + intros x Hx. apply Hkeys. apply in_keys_Nd. auto.
    + simpl rev. rewrite node_at_app, Hat. reflexivity.
Qed.

Lemma climb_from_min (T : Node) c cv ch crk (L Rt : Node)
      (rel : Node) (relk : KeyValuePair) :
  T = Nd L c cv ch crk Rt ->
  pair_of rel = Some relk ->
  forall s : Node,
    every rank_at s -> is_null s = false ->
    (forall x, In x (keys s) ->
               compare c x <> EQUAL /\
               compare x (pair_key relk) <> LESS_THAN) ->
    forall up_s acc minp,
      node_at T (rev up_s) = s ->
      FindMin s = Some minp ->
      CollectRankTraverse T T (rev minp ++ up_s) rel acc RIGHT_CHILD
      = match up_s with
        | [] => None
        | _ :: parent =>
          CollectRankTraverse T T parent rel (rank_add acc (GetRank s))
                              RIGHT_CHILD
        end.
Proof.
  intros HT Hrel.
  induction s as [|l IHl k v h rk r _]; intros Hrk Hn Hkeys up_s acc minp Hat Hmin;
    [discriminate|].
  pose proof Hrk as Hnode. simpl in Hnode. destruct Hnode as (Hrk0 & Hl & Hr).
  destruct (Hkeys k) as (Hck & Hkrel); [apply in_keys_Nd; auto|].
  assert (Step := climb_step T c cv ch crk L Rt up_s rel relk).
  rewrite FindMin_Nd in Hmin. destruct (is_null l) eqn:En.
  - injection Hmin as <-. simpl app.
    rewrite (Step acc RIGHT_CHILD l k v h rk r); trivial; try discriminate.
    simpl NODE_POSITION_eqb. cbv iota.
    destruct l; [|discriminate]. simpl GetRank.
    simpl in Hrk0. rewrite rank_add_new in Hrk0.
    destruct up_s; [reflexivity|]. f_equal. f_equal.
    rewrite Hrk0. reflexivity.
  - destruct (FindMin l) as [mp|] eqn:Hmp; [|discriminate].
    injection Hmin as <-. simpl rev. rewrite <- app_assoc. simpl app.
    rewrite (IHl Hl eq_refl) with (minp := mp); trivial.
    + rewrite (Step (rank_add acc (GetRank l)) RIGHT_CHILD l k v h rk r);
        trivial; try discriminate.
      simpl NODE_POSITION_eqb. cbv iota. simpl GetRank.
      destruct up_s; [reflexivity|]. f_equal.
      rewrite rank_shuffle. simpl in Hrk0. rewrite Hrk0.
      f_equal. apply rank_add_swap.
    + intros x Hx. apply Hkeys. apply in_keys_Nd. auto.
    + simpl rev. rewrite node_at_app, Hat. reflexivity.
Qed.

Lemma climb_at_root (T : Node) (rel : Node) (acc : R) dir :
  is_null T = false ->
  CollectRankTraverse T T [] rel acc dir = Some acc.
Proof.
  destruct T as [|L c cv ch crk Rt]; [discriminate|]. intros _.
  cbn [CollectRankTraverse rev node_at]. rewrite compare_refl. reflexivity.
Qed.

(** A boundary search that finds nothing leaves the fallback in place. *)
Lemma ClosestTraverse_all_less (t : Node) (m : Key) :
  (forall x, In x (keys t) -> lt_key x m) ->
  forall here res, ClosestTraverse here t m res GREATER_THAN = res.
Proof.
  induction t as [|l _ c cv h rk r IHr]; intros Hall here res; [reflexivity|].
  assert (E : compare m c = GREATER_THAN).
  { apply compare_antisym. apply Hall. apply in_keys_Nd. auto. }
  simpl. rewrite E. simpl. apply IHr.
  intros x Hx. apply Hall. apply in_keys_Nd. auto.
Qed.

Lemma ClosestTraverse_all_greater (t : Node) (m : Key) :
  (forall x, In x (keys t) -> lt_key m x) ->
  forall here res, ClosestTraverse here t m res LESS_THAN = res.
Proof.
  induction t as [|l IHl c cv h rk r _]; intros Hall here res; [reflexivity|].
  assert (E : compare m c = LESS_THAN).
  { apply Hall. apply in_keys_Nd. auto. }
  simpl. rewrite E. simpl. apply IHl.
  intros x Hx. apply Hall. apply in_keys_Nd. auto.
Qed.

Lemma node_at_NULL (p : list link) : node_at (NULL : Node) p = NULL.
Proof. destruct p; reflexivity. Qed.

(** Without repeated keys the node of minimum key is the leftmost one, so
    the cache of invariant 6 is the pointer [FindMin] computes. *)
Lemma min_pointer_unique (t : Node) :
  distinct_keys t ->
  forall p, points_at_extreme le_key t p -> p = FindMin t.
Proof.
  induction t as [|l IHl c cv h rk r _]; intros Hd [path|] Hp; simpl in Hp.
  - rewrite node_at_NULL in Hp. contradiction.
  - reflexivity.
  - apply distinct_keys_Nd in Hd. destruct Hd as (Hdl & Hdr & Hlc & Hcr).
    rewrite FindMin_Nd.
    destruct path as [|[|] path]; simpl in Hp.
    + rewrite Forall_forall in Hp.
      destruct l as [|ll lk lv lh lrk lr]; [reflexivity|]. exfalso.
      assert (Hin : In lk (keys (Nd ll lk lv lh lrk lr)))
        by (apply in_keys_Nd; auto).
      apply (lt_key_not_le _ _ (Hlc lk Hin)).
      apply Hp. apply in_keys_Nd. auto.
    + destruct (node_at l path) as [|nl nk nv nh nrk nr] eqn:Hn; [contradiction|].
      rewrite Forall_forall in Hp.
      assert (Hl : points_at_extreme le_key l (Some path)).
      { simpl. rewrite Hn. apply Forall_forall. intros x Hx.
        apply Hp. apply in_keys_Nd. auto. }
      rewrite <- (IHl Hdl (Some path) Hl).
      destruct l; [rewrite node_at_NULL in Hn; discriminate|]. reflexivity.
    + destruct (node_at r path) as [|nl nk nv nh nrk nr] eqn:Hn; [contradiction|].
      rewrite Forall_forall in Hp. exfalso.
      apply (lt_key_not_le c nk).
      * apply Hcr. eapply node_at_key_in. exact Hn.
      * apply Hp. apply in_keys_Nd. auto.
  - discriminate.
Qed.

Lemma max_pointer_unique (t : Node) :
  distinct_keys t ->
  forall p, points_at_extreme (fun k x => le_key x k) t p -> p = FindMax t.
Proof.
  induction t as [|l _ c cv h rk r IHr]; intros Hd [path|] Hp; simpl in Hp.
  - rewrite node_at_NULL in Hp. contradiction.
  - reflexivity.
  - apply distinct_keys_Nd in Hd. destruct Hd as (Hdl & Hdr & Hlc & Hcr).
    rewrite FindMax_Nd.
    destruct path as [|[|] path]; simpl in Hp.
    + rewrite Forall_forall in Hp.
      destruct r as [|rl rk' rv rh rrk rr]; [reflexivity|]. exfalso.
      assert (Hin : In rk' (keys (Nd rl rk' rv rh rrk rr)))
        by (apply in_keys_Nd; auto).
      apply (lt_key_not_le _ _ (Hcr rk' Hin)).
      apply Hp. apply in_keys_Nd. auto.
    + destruct (node_at l path) as [|nl nk nv nh nrk nr] eqn:Hn; [contradiction|].
      rewrite Forall_forall in Hp. exfalso.
      apply (lt_key_not_le nk c).
      * apply Hlc. eapply node_at_key_in. exact Hn.
      * apply Hp. apply in_keys_Nd. auto.
    + destruct (node_at r path) as [|nl nk nv nh nrk nr] eqn:Hn; [contradiction|].
      rewrite Forall_forall in Hp.
      assert (Hr : points_at_extreme (fun k x => le_key x k) r (Some path)).
      { simpl. rewrite Hn. apply Forall_forall. intros x Hx.
        apply Hp. apply in_keys_Nd. auto. }
      rewrite <- (IHr Hdr (Some path) Hr).
      destruct r; [rewrite node_at_NULL in Hn; discriminate|]. reflexivity.
  - discriminate.
Qed.

(** [CollectRank] between the leftmost and the rightmost node, without a
    limit, on a tree without repeated keys. *)
Lemma CollectRank_between_extremes (t : AVLRankTree) (filter : FilterObject) :
  every rank_at (root t) -> distinct_keys (root t) ->
  limit filter <= 0 ->
  range_boundary t (max_range filter) LESS_THAN (max_node t)
  = FindMax (root t) ->
  range_boundary t (min_range filter) GREATER_THAN (min_node t)
  = FindMin (root t) ->
  CollectRank t filter = Some (reduce_contributions (inorder (root t))).
Proof.
  intros Hrk Hd Hlim Hmaxb Hminb.
  unfold CollectRank. rewrite Hmaxb, Hminb.
  destruct (root t) as [|L c cv ch crk Rt] eqn:HT; [reflexivity|].
  rewrite <- HT in *.
  assert (Hnn : is_null (root t) = false) by (rewrite HT; reflexivity).
  pose proof (distinct_keys_ordered _ Hd) as Hord.
  pose proof (FindMax_extreme _ Hord) as Hmaxe.
  pose proof (FindMin_extreme _ Hord) as Hmine.
  destruct (FindMax_rightmost _ Hnn)
    as (maxp & maxk & maxv & maxh & maxrk & maxl & maxrest & Hfmax & Hpmax & Hinmax).
  destruct (FindMin_leftmost _ Hnn)
    as (minp & mink & minv & minh & minrk & minr & minrest & Hfmin & Hpmin & Hinmin).
  rewrite Hfmax, Hfmin in *. simpl in Hmaxe, Hmine.
  rewrite Hpmax in Hmaxe. rewrite Hpmin in Hmine.
  rewrite Forall_forall in Hmaxe, Hmine.
  rewrite Hpmax, Hpmin.
  pose proof Hd as Hd'. rewrite HT in Hd'.
  apply distinct_keys_Nd in Hd'. destruct Hd' as (HdL & HdR & HLc & HcR).
  assert (Hc : In c (keys (root t))) by (rewrite HT; apply in_keys_Nd; auto).
  assert (HinL : forall x, In x (keys L) -> In x (keys (root t)))
    by (intros x Hx; rewrite HT; apply in_keys_Nd; auto).
  assert (HinR : forall x, In x (keys Rt) -> In x (keys (root t)))
    by (intros x Hx; rewrite HT; apply in_keys_Nd; auto).
  pose proof Hrk as Hrk'. rewrite HT in Hrk'. simpl in Hrk'.
  destruct Hrk' as (Hcrk & HrkL & HrkR).
  destruct (compare maxk mink) eqn:E; simpl COMPARE_RESULT_eqb; cbv iota.
  2:{ (* equal extremes: a single node *)
    assert (HL : L = NULL).
    { destruct L as [|ll lk lv lh lrk lr]; [reflexivity|]. exfalso.
      assert (Hlk : In lk (keys (Nd ll lk lv lh lrk lr)))
        by (apply in_keys_Nd; auto).
      apply (lt_key_not_le mink maxk); [|apply (equal_le _ _ E)].
      apply (le_lt_trans _ lk); [apply Hmine, HinL, Hlk|].
      apply (lt_le_trans _ c); [apply HLc, Hlk|apply Hmaxe, Hc]. }
    assert (HR : Rt = NULL).
    { destruct Rt as [|rl rk' rv rh rrk rr]; [reflexivity|]. exfalso.
      assert (Hrk1 : In rk' (keys (Nd rl rk' rv rh rrk rr)))
        by (apply in_keys_Nd; auto).
      apply (lt_key_not_le mink maxk); [|apply (equal_le _ _ E)].
      apply (le_lt_trans _ c); [apply Hmine, Hc|].
      apply (lt_le_trans _ rk'); [apply HcR, Hrk1|apply Hmaxe, HinR, Hrk1]. }
    subst L Rt. rewrite HT in Hfmax, Hpmax |- *. simpl in Hfmax.
    injection Hfmax as <-. simpl in Hpmax.
    injection Hpmax as <- <- <- <- <-.
    rewrite relative_ROOT by (simpl; exact Hcrk). reflexivity. }
  all: replace (limit filter >? 0) with false
    by (symmetry; rewrite Z.gtb_ltb; apply Z.ltb_ge; exact Hlim).
  all: unfold collect_between; rewrite Hpmax, Hpmin.
  all: assert (Hmlc : GetMostLowerCommonNode (root t)
                        (Nd NULL mink minv minh minrk minr)
                        (Nd maxl maxk maxv maxh maxrk NULL) = Some (Some []));
    [ rewrite HT; cbn [GetMostLowerCommonNode];
      assert (H1 : COMPARE_RESULT_eqb (compare c maxk) GREATER_THAN = false)
        by (destruct (compare c maxk) eqn:E1; try reflexivity;
            exfalso; apply (Hmaxe c Hc E1));
      assert (H2 : COMPARE_RESULT_eqb (compare c mink) LESS_THAN = false)
        by (destruct (compare c mink) eqn:E2; try reflexivity;
            exfalso; apply (lt_key_not_le _ _ E2), Hmine, Hc);
      rewrite H1, H2, !andb_false_r; try rewrite andb_false_l; reflexivity
    | rewrite Hmlc; simpl deref ].
  all: assert (Hup :
         CollectRankTraverse (root t) (root t) (rev maxp)
           (Nd maxl maxk maxv maxh maxrk NULL) rank_new LEFT_CHILD
         = Some (rank_add rank_new (GetRank Rt)));
    [ rewrite HT in Hfmax; rewrite FindMax_Nd in Hfmax;
      destruct (is_null Rt) eqn:EnR;
      [ injection Hfmax as <-; destruct Rt; [|discriminate];
        simpl GetRank; rewrite rank_add_new; apply climb_at_root; exact Hnn
      | destruct (FindMax Rt) as [mp|] eqn:Hmp; [|discriminate];
        injection Hfmax as <-; simpl rev;
        rewrite (climb_from_max (root t) c cv ch crk L Rt
                   (Nd maxl maxk maxv maxh maxrk NULL)
                   {| pair_key := maxk; pair_value := maxv |} HT eq_refl
                   Rt HrkR EnR) with (maxp := mp);
        [ apply climb_at_root; exact Hnn
        | intros x Hx; split;
          [ intros Ex; apply (lt_key_not_le c x); [apply HcR, Hx|];
            apply (equal_le _ _ Ex)
          | apply Hmaxe, HinR, Hx ]
        | rewrite HT; reflexivity
        | exact Hmp ] ]
    | rewrite Hup ].
  all: assert (Hdown :
         CollectRankTraverse (root t) (root t) (rev minp)
           (Nd NULL mink minv minh minrk minr)
           (rank_add rank_new (GetRank Rt)) RIGHT_CHILD
         = Some (rank_add (rank_add rank_new (GetRank Rt)) (GetRank L)));
    [ rewrite HT in Hfmin; rewrite FindMin_Nd in Hfmin;
      destruct (is_null L) eqn:EnL;
      [ injection Hfmin as <-; destruct L; [|discriminate];
        simpl GetRank; rewrite (rank_add_new (rank_add _ _));
        apply climb_at_root; exact Hnn
      | destruct (FindMin L) as [mp|] eqn:Hmp; [|discriminate];
        injection Hfmin as <-; simpl rev;
        rewrite (climb_from_min (root t) c cv ch crk L Rt
                   (Nd NULL mink minv minh minrk minr)
                   {| pair_key := mink; pair_value := minv |} HT eq_refl
                   L HrkL EnL) with (minp := mp);
        [ apply climb_at_root; exact Hnn
        | intros x Hx; split;
          [ intros Ex; apply (lt_key_not_le x c); [apply HLc, Hx|];
            apply (equal_le _ _ Ex)
          | intros Elt; apply (lt_key_not_le _ _ Elt), Hmine, HinL, Hx ]
        | rewrite HT; reflexivity
        | exact Hmp ] ]
    | rewrite Hdown ].
  all: rewrite <- (GetRank_reduce _ Hrk); rewrite HT;
    rewrite relative_ROOT by (simpl; exact Hcrk);
    simpl GetRank; rewrite Hcrk, rank_new_add; f_equal;
    rewrite (rank_add_comm (GetRank Rt)), (rank_add_comm _ (rank_of c cv));
    apply rank_add_assoc.
Qed.

(** X21. The part of C7 the code keeps: on a tree satisfying the invariants in
    which no key occurs twice, [CollectRank] with the default filter is the
    combine-reduction of the contributions of the entries of [Query()]. *)
Theorem CollectRank_unbounded_distinct (t : AVLRankTree) :
  invariants t -> distinct_keys (root t) ->
  CollectRank t default_filter
  = Some (reduce_contributions (result (Query t default_filter))).
Proof.
  intros Hinv Hd. rewrite Query_default. simpl result.
  apply CollectRank_between_extremes; trivial.
  - apply Hinv.
  - simpl. lia.
  - simpl. apply max_pointer_unique; [exact Hd|apply Hinv].
  - simpl. apply min_pointer_unique; [exact Hd|apply Hinv].
Qed.

(** X22. The part of C10 the code keeps: on a tree satisfying the invariants in
    which no key occurs twice, a [min_range] above every key, or a
    [max_range] below every key, finds no boundary node, falls back to the
    cached extreme and yields the aggregate of the whole tree. *)
Theorem CollectRank_fallback_distinct (t : AVLRankTree) (m : Key) :
  invariants t -> distinct_keys (root t) ->
  ((forall x, In x (keys (root t)) -> lt_key x m) ->
   ClosestTraverse [] (root t) m None GREATER_THAN = None /\
   CollectRank t (filter_from m)
   = Some (reduce_contributions (inorder (root t)))) /\
  ((forall x, In x (keys (root t)) -> lt_key m x) ->
   ClosestTraverse [] (root t) m None LESS_THAN = None /\
   CollectRank t (filter_up_to m)
   = Some (reduce_contributions (inorder (root t)))).
Proof.
  intros Hinv Hd. split; intros Hall.
  - pose proof (ClosestTraverse_all_less _ m Hall [] None) as Hc.
    split; [exact Hc|].
    apply CollectRank_between_extremes; trivial.
    + apply Hinv.
    + simpl. lia.
    + simpl. apply max_pointer_unique; [exact Hd|apply Hinv].
    + simpl. rewrite Hc. apply min_pointer_unique; [exact Hd|apply Hinv].
  - pose proof (ClosestTraverse_all_greater _ m Hall [] None) as Hc.
    split; [exact Hc|].
    apply CollectRank_between_extremes; trivial.
    + apply Hinv.
    + simpl. lia.
    + simpl. rewrite Hc. apply max_pointer_unique; [exact Hd|apply Hinv].
    + simpl. apply min_pointer_unique; [exact Hd|apply Hinv].
Qed.

End Aggregate.

(** ** Lookup after insertion and removal *)

Section Lookup.

Context {Key Value R : Type}.
Context {comparing_func : Compare Key}.
Context {rank_ops : RankInfo Key Value R}.
Context {laws : CompareLaws Key}.
Context {rank_laws : RankLaws Key Value R}.

Local Abbreviation Node := (Node (Key := Key) (Value := Value) (R := R)).
Local Abbreviation AVLRankTree :=
  (AVLRankTree (Key := Key) (Value := Value) (R := R)).
Local Abbreviation KeyValuePair := (KeyValuePair (Key := Key) (Value := Value)).

Lemma Find_Some (t : AVLRankTree) (key : Key) (e : KeyValuePair) :
  Find t key = Some e ->
  In e (inorder (root t)) /\ compare key (pair_key e) = EQUAL.
Proof.
  unfold Find. intros H.
  destruct (FindTraverse (root t) key) as [p|] eqn:Hf; [|discriminate].
  destruct (FindTraverse_sound _ _ _ Hf) as (e' & He' & Hin & Ee).
  unfold deref in H. rewrite He' in H. injection H as <-. auto.
Qed.

Lemma Find_None (t : AVLRankTree) (key : Key) :
  every ordered_at (root t) ->
  Find t key = None ->
  forall x, In x (keys (root t)) -> compare key x <> EQUAL.
Proof.
  unfold Find. intros Hord H x Hx Ex.
  assert (Hf : FindTraverse (root t) key <> None)
    by (apply FindTraverse_complete; eauto).
  destruct (FindTraverse (root t) key) as [p|] eqn:Ep; [|contradiction].
  destruct (FindTraverse_sound _ _ _ Ep) as (e' & He' & _).
  unfold deref in H. rewrite He' in H. discriminate.
Qed.

(** X1. [Find] on ordered keys: an entry whose key compares equal to the one
    asked for, and nothing exactly when the tree holds no such entry. *)
Theorem Find_equal_key (t : AVLRankTree) (key : Key) :
  every ordered_at (root t) ->
  match Find t key with
  | Some e => In e (inorder (root t)) /\ compare key (pair_key e) = EQUAL
  | None => forall x, In x (keys (root t)) -> compare key x <> EQUAL
  end.
Proof.
  intros Hord. destruct (Find t key) as [e|] eqn:E.
  - apply Find_Some. exact E.
  - apply Find_None; assumption.
Qed.

Lemma Insert_inorder (t : AVLRankTree) (k : Key) (v : Value) :
  invariants t ->
  exists t' xs ys,
    Insert t k v = Some t' /\
    invariants t' /\
    inorder (root t) = xs ++ ys /\
    inorder (root t') = xs ++ {| pair_key := k; pair_value := v |} :: ys /\
    Forall (fun e => le_key (pair_key e) k) xs /\
    Forall (fun e => lt_key k (pair_key e)) ys /\
    size t' = size t + 1.
Proof.
  intros Hinv.
  destruct (Insert_invariants t k v Hinv) as (t' & Hins & Hinv').
  exists t'. unfold Insert in Hins.
  destruct (InsertTraverse (root t) k v) as [n|] eqn:En; [|discriminate].
  injection Hins as <-.
  destruct (InsertTraverse_inorder _ _ _ _ (inv_order Hinv) En)
    as (xs & ys & H1 & H2 & H3 & H4).
  exists xs, ys. unfold Insert. rewrite En.
  split; [reflexivity|]. split; [exact Hinv'|].
  simpl root. simpl size. auto 7.
Qed.

(** X2. [Insert] adds one entry and touches no other: the new entry goes after
    every entry whose key is less or equal and before every entry whose key
    is greater, so an entry with an equal key is kept beside it, and [size]
    grows by one. *)
Theorem Insert_adds_entry (t : AVLRankTree) (k : Key) (v : Value) :
  invariants t ->
  exists t' xs ys,
    Insert t k v = Some t' /\
    inorder (root t) = xs ++ ys /\
    inorder (root t') = xs ++ {| pair_key := k; pair_value := v |} :: ys /\
    Forall (fun e => le_key (pair_key e) k) xs /\
    Forall (fun e => lt_key k (pair_key e)) ys /\
    size t' = size t + 1.
Proof.
  intros Hinv.
  destruct (Insert_inorder t k v Hinv)
    as (t' & xs & ys & H0 & _ & H1 & H2 & H3 & H4 & H5).
  exists t', xs, ys. auto 7.
Qed.

(** X3. [Find] after [Insert]: the key just inserted is found, and when the
    tree held no equal key before, the entry found is the inserted one. *)
Theorem Insert_then_Find (t : AVLRankTree) (k : Key) (v : Value) :
  invariants t ->
  exists t' e,
    Insert t k v = Some t' /\
    Find t' k = Some e /\
    compare k (pair_key e) = EQUAL /\
    ((forall x, In x (keys (root t)) -> compare k x <> EQUAL) ->
     e = {| pair_key := k; pair_value := v |}).
Proof.
  intros Hinv.
  destruct (Insert_inorder t k v Hinv)
    as (t' & xs & ys & Hins & Hinv' & Hin & Hin' & _).
  exists t'.
  destruct (Find t' k) as [e|] eqn:Ef.
  - exists e. destruct (Find_Some _ _ _ Ef) as (He & Ee).
    repeat split; trivial.
    intros Habs. rewrite Hin' in He. apply in_app_or in He.
    destruct He as [He|[He|He]]; [|auto|]; exfalso;
      apply (Habs (pair_key e)); trivial; apply in_inorder_keys; rewrite Hin;
      apply in_or_app; auto.
  - exfalso.
    apply (Find_None _ _ (inv_order Hinv') Ef k); [|apply compare_refl].
    unfold keys. rewrite Hin', map_app. apply in_or_app. right. left.
    reflexivity.
Qed.

Lemma distinct_no_equal (xs ys : list KeyValuePair) (e : KeyValuePair)
      (key : Key) :
  StronglySorted lt_key (map pair_key (xs ++ e :: ys)) ->
  compare key (pair_key e) = EQUAL ->
  forall x, In x (map pair_key (xs ++ ys)) -> compare key x <> EQUAL.
Proof.
  intros Hd Ee x Hx Ex.
  rewrite map_app in Hd, Hx. simpl map in Hd.
  apply sorted_app_elim in Hd. destruct Hd as (_ & Hey & Hcross).
  apply sorted_cons_elim in Hey. destruct Hey as (_ & Hlt).
  apply in_app_or in Hx. destruct Hx as [Hx|Hx].
  - apply (equal_not_lt key x (pair_key e)); trivial.
    apply Hcross; simpl; auto.
  - apply (equal_not_lt key (pair_key e) x); auto.
Qed.

(** X6. [Find] after [Remove], on a tree in which no key occurs twice: whatever
    [Remove] reports, the key is not found afterwards. *)
Theorem Remove_then_Find (t : AVLRankTree) (key : Key) :
  invariants t -> distinct_keys (root t) ->
  exists b t', Remove t key = Some (b, t') /\ Find t' key = None.
Proof.
  intros Hinv Hd.
  destruct (Remove_invariants t key Hinv) as (b & t' & Hrm & Hinv').
  exists b, t'. split; [exact Hrm|].
  unfold Remove in Hrm.
  destruct (Find t key) as [e|] eqn:Ef.
  - destruct (Find_Some _ _ _ Ef) as (Hin & Ee).
    destruct (in_split _ _ Hin) as (xs & ys & Hsplit).
    destruct (RemoveTraverse (root t) key) as [r'|] eqn:Hr'; [|discriminate].
    injection Hrm as <- <-.
    pose proof (RemoveTraverse_inorder _ Hd key xs e ys r' Hsplit Ee Hr')
      as Hin'.
    match goal with
    | |- Find ?u key = None => destruct (Find u key) as [e'|] eqn:Ef'
    end; [|reflexivity].
    exfalso. destruct (Find_Some _ _ _ Ef') as (He' & Ee').
    simpl root in He'.
    unfold distinct_keys, keys in Hd. rewrite Hsplit in Hd.
    apply (distinct_no_equal xs ys e key Hd Ee (pair_key e')); trivial.
    apply in_map. rewrite <- Hin'. exact He'.
  - injection Hrm as <- <-. exact Ef.
Qed.

Lemma sorted_lt_insert (xs ys : list KeyValuePair) (k : Key) (v : Value) :
  StronglySorted lt_key (map pair_key (xs ++ ys)) ->
  Forall (fun e => le_key (pair_key e) k) xs ->
  Forall (fun e => lt_key k (pair_key e)) ys ->
  (forall x, In x (map pair_key (xs ++ ys)) -> compare k x <> EQUAL) ->
  StronglySorted lt_key
    (map pair_key (xs ++ {| pair_key := k; pair_value := v |} :: ys)).
Proof.
  intros Hs Hxs Hys Habs.
  rewrite map_app in *. simpl map.
  apply sorted_app_elim in Hs. destruct Hs as (Sx & Sy & Hcross).
  rewrite Forall_forall in Hxs, Hys.
  assert (Hlow : forall x, In x (map pair_key xs) -> lt_key x k).
  { intros x Hx. apply in_map_iff in Hx. destruct Hx as (e & <- & He).
    specialize (Hxs e He). unfold le_key, lt_key in *.
    destruct (compare (pair_key e) k) eqn:E; trivial; [|contradiction].
    exfalso. apply (Habs (pair_key e)).
    - apply in_or_app. left. apply in_map. exact He.
    - apply compare_equal_sym. exact E. }
  assert (Hhigh : forall y, In y (map pair_key ys) -> lt_key k y).
  { intros y Hy. apply in_map_iff in Hy. destruct Hy as (e & <- & He).
    apply Hys. exact He. }
  apply sorted_app_intro; trivial.
  - apply sorted_cons_intro; trivial.
  - intros x y Hx [<-|Hy]; auto.
Qed.

(** X7. [Remove] undoes [Insert]: on a tree in which no key occurs twice,
    inserting a key the tree does not hold and removing it again gives back
    the same sequence of entries and the same [size]. *)
Theorem Insert_then_Remove (t : AVLRankTree) (k : Key) (v : Value) :
  invariants t -> distinct_keys (root t) ->
  (forall x, In x (keys (root t)) -> compare k x <> EQUAL) ->
  exists t1 t2,
    Insert t k v = Some t1 /\
    Remove t1 k = Some (true, t2) /\
    inorder (root t2) = inorder (root t) /\
    size t2 = size t /\
    invariants t2.
Proof.
  intros Hinv Hd Habs.
  destruct (Insert_inorder t k v Hinv)
    as (t1 & xs & ys & Hins & Hinv1 & Hin & Hin1 & Hxs & Hys & Hsz).
  exists t1.
  assert (Hd1 : distinct_keys (root t1)).
  { unfold distinct_keys, keys in *. rewrite Hin1. rewrite Hin in Hd.
    apply sorted_lt_insert; trivial.
    intros x Hx. apply Habs. unfold keys. rewrite Hin. exact Hx. }
  destruct (Remove_invariants t1 k Hinv1) as (b & t2 & Hrm & Hinv2).
  exists t2. split; [exact Hins|].
  unfold Remove in Hrm.
  destruct (Find t1 k) as [e|] eqn:Ef.
  - destruct (RemoveTraverse (root t1) k) as [r'|] eqn:Hr'; [|discriminate].
    injection Hrm as <- <-.
    unfold Remove. rewrite Ef, Hr'. split; [reflexivity|].
    simpl root. simpl size.
    rewrite (RemoveTraverse_inorder _ Hd1 k xs
               {| pair_key := k; pair_value := v |} ys r' Hin1
               (compare_refl k) Hr').
    rewrite <- Hin. split; [reflexivity|]. split; [lia|]. exact Hinv2.
  - exfalso.
    apply (Find_None _ _ (inv_order Hinv1) Ef k); [|apply compare_refl].
    unfold keys. rewrite Hin1, map_app. apply in_or_app. right. left.
    reflexivity.
Qed.

End Lookup.

(** ** The cached extremes *)

Section Extremes.

Context {Key Value R : Type}.
Context {comparing_func : Compare Key}.
Context {rank_ops : RankInfo Key Value R}.
Context {laws : CompareLaws Key}.
Context {rank_laws : RankLaws Key Value R}.

Local Abbreviation Node := (Node (Key := Key) (Value := Value) (R := R)).
Local Abbreviation AVLRankTree :=
  (AVLRankTree (Key := Key) (Value := Value) (R := R)).

(** Every constructor and mutator leaves the caches on the leftmost and the
    rightmost node. *)
Lemma reachable_caches (t : AVLRankTree) :
  reachable t ->
  invariants t /\
  min_node t = FindMin (root t) /\ max_node t = FindMax (root t).
Proof.
  induction 1 as [|a b s Ha IHa Hb IHb Hm|s k v s' Hs IH Hi|s k b s' Hs IH Hr].
  - split; [apply empty_tree_invariants|]. split; reflexivity.
  - destruct IHa as (Ia & _). destruct IHb as (Ib & _).
    destruct (merge_trees_invariants a b Ia Ib) as (m & Hm' & Hinv).
    destruct (merge_trees_built a b (inv_size Ia) (inv_size Ib))
      as (m' & Hm'' & _ & _ & _ & _ & Hmin & Hmax & _).
    replace s with m by congruence. split; [exact Hinv|].
    replace m with m' by congruence. split; assumption.
  - destruct IH as (Is & _).
    destruct (Insert_invariants s k v Is) as (m & Hm' & Hinv).
    replace s' with m by congruence. split; [exact Hinv|].
    unfold Insert in Hm'.
    destruct (InsertTraverse (root s) k v); [|discriminate].
    injection Hm' as <-. split; reflexivity.
  - destruct IH as (Is & Hmin & Hmax).
    destruct (Remove_invariants s k Is) as (b' & m & Hm' & Hinv).
    replace s' with m by congruence. split; [exact Hinv|].
    unfold Remove in Hm'. destruct (Find s k).
    + destruct (RemoveTraverse (root s) k); [|discriminate].
      injection Hm' as _ <-. split; reflexivity.
    + injection Hm' as _ <-. split; assumption.
Qed.

Lemma pair_of_FindMin (t : Node) :
  pair_of (deref t (FindMin t)) = hd_error (inorder t).
Proof.
  destruct t as [|l k v h rk r]; [reflexivity|].
  destruct (FindMin_leftmost (Nd l k v h rk r) eq_refl)
    as (path & mk & mv & mh & mrk & mr & rest & Hp & Hn & Hin).
  rewrite Hp, Hin. unfold deref. rewrite Hn. reflexivity.
Qed.

Lemma pair_of_FindMax (t : Node) :
  pair_of (deref t (FindMax t)) = hd_error (rev (inorder t)).
Proof.
  destruct t as [|l k v h rk r]; [reflexivity|].
  destruct (FindMax_rightmost (Nd l k v h rk r) eq_refl)
    as (path & mk & mv & mh & mrk & ml & rest & Hp & Hn & Hin).
  rewrite Hp, Hin. unfold deref. rewrite Hn, rev_app_distr. reflexivity.
Qed.

(** X13. On every tree reachable through the empty constructor, the merge
    constructor, [Insert] and [Remove], [GetMin] is the first entry of the
    in-order sequence and [GetMax] the last one, and both are absent
    exactly on the tree without entries. *)
Theorem GetMin_GetMax_ends (t : AVLRankTree) :
  reachable t ->
  GetMin t = hd_error (result (Query t default_filter)) /\
  GetMax t = hd_error (rev (result (Query t default_filter))).
Proof.
  intros Hr. destruct (reachable_caches t Hr) as (_ & Hmin & Hmax).
  rewrite Query_default. simpl result. unfold GetMin, GetMax.
  rewrite Hmin, Hmax. split; [apply pair_of_FindMin|apply pair_of_FindMax].
Qed.

End Extremes.

(** ** Height *)

Section Height.

Context {Key Value R : Type}.
Context {comparing_func : Compare Key}.
Context {rank_ops : RankInfo Key Value R}.

Local Abbreviation Node := (Node (Key := Key) (Value := Value) (R := R)).
Local Abbreviation AVLRankTree :=
  (AVLRankTree (Key := Key) (Value := Value) (R := R)).

Lemma count_upper (t : Node) :
  every height_at t -> count t + 1 <= 2 ^ (GetHeight t + 1).
Proof.
  induction t as [|l IHl k v h rk r IHr]; intros Hh.
  - simpl. change (2 ^ (-1 + 1)) with 1. lia.
  - simpl in Hh. destruct Hh as (Hh & Hl & Hr).
    specialize (IHl Hl). specialize (IHr Hr).
    pose proof (height_lower l Hl) as Pl.
    pose proof (height_lower r Hr) as Pr.
    simpl GetHeight. simpl count. subst h.
    set (m := Z.max (GetHeight l) (GetHeight r)) in *.
    assert (Hm : 0 <= m + 1) by lia.
    replace (1 + m + 1) with (Z.succ (m + 1)) by lia.
    rewrite Z.pow_succ_r by exact Hm.
    assert (2 ^ (GetHeight l + 1) <= 2 ^ (m + 1))
      by (apply Z.pow_le_mono_r; lia).
    assert (2 ^ (GetHeight r + 1) <= 2 ^ (m + 1))
      by (apply Z.pow_le_mono_r; lia).
    lia.
Qed.

Lemma count_lower (t : Node) :
  every balanced_at t -> every height_at t ->
  2 ^ ((GetHeight t + 2) / 2) <= count t + 1.
Proof.
  induction t as [|l IHl k v h rk r IHr]; intros Hb Hh.
  - simpl. change (2 ^ ((-1 + 2) / 2)) with 1. lia.
  - simpl in Hb, Hh. destruct Hb as (Hb & Hbl & Hbr).
    destruct Hh as (Hh & Hl & Hr).
    specialize (IHl Hbl Hl). specialize (IHr Hbr Hr).
    pose proof (height_lower l Hl) as Pl.
    pose proof (height_lower r Hr) as Pr.
    simpl GetHeight. simpl count. subst h.
    set (m := Z.max (GetHeight l) (GetHeight r)) in *.
    set (e := (1 + m) / 2).
    assert (He : 0 <= e) by (apply Z.div_pos; lia).
    replace ((1 + m + 2) / 2) with (Z.succ e).
    2:{ subst e. replace (1 + m + 2) with (1 + m + 1 * 2) by lia.
        rewrite Z.div_add by lia. lia. }
    rewrite Z.pow_succ_r by exact He.
    assert (2 ^ e <= 2 ^ ((GetHeight l + 2) / 2)).
    { apply Z.pow_le_mono_r; [lia|]. apply Z.div_le_mono; lia. }
    assert (2 ^ e <= 2 ^ ((GetHeight r + 2) / 2)).
    { apply Z.pow_le_mono_r; [lia|]. apply Z.div_le_mono; lia. }
    lia.
Qed.

(** X15. The height is logarithmic in the size: a tree satisfying the invariants
    with height [h] and [n] entries has
    [2 ^ ((h + 2) / 2) <= n + 1 <= 2 ^ (h + 1)]. *)
Theorem GetHeight_logarithmic (t : AVLRankTree) :
  invariants t ->
  2 ^ ((GetTreeHeight t + 2) / 2) <= GetSize t + 1 <= 2 ^ (GetTreeHeight t + 1).
Proof.
  intros Hinv. unfold GetTreeHeight, GetSize. rewrite (inv_size Hinv).
  split.
  - apply count_lower; apply Hinv.
  - apply count_upper; apply Hinv.
Qed.

End Height.

(** ** More on the merge constructor *)

Section MergeMore.

Context {Key Value R : Type}.
Context {comparing_func : Compare Key}.
Context {rank_ops : RankInfo Key Value R}.

Local Abbreviation Node := (Node (Key := Key) (Value := Value) (R := R)).
Local Abbreviation AVLRankTree :=
  (AVLRankTree (Key := Key) (Value := Value) (R := R)).
Local Abbreviation KeyValuePair := (KeyValuePair (Key := Key) (Value := Value)).
Local Abbreviation QueryResult := (QueryResult (Key := Key) (Value := Value)).

Lemma two_pointer_merge_perm (a b : list KeyValuePair) :
  Permutation (two_pointer_merge a b) (a ++ b).
Proof.
  revert b. induction a as [|x a IHa]; intros b.
  - rewrite two_pointer_merge_nil_l. apply Permutation_refl.
  - induction b as [|y b IHb].
    + rewrite two_pointer_merge_nil_r, app_nil_r. apply Permutation_refl.
    + rewrite two_pointer_merge_cons.
      destruct (compare (pair_key x) (pair_key y)).
      * simpl. apply perm_skip. apply IHa.
      * eapply Permutation_trans; [apply perm_skip; exact IHb|].
        apply (Permutation_middle (x :: a) b y).
      * eapply Permutation_trans; [apply perm_skip; exact IHb|].
        apply (Permutation_middle (x :: a) b y).
Qed.

(** X16. The merge constructor loses and invents nothing: the entries of the
    result are those of the two sources together, an entry as often as the
    sources hold it. *)
Theorem merge_trees_keeps_entries (first_tree second_tree : AVLRankTree) :
  size first_tree = count (root first_tree) ->
  size second_tree = count (root second_tree) ->
  exists t,
    merge_trees first_tree second_tree = Some t /\
    Permutation (inorder (root t))
                (inorder (root first_tree) ++ inorder (root second_tree)).
Proof.
  intros Hf Hs.
  destruct (merge_trees_built first_tree second_tree Hf Hs)
    as (t & Hrun & Hin & _).
  exists t. split; [exact Hrun|]. rewrite Hin. apply two_pointer_merge_perm.
Qed.

Lemma built_from_query_height (query : QueryResult) :
  total query = Z.of_nat (length (result query)) ->
  total query <> 0 ->
  exists made,
    TreeFromQuery (Z.to_nat (total query) + 1) query 0 (total query - 1) []
                  unbuilt = Some made /\
    GetHeight (fst made) = Z.log2 (total query).
Proof.
  intros Htot Hne.
  destruct (TreeFromQuery_builds query Htot (Z.to_nat (total query) + 1) 0
              (total query - 1) [] unbuilt)
    as (t & this' & Hrun & _ & _ & _ & _ & Hh & _);
    try lia.
  exists (t, this'). split; [exact Hrun|]. simpl fst. rewrite Hh.
  unfold built_height.
  replace (total query - 1 - 0 + 1) with (total query) by lia.
  destruct (total query =? 0) eqn:E; [|reflexivity].
  apply Z.eqb_eq in E. contradiction.
Qed.

(** X17. The merge constructor builds a tree of the least height its size
    allows: -1 for no entry and the binary logarithm of the size, rounded
    down, otherwise. *)
Theorem merge_trees_height (first_tree second_tree : AVLRankTree) :
  size first_tree = count (root first_tree) ->
  size second_tree = count (root second_tree) ->
  exists t,
    merge_trees first_tree second_tree = Some t /\
    GetTreeHeight t = if GetSize t =? 0 then -1 else Z.log2 (GetSize t).
Proof.
  intros Hf Hs.
  destruct (merge_trees_built first_tree second_tree Hf Hs)
    as (t & Hrun & Hin & _ & _ & Hsz & _ & _ & _).
  exists t. split; [exact Hrun|].
  unfold merge_trees in Hrun. simpl size in Hrun.
  unfold GetTreeHeight, GetSize.
  destruct (size first_tree + size second_tree =? 0) eqn:E.
  - injection Hrun as <-. simpl. rewrite E. reflexivity.
  - apply Z.eqb_neq in E.
    rewrite !Query_default in Hrun.
    rewrite MergeTwoQueries_spec in Hrun;
      [|simpl; apply count_length|simpl; apply count_length|simpl; lia].
    simpl result in Hrun. simpl total in Hrun.
    set (query := {| result := two_pointer_merge (inorder (root first_tree))
                                                 (inorder (root second_tree));
                     total := count (root first_tree)
                              + count (root second_tree) |}) in *.
    assert (Htot : total query = Z.of_nat (length (result query))).
    { subst query. simpl. rewrite two_pointer_merge_length, !count_length.
      lia. }
    assert (Hne : total query <> 0) by (subst query; simpl; lia).
    destruct (built_from_query_height query Htot Hne) as (made & Hmade & Hh).
    destruct (built_from_query query (size first_tree + size second_tree)
                Htot Hne)
      as (made' & Hmade' & Hroot & _).
    assert (made' = made) by congruence. subst made'.
    cbv beta iota in Hrun.
    change (count (root first_tree) + count (root second_tree))
      with (total query) in Hrun.
    rewrite Hmade in Hrun. injection Hrun as <-.
    rewrite Hroot, Hh. simpl size.
    replace (size first_tree + size second_tree =? 0) with false
      by (symmetry; apply Z.eqb_neq; lia).
    subst query. simpl total. rewrite Hf, Hs. reflexivity.
Qed.

End MergeMore.

Section MergeCopy.

Context {Key Value R : Type}.
Context {comparing_func : Compare Key}.
Context {rank_ops : RankInfo Key Value R}.
Context {laws : CompareLaws Key}.
Context {rank_laws : RankLaws Key Value R}.

Local Abbreviation AVLRankTree :=
  (AVLRankTree (Key := Key) (Value := Value) (R := R)).

(** X18. Merging with the empty tree copies a tree: on either side, the result
    holds the same sequence of entries, has the same [size] and satisfies
    the invariants. *)
Theorem merge_trees_with_empty (t : AVLRankTree) :
  invariants t ->
  (exists c,
     merge_trees t empty_tree = Some c /\
     inorder (root c) = inorder (root t) /\ size c = size t /\
     invariants c) /\
  (exists c,
     merge_trees empty_tree t = Some c /\
     inorder (root c) = inorder (root t) /\ size c = size t /\
     invariants c).
Proof.
  intros Hinv. pose proof (empty_tree_invariants (Key := Key)) as He.
  split.
  - destruct (merge_trees_invariants t empty_tree Hinv He)
      as (c & Hrun & Hc).
    destruct (merge_trees_built t empty_tree (inv_size Hinv) (inv_size He))
      as (c' & Hrun' & Hin & _ & _ & Hsz & _).
    assert (c' = c) by congruence. subst c'.
    exists c. split; [exact Hrun|].
    rewrite Hin, Hsz, (inv_size Hinv).
    unfold empty_tree. cbn [root inorder count].
    rewrite two_pointer_merge_nil_r.
    split; [reflexivity|]. split; [lia|exact Hc].
  - destruct (merge_trees_invariants empty_tree t He Hinv)
      as (c & Hrun & Hc).
    destruct (merge_trees_built empty_tree t (inv_size He) (inv_size Hinv))
      as (c' & Hrun' & Hin & _ & _ & Hsz & _).
    assert (c' = c) by congruence. subst c'.
    exists c. split; [exact Hrun|].
    rewrite Hin, Hsz, (inv_size Hinv).
    unfold empty_tree. cbn [root inorder count].
    rewrite two_pointer_merge_nil_l.
    split; [reflexivity|]. split; [lia|exact Hc].
Qed.

End MergeCopy.

(** ** [GetNodePosition] *)

Section Position.

Context {Key Value R : Type}.
Context {comparing_func : Compare Key}.
Context {rank_ops : RankInfo Key Value R}.
Context {laws : CompareLaws Key}.

Local Abbreviation Node := (Node (Key := Key) (Value := Value) (R := R)).

Lemma distinct_keys_node_at (p : list link) :
  forall t : Node, distinct_keys t -> distinct_keys (node_at t p).
Proof.
  induction p as [|d p IH]; intros t Hd; [exact Hd|].
  destruct t as [|l k v h rk r]; [exact Hd|].
  destruct (distinct_keys_Nd _ _ _ _ _ _ Hd) as (Hl & Hr & _).
  destruct d; simpl; apply IH; assumption.
Qed.

(** X26. On a tree in which no key occurs twice, [GetNodePosition] tells on
    which side of its parent a node hangs, and [ROOT] for the root. *)
Theorem GetNodePosition_distinct (tree : Node) (up : list link) :
  distinct_keys tree ->
  is_null (node_at tree (rev up)) = false ->
  GetNodePosition tree up = Some (position_of up).
Proof.
  intros Hd Hn. unfold GetNodePosition.
  destruct up as [|d parent].
  - destruct (node_at tree (rev [])); [discriminate|reflexivity].
  - simpl rev in *. rewrite node_at_app in *.
    pose proof (distinct_keys_node_at (rev parent) tree Hd) as Hp.
    destruct (node_at tree (rev parent)) as [|pl pk pv ph prank pr];
      [discriminate|].
    destruct (distinct_keys_Nd _ _ _ _ _ _ Hp) as (_ & _ & Hlow & Hhigh).
    destruct d; simpl node_at in *.
    + destruct pl as [|a plk b c d0 e]; [discriminate|].
      destruct pr; [reflexivity|]. rewrite compare_refl. reflexivity.
    + destruct pr as [|a prk b c d0 e]; [discriminate|].
      destruct pl as [|a' plk b' c' d' e']; [reflexivity|].
      assert (Hlt : lt_key plk prk).
      { apply (lt_le_trans plk pk prk).
        - apply Hlow. rewrite keys_Nd. apply in_or_app. right. left.
          reflexivity.
        - apply lt_key_le. apply Hhigh. rewrite keys_Nd. apply in_or_app.
          right. left. reflexivity. }
      unfold lt_key in Hlt. rewrite Hlt. reflexivity.
Qed.

End Position.

(** ** Positions: [GetIndexOfKey], [FindIndex] and [operator[]] *)

Section Positions.

Context {Key Value R : Type}.
Context {comparing_func : Compare Key}.
Context {rank_ops : RankInfo Key Value R}.
Context {laws : CompareLaws Key}.
Context {counts : RankCounts Key Value R}.

Local Abbreviation Node := (Node (Key := Key) (Value := Value) (R := R)).
Local Abbreviation AVLRankTree :=
  (AVLRankTree (Key := Key) (Value := Value) (R := R)).
Local Abbreviation KeyValuePair := (KeyValuePair (Key := Key) (Value := Value)).

Lemma filter_all (A : Type) (f : A -> bool) (l : list A) :
  (forall x, In x l -> f x = true) -> filter f l = l.
Proof.
  induction l as [|a l IH]; intros H; [reflexivity|].
  simpl. rewrite (H a) by (left; reflexivity).
  rewrite IH; [reflexivity|]. intros x Hx. apply H. right. exact Hx.
Qed.

Lemma filter_none (A : Type) (f : A -> bool) (l : list A) :
  (forall x, In x l -> f x = false) -> filter f l = [].
Proof.
  induction l as [|a l IH]; intros H; [reflexivity|].
  simpl. rewrite (H a) by (left; reflexivity).
  apply IH. intros x Hx. apply H. right. exact Hx.
Qed.

Lemma keys_below_Nd (key : Key) (l : Node) k v h rk (r : Node) :
  keys_below key (Nd l k v h rk r)
  = keys_below key l
    + (if COMPARE_RESULT_eqb (compare k key) LESS_THAN then 1 else 0)
    + keys_below key r.
Proof.
  unfold keys_below. simpl inorder. rewrite filter_app. simpl filter.
  destruct (COMPARE_RESULT_eqb (compare k key) LESS_THAN);
    rewrite length_app; simpl length; lia.
Qed.

Lemma keys_below_all (key : Key) (t : Node) :
  (forall x, In x (keys t) -> lt_key x key) -> keys_below key t = count t.
Proof.
  intros H. unfold keys_below. rewrite filter_all; [symmetry; apply count_length|].
  intros e He. rewrite (H (pair_key e)); [reflexivity|].
  apply in_inorder_keys. exact He.
Qed.

Lemma keys_below_none (key : Key) (t : Node) :
  (forall x, In x (keys t) -> le_key key x) -> keys_below key t = 0.
Proof.
  intros H. unfold keys_below. rewrite filter_none; [reflexivity|].
  intros e He. specialize (H (pair_key e) (in_inorder_keys _ _ He)).
  destruct (compare (pair_key e) key) eqn:E; try reflexivity.
  exfalso. exact (lt_key_not_le _ _ E H).
Qed.

Lemma GetIndexOfKeyTraverse_absent (t : Node) (key : Key) :
  every ordered_at t -> every rank_at t ->
  (forall x, In x (keys t) -> compare key x <> EQUAL) ->
  GetIndexOfKeyTraverse t key = keys_below key t - 1.
Proof.
  induction t as [|l IHl c cv h rk r IHr]; intros Hord Hrk Habs.
  - reflexivity.
  - pose proof (relative_rank_left _ Hrk) as Hrel. cbv beta iota in Hrel.
    simpl in Hord, Hrk.
    destruct Hord as ((Hlc & Hcr) & Hol & Hor). destruct Hrk as (_ & Hl & Hr).
    rewrite Forall_forall in Hlc, Hcr.
    assert (Hal : forall x, In x (keys l) -> compare key x <> EQUAL)
      by (intros x Hx; apply Habs; apply in_keys_Nd; auto).
    assert (Har : forall x, In x (keys r) -> compare key x <> EQUAL)
      by (intros x Hx; apply Habs; apply in_keys_Nd; auto).
    assert (Hc : compare key c <> EQUAL)
      by (apply Habs; apply in_keys_Nd; auto).
    rewrite keys_below_Nd. cbn [GetIndexOfKeyTraverse]. rewrite Hrel.
    destruct (compare key c) eqn:E; [|contradiction|].
    + rewrite (IHl Hol Hl Hal).
      assert (Ec : compare c key = GREATER_THAN) by (apply compare_antisym; exact E).
      rewrite Ec. simpl COMPARE_RESULT_eqb. cbv iota.
      rewrite (keys_below_none key r); [lia|].
      intros x Hx. apply lt_key_le.
      apply (lt_le_trans key c x); [exact E|auto].
    + apply compare_antisym in E. rewrite E. simpl COMPARE_RESULT_eqb.
      cbv iota. rewrite (IHr Hor Hr Har).
      rewrite (keys_below_all key l); [lia|].
      intros x Hx. apply (le_lt_trans x c key); [auto|exact E].
Qed.

Lemma equal_lt_l (a b c : Key) :
  compare a b = EQUAL -> lt_key c b -> lt_key c a.
Proof.
  intros E H. apply compare_equal_sym in E.
  apply (lt_le_trans c b a); [exact H|]. apply (equal_le _ _ E).
Qed.

Lemma equal_lt_r (a b c : Key) :
  compare a b = EQUAL -> lt_key b c -> lt_key a c.
Proof.
  intros E H. apply (le_lt_trans a b c); [|exact H]. apply (equal_le _ _ E).
Qed.

Lemma GetIndexOfKeyTraverse_present (t : Node) (key : Key) :
  distinct_keys t -> every rank_at t ->
  FindTraverse t key <> None ->
  GetIndexOfKeyTraverse t key = keys_below key t.
Proof.
  induction t as [|l IHl c cv h rk r IHr]; intros Hd Hrk Hfind.
  - simpl in Hfind. contradiction.
  - pose proof (relative_rank_left _ Hrk) as Hrel. cbv beta iota in Hrel.
    destruct (distinct_keys_Nd _ _ _ _ _ _ Hd) as (Hdl & Hdr & Hlow & Hhigh).
    simpl in Hrk. destruct Hrk as (_ & Hl & Hr).
    rewrite keys_below_Nd. cbn [GetIndexOfKeyTraverse]. rewrite Hrel.
    simpl in Hfind.
    destruct (compare key c) eqn:E.
    + assert (Hf : FindTraverse l key <> None)
        by (destruct (FindTraverse l key); [discriminate|contradiction]).
      rewrite (IHl Hdl Hl Hf).
      assert (Ec : compare c key = GREATER_THAN) by (apply compare_antisym; exact E).
      rewrite Ec. simpl COMPARE_RESULT_eqb. cbv iota.
      rewrite (keys_below_none key r); [lia|].
      intros x Hx. apply lt_key_le.
      apply (lt_le_trans key c x); [exact E|]. apply lt_key_le. auto.
    + rewrite (compare_equal_sym _ _ E). simpl COMPARE_RESULT_eqb. cbv iota.
      rewrite (keys_below_all key l).
      2:{ intros x Hx. apply (equal_lt_l key c x E). auto. }
      rewrite (keys_below_none key r); [lia|].
      intros x Hx. apply lt_key_le. apply (equal_lt_r key c x E). auto.
    + assert (Hf : FindTraverse r key <> None)
        by (destruct (FindTraverse r key); [discriminate|contradiction]).
      rewrite (IHr Hdr Hr Hf).
      apply compare_antisym in E. rewrite E. simpl COMPARE_RESULT_eqb.
      cbv iota.
      rewrite (keys_below_all key l); [lia|].
      intros x Hx. apply (lt_le_trans x c key); [auto|].
      apply lt_key_le. exact E.
Qed.

(** X9. What [GetIndexOfKey] counts.  For a key the tree does not hold it
    returns the number of entries with a smaller key, minus one (so -1 only
    when no entry is smaller); for a key the tree holds, on a tree in which
    no key occurs twice, it returns the number of entries with a smaller
    key. *)
Theorem GetIndexOfKey_counts_smaller (t : AVLRankTree) (key : Key) :
  invariants t ->
  match Find t key with
  | None => GetIndexOfKey t key = keys_below key (root t) - 1
  | Some _ =>
    distinct_keys (root t) -> GetIndexOfKey t key = keys_below key (root t)
  end.
Proof.
  intros Hinv. unfold GetIndexOfKey.
  destruct (Find t key) as [e|] eqn:Ef.
  - intros Hd. apply GetIndexOfKeyTraverse_present; [exact Hd|apply Hinv|].
    unfold Find in Ef. intros Hn. rewrite Hn in Ef. discriminate.
  - apply GetIndexOfKeyTraverse_absent; [apply Hinv|apply Hinv|].
    apply Find_None; [apply Hinv|exact Ef].
Qed.

Lemma FindIndex_nth (ord : Node -> Prop) (t : AVLRankTree) (i : Z) :
  invariants_with ord t ->
  0 <= i < size t ->
  exists e,
    nth_error (inorder (root t)) (Z.to_nat i) = Some e /\
    FindIndex t i = Some (Returned (Some e)).
Proof.
  intros Hinv Hi.
  pose proof (inv_rank Hinv) as Hrk. pose proof (inv_size Hinv) as Hsz.
  unfold FindIndex.
  replace ((i <? 0) || (i >=? size t)) with false
    by (symmetry; apply orb_false_iff; split; lia).
  rewrite (relative_rank_left (root t) Hrk).
  destruct (root t) as [|l k v h rk r] eqn:Hroot.
  - rewrite Hsz in Hi. simpl in Hi. lia.
  - destruct (FindIndexTraverse_spec (Nd l k v h rk r) Hrk 0 (i + 1) (count l + 1))
      as (p & e & Hf & Hp & Hnth).
    + lia.
    + simpl. lia.
    + rewrite <- Hsz. lia.
    + exists e. rewrite Hf.
      replace (i + 1 - 0 - 1) with i in Hnth by lia.
      split; [exact Hnth|]. unfold deref. rewrite Hp. reflexivity.
Qed.


(** X11. [tree[tree.GetIndexOfKey(key)]]: for a key the tree holds, the entry at
    the index [GetIndexOfKey] returns has a key that compares equal. *)
Theorem subscript_of_GetIndexOfKey (t : AVLRankTree) (key : Key) :
  invariants t ->
  (exists x, In x (keys (root t)) /\ compare key x = EQUAL) ->
  exists e,
    subscript t (GetIndexOfKey t key) = Some (Returned (Some e)) /\
    In e (inorder (root t)) /\
    compare key (pair_key e) = EQUAL.
Proof.
  intros Hinv Hpresent. unfold subscript, GetIndexOfKey.
  destruct (GetIndexOfKeyTraverse_found (root t) key (inv_rank Hinv))
    as (Hi & e & Hnth & Ee).
  { apply FindTraverse_complete; [apply Hinv|exact Hpresent]. }
  rewrite <- (inv_size Hinv) in Hi.
  destruct (FindIndex_nth _ t _ Hinv Hi) as (e' & Hnth' & Hfi).
  assert (e' = e) by congruence. subst e'.
  exists e. split; [exact Hfi|]. split; [|exact Ee].
  eapply nth_error_In. exact Hnth.
Qed.

Lemma sorted_nth_lt (ks : list Key) :
  StronglySorted lt_key ks ->
  forall i j a b,
    (i < j)%nat -> nth_error ks i = Some a -> nth_error ks j = Some b ->
    lt_key a b.
Proof.
  induction 1 as [|x ks Hs IH Hx]; intros i j a b Hij Ha Hb.
  - destruct i; discriminate.
  - destruct j as [|j]; [lia|]. simpl in Hb.
    destruct i as [|i].
    + injection Ha as <-. rewrite Forall_forall in Hx. apply Hx.
      eapply nth_error_In. exact Hb.
    + simpl in Ha. apply (IH i j); trivial. lia.
Qed.

Lemma sorted_nth_unique (ks : list Key) (i j : nat) (a b : Key) :
  StronglySorted lt_key ks ->
  nth_error ks i = Some a -> nth_error ks j = Some b ->
  compare a b = EQUAL -> i = j.
Proof.
  intros Hs Ha Hb E.
  destruct (Nat.lt_trichotomy i j) as [H|[H|H]]; [|exact H|]; exfalso.
  - pose proof (sorted_nth_lt ks Hs i j a b H Ha Hb) as Hlt.
    unfold lt_key in Hlt. congruence.
  - pose proof (sorted_nth_lt ks Hs j i b a H Hb Ha) as Hlt.
    apply compare_equal_sym in E. unfold lt_key in Hlt. congruence.
Qed.

(** X12. [GetIndexOfKey] inverts [FindIndex]: on a tree in which no key occurs
    twice, the key of the entry at a valid index has that index. *)
Theorem GetIndexOfKey_of_FindIndex (t : AVLRankTree) (i : Z) :
  invariants t -> distinct_keys (root t) ->
  0 <= i < size t ->
  exists e,
    FindIndex t i = Some (Returned (Some e)) /\
    GetIndexOfKey t (pair_key e) = i.
Proof.
  intros Hinv Hd Hi.
  destruct (FindIndex_nth _ t i Hinv Hi) as (e & Hnth & Hfi).
  exists e. split; [exact Hfi|]. unfold GetIndexOfKey.
  destruct (GetIndexOfKeyTraverse_found (root t) (pair_key e) (inv_rank Hinv))
    as (Hj & e' & Hnth' & Ee).
  { apply FindTraverse_complete; [apply Hinv|].
    exists (pair_key e). split; [|apply compare_refl].
    apply in_inorder_keys. eapply nth_error_In. exact Hnth. }
  assert (Hij : Z.to_nat i
                = Z.to_nat (GetIndexOfKeyTraverse (root t) (pair_key e))).
  { apply (sorted_nth_unique (keys (root t)) _ _ (pair_key e) (pair_key e') Hd);
      trivial; unfold keys; apply map_nth_error; assumption. }
  lia.
Qed.

End Positions.

(** ** The filtered query *)

Section Filtering.

Context {Key Value R : Type}.
Context {comparing_func : Compare Key}.
Context {rank_ops : RankInfo Key Value R}.
Context {laws : CompareLaws Key}.

Local Abbreviation Node := (Node (Key := Key) (Value := Value) (R := R)).
Local Abbreviation AVLRankTree :=
  (AVLRankTree (Key := Key) (Value := Value) (R := R)).
Local Abbreviation KeyValuePair := (KeyValuePair (Key := Key) (Value := Value)).
Local Abbreviation QueryResult := (QueryResult (Key := Key) (Value := Value)).
Local Abbreviation FilterObject :=
  (FilterObject (Key := Key) (Value := Value)).

Lemma advance_nil (q : QueryResult) : advance q [] = q.
Proof.
  destruct q as [res tot]. unfold advance. simpl.
  rewrite app_nil_r. f_equal. lia.
Qed.

Lemma advance_app (q : QueryResult) (a b : list KeyValuePair) :
  advance (advance q a) b = advance q (a ++ b).
Proof.
  unfold advance. simpl. rewrite app_assoc, length_app. f_equal. lia.
Qed.

Lemma room_nil (f : FilterObject) (q : QueryResult) : room f q [] = [].
Proof. unfold room. destruct (limit f <=? -1); [|rewrite firstn_nil]; reflexivity. Qed.

Lemma room_app (f : FilterObject) (q : QueryResult) (a b : list KeyValuePair) :
  room f q (a ++ b) = room f q a ++ room f (advance q (room f q a)) b.
Proof.
  unfold room. destruct (limit f <=? -1) eqn:E; [reflexivity|].
  rewrite firstn_app. f_equal. f_equal. simpl total.
  rewrite length_firstn. lia.
Qed.

Lemma room_full (f : FilterObject) (q : QueryResult) (l : list KeyValuePair) :
  limit_reached f q = true -> room f q l = [].
Proof.
  unfold limit_reached, room. intros H. apply andb_prop in H.
  destruct H as (H1 & H2).
  replace (limit f <=? -1) with false by (symmetry; apply Z.leb_gt; lia).
  replace (Z.to_nat (limit f - total q)) with O by lia. reflexivity.
Qed.

Lemma room_one (f : FilterObject) (q : QueryResult) (e : KeyValuePair) :
  room f q [e]
  = if (limit f <=? -1) || (limit f >? total q) then [e] else [].
Proof.
  unfold room. destruct (limit f <=? -1) eqn:E; [reflexivity|].
  simpl orb. destruct (limit f >? total q) eqn:G.
  - replace (Z.to_nat (limit f - total q))
      with (S (Z.to_nat (limit f - total q - 1))) by lia.
    simpl. rewrite firstn_nil. reflexivity.
  - replace (Z.to_nat (limit f - total q)) with O by lia. reflexivity.
Qed.

Lemma selected_Nd (f : FilterObject) (l : Node) k v h rk (r : Node) :
  selected f (Nd l k v h rk r)
  = selected f l
    ++ (if selects f {| pair_key := k; pair_value := v |}
        then [{| pair_key := k; pair_value := v |}] else [])
    ++ selected f r.
Proof.
  unfold selected. simpl inorder. rewrite filter_app. simpl filter.
  destruct (selects f _); reflexivity.
Qed.

Lemma selects_below_min (f : FilterObject) (m : Key) (e : KeyValuePair) :
  min_range f = Some m -> lt_key (pair_key e) m -> selects f e = false.
Proof.
  intros Hm Hlt. unfold selects. rewrite Hm, Hlt. reflexivity.
Qed.

Lemma selects_above_max (f : FilterObject) (m : Key) (e : KeyValuePair) :
  max_range f = Some m -> compare (pair_key e) m = GREATER_THAN ->
  selects f e = false.
Proof.
  intros Hm Hgt. unfold selects. rewrite Hm, Hgt. simpl.
  rewrite andb_false_r. reflexivity.
Qed.

Lemma QueryTraverse_selected (f : FilterObject) (t : Node) :
  every ordered_at t ->
  forall q, QueryTraverse t q f = advance q (room f q (selected f t)).
Proof.
  induction t as [|l IHl k v h rk r IHr]; intros Hord q.
  - unfold selected. simpl. rewrite room_nil, advance_nil. reflexivity.
  - simpl in Hord. destruct Hord as ((Hlk & Hkr) & Hl & Hr).
    rewrite Forall_forall in Hlk, Hkr.
    cbn [QueryTraverse].
    destruct (limit_reached f q) eqn:Efull.
    { rewrite room_full by exact Efull. rewrite advance_nil. reflexivity. }
    rewrite selected_Nd.
    match goal with
    | |- (if ?b then _ else _) = _ => destruct b eqn:Ebelow
    end.
    { (* the node is below the range: only the right subtree is visited *)
      destruct (min_range f) as [lo|] eqn:Emin; [|discriminate].
      assert (Hk : lt_key k lo)
        by (unfold lt_key; destruct (compare k lo); trivial; discriminate).
      rewrite (IHr Hr).
      unfold selected at 2. rewrite filter_none.
      2:{ intros e He. apply (selects_below_min f lo e Emin).
          apply (le_lt_trans _ k); [|exact Hk].
          apply Hlk. apply in_inorder_keys. exact He. }
      rewrite (selects_below_min f lo _ Emin) by exact Hk.
      reflexivity. }
    match goal with
    | |- (if ?b then _ else _) = _ => destruct b eqn:Eabove
    end.
    { (* the node is above the range: only the left subtree is visited *)
      destruct (max_range f) as [hi|] eqn:Emax; [|discriminate].
      assert (Hk : compare k hi = GREATER_THAN)
        by (destruct (compare k hi); trivial; discriminate).
      rewrite (IHl Hl).
      unfold selected at 3. rewrite filter_none.
      2:{ intros e He. apply (selects_above_max f hi e Emax).
          apply compare_antisym. apply compare_antisym in Hk.
          apply (lt_le_trans hi k); [exact Hk|].
          apply Hkr. apply in_inorder_keys. exact He. }
      rewrite (selects_above_max f hi _ Emax) by exact Hk.
      rewrite !app_nil_r. reflexivity. }
    (* the node is inside the range *)
    assert (Hsel : selects f {| pair_key := k; pair_value := v |}
                   = match FilterFunction f with
                     | None => true
                     | Some g => g k v
                     end).
    { unfold selects. simpl pair_key. simpl pair_value.
      destruct (min_range f), (max_range f); rewrite ?Ebelow, ?Eabove;
        reflexivity. }
    rewrite (IHl Hl), room_app. rewrite room_app.
    rewrite <- !advance_app.
    set (q1 := advance q (room f q (selected f l))).
    rewrite Hsel.
    destruct (match FilterFunction f with
              | None => true | Some g => g k v end).
    + rewrite room_one.
      destruct ((limit f <=? -1) || (limit f >? total q1));
        rewrite (IHr Hr); [reflexivity|].
      rewrite advance_nil. reflexivity.
    + rewrite room_nil, advance_nil.
      destruct ((limit f <=? -1) || (limit f >? total q1));
        rewrite (IHr Hr); reflexivity.
Qed.

(** X19. [Query] with a filter, on ordered keys: the entries inside the
    inclusive range that the predicate accepts, in ascending order, cut to
    the first [limit] of them when the limit is 0 or more; [total] is their
    number.  [reverse] plays no part. *)
Theorem Query_selected (t : AVLRankTree) (f : FilterObject) :
  every ordered_at (root t) ->
  result (Query t f) = limited f (selected f (root t)) /\
  total (Query t f) = Z.of_nat (length (result (Query t f))).
Proof.
  intros Hord. unfold Query. rewrite QueryTraverse_selected by exact Hord.
  unfold advance. simpl result. simpl total.
  unfold room, limited. simpl total. rewrite Z.sub_0_r. split; [reflexivity|].
  lia.
Qed.

End Filtering.

(** ** The range aggregate on trees without repeated keys *)

Section RangeAggregate.

Context {Key Value R : Type}.
Context {comparing_func : Compare Key}.
Context {rank_ops : RankInfo Key Value R}.
Context {laws : CompareLaws Key}.
Context {rank_laws : RankLaws Key Value R}.
Context {rank_inverse : RankInverse Key Value R}.

Local Abbreviation Node := (Node (Key := Key) (Value := Value) (R := R)).
Local Abbreviation AVLRankTree :=
  (AVLRankTree (Key := Key) (Value := Value) (R := R)).
Local Abbreviation KeyValuePair := (KeyValuePair (Key := Key) (Value := Value)).
Local Abbreviation FilterObject :=
  (FilterObject (Key := Key) (Value := Value)).

Lemma every_node_at (P : Node -> Prop) (p : list link) :
  forall t : Node, every P t -> every P (node_at t p).
Proof.
  induction p as [|d p IH]; intros t H; [exact H|].
  destruct t as [|l k v h rk r]; [exact H|].
  simpl in H. destruct H as (_ & Hl & Hr).
  destruct d; simpl; apply IH; assumption.
Qed.

Lemma every_here (P : Node -> Prop) (l : Node) k v h rk (r : Node) :
  every P (Nd l k v h rk r) -> P (Nd l k v h rk r).
Proof. simpl. intros (H & _). exact H. Qed.

Lemma not_above_true (hi : Key) (e : KeyValuePair) :
  le_key (pair_key e) hi -> not_above hi e = true.
Proof.
  unfold not_above, le_key. destruct (compare (pair_key e) hi); trivial.
  intros H. contradiction.
Qed.

Lemma not_above_false (hi : Key) (e : KeyValuePair) :
  lt_key hi (pair_key e) -> not_above hi e = false.
Proof.
  unfold not_above. intros H. apply compare_antisym in H. rewrite H.
  reflexivity.
Qed.

Lemma not_below_true (lo : Key) (e : KeyValuePair) :
  le_key lo (pair_key e) -> not_below lo e = true.
Proof.
  unfold not_below. intros H.
  destruct (compare (pair_key e) lo) eqn:E; trivial.
  exfalso. exact (lt_key_not_le _ _ E H).
Qed.

Lemma not_below_false (lo : Key) (e : KeyValuePair) :
  lt_key (pair_key e) lo -> not_below lo e = false.
Proof. unfold not_below. intros H. rewrite H. reflexivity. Qed.

Lemma in_inorder_lt_l (t : Node) (c : Key) (e : KeyValuePair) :
  (forall x, In x (keys t) -> lt_key x c) ->
  In e (inorder t) -> lt_key (pair_key e) c.
Proof. intros H He. apply H. apply in_inorder_keys. exact He. Qed.

Lemma in_inorder_lt_r (t : Node) (c : Key) (e : KeyValuePair) :
  (forall x, In x (keys t) -> lt_key c x) ->
  In e (inorder t) -> lt_key c (pair_key e).
Proof. intros H He. apply H. apply in_inorder_keys. exact He. Qed.

(** The entries of a node that are not above a bound, by the side of the
    bound the key of the node is on. *)
Lemma filter_not_above_Nd (K : Key) (l : Node) k v h rk (r : Node) :
  distinct_keys (Nd l k v h rk r) ->
  filter (not_above K) (inorder (Nd l k v h rk r))
  = match compare k K with
    | GREATER_THAN => filter (not_above K) (inorder l)
    | EQUAL => inorder l ++ [{| pair_key := k; pair_value := v |}]
    | LESS_THAN =>
      inorder l ++ {| pair_key := k; pair_value := v |}
                :: filter (not_above K) (inorder r)
    end.
Proof.
  intros Hd.
  destruct (distinct_keys_Nd _ _ _ _ _ _ Hd) as (_ & _ & Hlow & Hhigh).
  simpl inorder. rewrite filter_app. simpl filter.
  unfold not_above at 2. simpl pair_key.
  destruct (compare k K) eqn:E; simpl negb; cbv iota.
  - rewrite (filter_all _ _ (inorder l)); [reflexivity|].
    intros e He. apply not_above_true. apply lt_key_le.
    apply (lt_le_trans _ k); [|apply lt_key_le; exact E].
    eapply in_inorder_lt_l; eassumption.
  - rewrite (filter_all _ _ (inorder l)).
    2:{ intros e He. apply not_above_true. apply lt_key_le.
        apply (lt_le_trans _ k); [|apply (equal_le _ _ E)].
        eapply in_inorder_lt_l; eassumption. }
    rewrite (filter_none _ _ (inorder r)); [reflexivity|].
    intros e He. apply not_above_false.
    apply (le_lt_trans _ k); [apply (equal_le _ _ (compare_equal_sym _ _ E))|].
    eapply in_inorder_lt_r; eassumption.
  - rewrite (filter_none _ _ (inorder r)); [rewrite app_nil_r; reflexivity|].
    intros e He. apply not_above_false. apply compare_antisym in E.
    apply (lt_le_trans _ k); [exact E|]. apply lt_key_le.
    eapply in_inorder_lt_r; eassumption.
Qed.

Lemma filter_not_below_Nd (K : Key) (l : Node) k v h rk (r : Node) :
  distinct_keys (Nd l k v h rk r) ->
  filter (not_below K) (inorder (Nd l k v h rk r))
  = match compare k K with
    | LESS_THAN => filter (not_below K) (inorder r)
    | EQUAL => {| pair_key := k; pair_value := v |} :: inorder r
    | GREATER_THAN =>
      filter (not_below K) (inorder l)
      ++ {| pair_key := k; pair_value := v |} :: inorder r
    end.
Proof.
  intros Hd.
  destruct (distinct_keys_Nd _ _ _ _ _ _ Hd) as (_ & _ & Hlow & Hhigh).
  simpl inorder. rewrite filter_app. simpl filter.
  unfold not_below at 2. simpl pair_key.
  destruct (compare k K) eqn:E; simpl negb; cbv iota.
  - rewrite (filter_none _ _ (inorder l)); [reflexivity|].
    intros e He. apply not_below_false.
    apply (lt_le_trans _ k); [|apply lt_key_le; exact E].
    eapply in_inorder_lt_l; eassumption.
  - rewrite (filter_none _ _ (inorder l)).
    2:{ intros e He. apply not_below_false.
        apply (lt_le_trans _ k); [|apply (equal_le _ _ E)].
        eapply in_inorder_lt_l; eassumption. }
    rewrite (filter_all _ _ (inorder r)); [reflexivity|].
    intros e He. apply not_below_true. apply lt_key_le.
    apply (le_lt_trans _ k); [apply (equal_le _ _ (compare_equal_sym _ _ E))|].
    eapply in_inorder_lt_r; eassumption.
  - rewrite (filter_all _ _ (inorder r)); [reflexivity|].
    intros e He. apply not_below_true. apply lt_key_le.
    apply compare_antisym in E.
    apply (lt_le_trans _ k); [exact E|]. apply lt_key_le.
    eapply in_inorder_lt_r; eassumption.
Qed.

(** One step of the climb at a node that is not the common ancestor. *)
Lemma climb_visit (tree mlc rel : Node) (up : list link) (acc : R)
      (dir : NODE_POSITION) (mce rle : KeyValuePair)
      (l : Node) k v h rk (r : Node) :
  pair_of mlc = Some mce -> pair_of rel = Some rle ->
  node_at tree (rev up) = Nd l k v h rk r ->
  compare (pair_key mce) k <> EQUAL ->
  rank_at (Nd l k v h rk r) ->
  CollectRankTraverse tree mlc up rel acc dir
  = match up with
    | [] => None
    | _ :: parent =>
      CollectRankTraverse tree mlc parent rel
        (if NODE_POSITION_eqb dir RIGHT_CHILD
         then if COMPARE_RESULT_eqb (compare k (pair_key rle)) LESS_THAN
              then acc
              else rank_add acc (rank_add (rank_of k v) (GetRank r))
         else if COMPARE_RESULT_eqb (compare k (pair_key rle)) GREATER_THAN
              then acc
              else rank_add acc (rank_add (rank_of k v) (GetRank l)))
        dir
    end.
Proof.
  intros Hm Hr Hnode Hck Hrk.
  destruct mlc as [|ml c cv ch crk mr]; [discriminate|].
  simpl in Hm. injection Hm as <-.
  destruct rel as [|rl rk0 rv rh rrk rr]; [discriminate|].
  simpl in Hr. injection Hr as <-.
  simpl pair_key in *.
  destruct up as [|d parent]; cbn [CollectRankTraverse]; rewrite Hnode;
    (destruct (compare c k) eqn:E; [|exfalso; apply Hck; reflexivity|]);
    simpl COMPARE_RESULT_eqb; cbv iota; try reflexivity;
    destruct (NODE_POSITION_eqb dir RIGHT_CHILD);
    try (destruct (COMPARE_RESULT_eqb (compare k rk0) LESS_THAN);
         [reflexivity|];
         rewrite (relative_RIGHT _ _ _ _ _ _ _ Hrk); reflexivity);
    destruct (COMPARE_RESULT_eqb (compare k rk0) GREATER_THAN);
    try reflexivity;
    rewrite (relative_LEFT _ _ _ _ _ _ _ Hrk); reflexivity.
Qed.

(** The climb ends at the common ancestor. *)
Lemma climb_stops (tree mlc rel : Node) (up : list link) (acc : R)
      (dir : NODE_POSITION) (mce : KeyValuePair)
      (l : Node) k v h rk (r : Node) :
  pair_of mlc = Some mce ->
  node_at tree (rev up) = Nd l k v h rk r ->
  compare (pair_key mce) k = EQUAL ->
  CollectRankTraverse tree mlc up rel acc dir = Some acc.
Proof.
  intros Hm Hnode Hck.
  destruct mlc as [|ml c cv ch crk mr]; [discriminate|].
  simpl in Hm. injection Hm as <-. simpl pair_key in *.
  destruct up as [|d parent]; cbn [CollectRankTraverse]; rewrite Hnode, Hck;
    reflexivity.
Qed.

Lemma reduce_one (k : Key) (v : Value) :
  reduce_contributions [{| pair_key := k; pair_value := v |}] = rank_of k v.
Proof.
  rewrite reduce_contributions_cons. simpl.
  unfold reduce_contributions. simpl. apply rank_add_new.
Qed.

Lemma reduce_nil : reduce_contributions ([] : list KeyValuePair) = rank_new.
Proof. reflexivity. Qed.

(** Climbing with [LEFT_CHILD] from a node [rel] inside a subtree [s] that
    hangs below the common ancestor collects the entries of [s] that are
    not above the key of [rel], and goes on at the parent of [s]. *)
Lemma climb_collects_low (tree mlc rel : Node) (mce rle : KeyValuePair) :
  pair_of mlc = Some mce -> pair_of rel = Some rle ->
  forall (p : list link) (s : Node) (up_s : list link) (acc : R),
    distinct_keys s -> every rank_at s ->
    (forall x, In x (keys s) -> compare (pair_key mce) x <> EQUAL) ->
    node_at tree (rev up_s) = s ->
    node_at s p = rel ->
    CollectRankTraverse tree mlc (rev p ++ up_s) rel acc LEFT_CHILD
    = match up_s with
      | [] => None
      | _ :: parent =>
        CollectRankTraverse tree mlc parent rel
          (rank_add acc
             (reduce_contributions
                (filter (not_above (pair_key rle)) (inorder s))))
          LEFT_CHILD
      end.
Proof.
  intros Hm Hr.
  destruct rel as [|rl K rv rh rrk rr]; [discriminate|].
  simpl in Hr. injection Hr as <-. simpl pair_key.
  set (rel := Nd rl K rv rh rrk rr).
  set (rle := {| pair_key := K; pair_value := rv |}).
  induction p as [|d p IH]; intros s up_s acc Hd Hrk Hne Hat Hp.
  - simpl in Hp. rewrite Hp in Hd, Hrk, Hne, Hat |- *. clear Hp s.
    simpl app.
    rewrite (climb_visit tree mlc rel up_s acc LEFT_CHILD mce rle
               rl K rv rh rrk rr);
      trivial.
    2:{ apply Hne. apply in_keys_Nd. auto. }
    2:{ apply (every_here _ _ _ _ _ _ _ Hrk). }
    simpl NODE_POSITION_eqb. cbv iota. simpl pair_key.
    rewrite (compare_refl K). simpl COMPARE_RESULT_eqb. cbv iota.
    destruct up_s as [|d parent]; [reflexivity|]. f_equal. f_equal.
    unfold rel.
    rewrite (filter_not_above_Nd K rl K rv rh rrk rr Hd), (compare_refl K).
    rewrite reduce_contributions_app, reduce_one.
    simpl in Hrk. destruct Hrk as (_ & Hl & _).
    rewrite (GetRank_reduce rl Hl). apply rank_add_comm.
  - destruct s as [|l k v h rk r].
    { rewrite node_at_NULL in Hp. discriminate. }
    destruct (distinct_keys_Nd _ _ _ _ _ _ Hd) as (Hdl & Hdr & Hlow & Hhigh).
    pose proof Hrk as Hrk'. simpl in Hrk'. destruct Hrk' as (Hrk0 & Hl & Hr').
    simpl rev. rewrite <- app_assoc. simpl app.
    assert (Hck : compare (pair_key mce) k <> EQUAL)
      by (apply Hne; apply in_keys_Nd; auto).
    destruct d; simpl node_at in Hp.
    + (* [rel] is in the left subtree: the node is above it and is skipped *)
      rewrite (IH l (to_left :: up_s) acc); trivial.
      2:{ intros x Hx. apply Hne. apply in_keys_Nd. auto. }
      2:{ simpl rev. rewrite node_at_app, Hat. reflexivity. }
      rewrite (climb_visit tree mlc rel up_s _ LEFT_CHILD mce rle l k v h rk r);
        trivial.
      simpl NODE_POSITION_eqb. cbv iota. simpl pair_key.
      assert (Hlt : lt_key K k)
        by (apply Hlow; eapply node_at_key_in; exact Hp).
      apply compare_antisym in Hlt. rewrite Hlt.
      simpl COMPARE_RESULT_eqb. cbv iota.
      destruct up_s as [|d parent]; [reflexivity|]. f_equal. f_equal.
      rewrite (filter_not_above_Nd _ l k v h rk r Hd), Hlt. reflexivity.
    + (* [rel] is in the right subtree: the node and its left subtree are
         collected *)
      rewrite (IH r (to_right :: up_s) acc); trivial.
      2:{ intros x Hx. apply Hne. apply in_keys_Nd. auto. }
      2:{ simpl rev. rewrite node_at_app, Hat. reflexivity. }
      rewrite (climb_visit tree mlc rel up_s _ LEFT_CHILD mce rle l k v h rk r);
        trivial.
      simpl NODE_POSITION_eqb. cbv iota. simpl pair_key.
      assert (Hlt : lt_key k K)
        by (apply Hhigh; eapply node_at_key_in; exact Hp).
      unfold lt_key in Hlt. rewrite Hlt.
      simpl COMPARE_RESULT_eqb. cbv iota.
      destruct up_s as [|d parent]; [reflexivity|]. f_equal.
      rewrite (filter_not_above_Nd _ l k v h rk r Hd), Hlt.
      rewrite reduce_contributions_app, reduce_contributions_cons.
      simpl pair_key. simpl pair_value.
      rewrite (GetRank_reduce l Hl).
      set (X := reduce_contributions (filter _ (inorder r))).
      set (Lr := reduce_contributions (inorder l)).
      rewrite <- !rank_add_assoc. f_equal.
      rewrite (rank_add_comm X), <- rank_add_assoc.
      rewrite (rank_add_comm (rank_of k v)), <- rank_add_assoc.
      f_equal. apply rank_add_comm.
Qed.

(** Climbing with [RIGHT_CHILD] collects the entries of [s] that are not
    below the key of [rel]. *)
Lemma climb_collects_high (tree mlc rel : Node) (mce rle : KeyValuePair) :
  pair_of mlc = Some mce -> pair_of rel = Some rle ->
  forall (p : list link) (s : Node) (up_s : list link) (acc : R),
    distinct_keys s -> every rank_at s ->
    (forall x, In x (keys s) -> compare (pair_key mce) x <> EQUAL) ->
    node_at tree (rev up_s) = s ->
    node_at s p = rel ->
    CollectRankTraverse tree mlc (rev p ++ up_s) rel acc RIGHT_CHILD
    = match up_s with
      | [] => None
      | _ :: parent =>
        CollectRankTraverse tree mlc parent rel
          (rank_add acc
             (reduce_contributions
                (filter (not_below (pair_key rle)) (inorder s))))
          RIGHT_CHILD
      end.
Proof.
  intros Hm Hr.
  destruct rel as [|rl K rv rh rrk rr]; [discriminate|].
  simpl in Hr. injection Hr as <-. simpl pair_key.
  set (rel := Nd rl K rv rh rrk rr).
  set (rle := {| pair_key := K; pair_value := rv |}).
  induction p as [|d p IH]; intros s up_s acc Hd Hrk Hne Hat Hp.
  - simpl in Hp. rewrite Hp in Hd, Hrk, Hne, Hat |- *. clear Hp s.
    simpl app.
    rewrite (climb_visit tree mlc rel up_s acc RIGHT_CHILD mce rle
               rl K rv rh rrk rr);
      trivial.
    2:{ apply Hne. apply in_keys_Nd. auto. }
    2:{ apply (every_here _ _ _ _ _ _ _ Hrk). }
    simpl NODE_POSITION_eqb. cbv iota. simpl pair_key.
    rewrite (compare_refl K). simpl COMPARE_RESULT_eqb. cbv iota.
    destruct up_s as [|d parent]; [reflexivity|]. f_equal. f_equal.
    unfold rel.
    rewrite (filter_not_below_Nd K rl K rv rh rrk rr Hd), (compare_refl K).
    rewrite reduce_contributions_cons.
    simpl in Hrk. destruct Hrk as (_ & _ & Hrr).
    rewrite (GetRank_reduce rr Hrr). reflexivity.
  - destruct s as [|l k v h rk r].
    { rewrite node_at_NULL in Hp. discriminate. }
    destruct (distinct_keys_Nd _ _ _ _ _ _ Hd) as (Hdl & Hdr & Hlow & Hhigh).
    pose proof Hrk as Hrk'. simpl in Hrk'. destruct Hrk' as (Hrk0 & Hl & Hr').
    simpl rev. rewrite <- app_assoc. simpl app.
    assert (Hck : compare (pair_key mce) k <> EQUAL)
      by (apply Hne; apply in_keys_Nd; auto).
    destruct d; simpl node_at in Hp.
    + (* [rel] is in the left subtree: the node and its right subtree are
         collected *)
      rewrite (IH l (to_left :: up_s) acc); trivial.
      2:{ intros x Hx. apply Hne. apply in_keys_Nd. auto. }
      2:{ simpl rev. rewrite node_at_app, Hat. reflexivity. }
      rewrite (climb_visit tree mlc rel up_s _ RIGHT_CHILD mce rle l k v h rk r);
        trivial.
      simpl NODE_POSITION_eqb. cbv iota. simpl pair_key.
      assert (Hlt : lt_key K k)
        by (apply Hlow; eapply node_at_key_in; exact Hp).
      apply compare_antisym in Hlt. rewrite Hlt.
      simpl COMPARE_RESULT_eqb. cbv iota.
      destruct up_s as [|d parent]; [reflexivity|]. f_equal.
      rewrite (filter_not_below_Nd _ l k v h rk r Hd), Hlt.
      rewrite reduce_contributions_app, reduce_contributions_cons.
      simpl pair_key. simpl pair_value.
      rewrite (GetRank_reduce r Hr'). rewrite <- !rank_add_assoc.
      reflexivity.
    + (* [rel] is in the right subtree: the node is below it and is
         skipped *)
      rewrite (IH r (to_right :: up_s) acc); trivial.
      2:{ intros x Hx. apply Hne. apply in_keys_Nd. auto. }
      2:{ simpl rev. rewrite node_at_app, Hat. reflexivity. }
      rewrite (climb_visit tree mlc rel up_s _ RIGHT_CHILD mce rle l k v h rk r);
        trivial.
      simpl NODE_POSITION_eqb. cbv iota. simpl pair_key.
      assert (Hlt : lt_key k K)
        by (apply Hhigh; eapply node_at_key_in; exact Hp).
      unfold lt_key in Hlt. rewrite Hlt.
      simpl COMPARE_RESULT_eqb. cbv iota.
      destruct up_s as [|d parent]; [reflexivity|]. f_equal. f_equal.
      rewrite (filter_not_below_Nd _ l k v h rk r Hd), Hlt. reflexivity.
Qed.

(** Where a key sits below a node of a tree without repeated keys. *)
Lemma locate (l : Node) k v h rk (r : Node) (p : list link)
      (a : Node) K b c d (g : Node) :
  distinct_keys (Nd l k v h rk r) ->
  node_at (Nd l k v h rk r) p = Nd a K b c d g ->
  match compare K k with
  | EQUAL => p = []
  | LESS_THAN => exists p', p = to_left :: p' /\ node_at l p' = Nd a K b c d g
  | GREATER_THAN =>
    exists p', p = to_right :: p' /\ node_at r p' = Nd a K b c d g
  end.
Proof.
  intros Hd Hp.
  destruct (distinct_keys_Nd _ _ _ _ _ _ Hd) as (_ & _ & Hlow & Hhigh).
  destruct p as [|[] p']; simpl in Hp.
  - injection Hp as _ -> _ _ _ _. rewrite compare_refl. reflexivity.
  - assert (Hlt : lt_key K k)
      by (apply Hlow; eapply node_at_key_in; exact Hp).
    unfold lt_key in Hlt. rewrite Hlt. eauto.
  - assert (Hlt : lt_key k K)
      by (apply Hhigh; eapply node_at_key_in; exact Hp).
    apply compare_antisym in Hlt. rewrite Hlt. eauto.
Qed.

Lemma between_Nd (lo hi : Key) (l : Node) k v h rk (r : Node) :
  filter (between lo hi) (inorder (Nd l k v h rk r))
  = filter (between lo hi) (inorder l)
    ++ (if between lo hi {| pair_key := k; pair_value := v |}
        then [{| pair_key := k; pair_value := v |}] else [])
    ++ filter (between lo hi) (inorder r).
Proof.
  simpl inorder. rewrite filter_app. simpl filter.
  destruct (between lo hi _); reflexivity.
Qed.

Lemma common_node_cases (k kmin kmax : Key) :
  lt_key kmin kmax ->
  (compare k kmin = GREATER_THAN /\ compare k kmax = GREATER_THAN) \/
  (compare k kmin = LESS_THAN /\ compare k kmax = LESS_THAN) \/
  (le_key kmin k /\ le_key k kmax /\
   COMPARE_RESULT_eqb (compare k kmin) GREATER_THAN
   && COMPARE_RESULT_eqb (compare k kmax) GREATER_THAN = false /\
   COMPARE_RESULT_eqb (compare k kmin) LESS_THAN
   && COMPARE_RESULT_eqb (compare k kmax) LESS_THAN = false).
Proof.
  intros Hlt.
  destruct (compare k kmin) eqn:E1.
  - right. left. split; [reflexivity|].
    apply (lt_le_trans k kmin kmax); [exact E1|apply lt_key_le; exact Hlt].
  - destruct (compare k kmax) eqn:E2.
    + right. right. repeat split; simpl; try reflexivity.
      * apply (equal_le _ _ E1).
      * apply lt_key_le. exact E2.
    + exfalso. apply (lt_key_not_le _ _ Hlt).
      apply (le_key_trans kmax k kmin);
        [apply (equal_le _ _ E2)|apply (equal_le _ _ E1)].
    + exfalso. apply compare_antisym in E2.
      apply (lt_key_not_le _ _ Hlt).
      apply (le_key_trans kmax k kmin);
        [apply lt_key_le; exact E2|apply (equal_le _ _ E1)].
  - assert (Hmin : le_key kmin k).
    { apply compare_antisym in E1. apply lt_key_le. exact E1. }
    destruct (compare k kmax) eqn:E2.
    + right. right. repeat split; simpl; try reflexivity; trivial.
      apply lt_key_le. exact E2.
    + right. right. repeat split; simpl; try reflexivity; trivial.
      apply (equal_le _ _ E2).
    + left. split; reflexivity.
Qed.

(** From the search for the common ancestor on: the ancestor is found, the
    two climbs and the contribution of the ancestor add up to the entries
    between the two boundary keys. *)
Lemma descend_collect (tree min_n max_n : Node) (mine maxe : KeyValuePair)
      (pmin pmax : list link) (acc : R) :
  distinct_keys tree -> every rank_at tree ->
  pair_of min_n = Some mine -> pair_of max_n = Some maxe ->
  lt_key (pair_key mine) (pair_key maxe) ->
  forall (s : Node) (q pmin0 pmax0 : list link),
    node_at tree q = s ->
    pmin = q ++ pmin0 -> pmax = q ++ pmax0 ->
    node_at s pmin0 = min_n -> node_at s pmax0 = max_n ->
    exists q0,
      GetMostLowerCommonNode s min_n max_n = Some (Some q0) /\
      (rank <- CollectRankTraverse tree (node_at tree (q ++ q0)) (rev pmax)
                                   max_n acc LEFT_CHILD ;;
       rank <- CollectRankTraverse tree (node_at tree (q ++ q0)) (rev pmin)
                                   min_n rank RIGHT_CHILD ;;
       Some (rank_add rank
                      (GetRelativeRank rank_new (node_at tree (q ++ q0)) ROOT)))
      = Some (rank_add acc
                (reduce_contributions
                   (filter (between (pair_key mine) (pair_key maxe))
                           (inorder s)))).
Proof.
  intros Hd Hrk Hmin Hmax Hlt.
  destruct min_n as [|a1 kmin v1 h1 r1 b1]; [discriminate|].
  simpl in Hmin. injection Hmin as <-.
  destruct max_n as [|a2 kmax v2 h2 r2 b2]; [discriminate|].
  simpl in Hmax. injection Hmax as <-.
  simpl pair_key in *.
  set (min_n := Nd a1 kmin v1 h1 r1 b1).
  set (max_n := Nd a2 kmax v2 h2 r2 b2).
  induction s as [|l IHl k v h rk r IHr];
    intros q pmin0 pmax0 Hq Hpmin Hpmax Hnmin Hnmax.
  { rewrite node_at_NULL in Hnmin. discriminate. }
  pose proof (distinct_keys_node_at q tree Hd) as Hds. rewrite Hq in Hds.
  pose proof (every_node_at rank_at q tree Hrk) as Hrks. rewrite Hq in Hrks.
  destruct (distinct_keys_Nd _ _ _ _ _ _ Hds) as (Hdl & Hdr & Hlow & Hhigh).
  pose proof (locate _ _ _ _ _ _ _ _ _ _ _ _ _ Hds Hnmin) as Lmin.
  pose proof (locate _ _ _ _ _ _ _ _ _ _ _ _ _ Hds Hnmax) as Lmax.
  cbn [GetMostLowerCommonNode]. unfold min_n at 1, max_n at 1.
  destruct (common_node_cases k kmin kmax Hlt)
    as [(E1 & E2)|[(E1 & E2)|(Hlo & Hhi & B1 & B2)]].
  - (* both boundaries are in the left subtree *)
    rewrite E1, E2. simpl andb. cbv iota.
    apply compare_antisym in E1. rewrite E1 in Lmin.
    destruct Lmin as (p1 & -> & Hn1).
    pose proof E2 as E2'. apply compare_antisym in E2'. rewrite E2' in Lmax.
    destruct Lmax as (p2 & -> & Hn2).
    destruct (IHl (q ++ [to_left]) p1 p2) as (q0 & HG & Hfin); trivial.
    { rewrite node_at_app, Hq. reflexivity. }
    { rewrite <- app_assoc. exact Hpmin. }
    { rewrite <- app_assoc. exact Hpmax. }
    exists (to_left :: q0). fold min_n max_n. rewrite HG.
    split; [reflexivity|].
    replace (q ++ to_left :: q0) with ((q ++ [to_left]) ++ q0)
      by (rewrite <- app_assoc; reflexivity).
    rewrite Hfin. do 3 f_equal.
    rewrite between_Nd.
    assert (Hk : between kmin kmax {| pair_key := k; pair_value := v |}
                 = false).
    { unfold between. rewrite (not_above_false kmax); [apply andb_false_r|].
      exact E2'. }
    rewrite Hk. rewrite (filter_none _ _ (inorder r)).
    { rewrite !app_nil_r. reflexivity. }
    intros e He. unfold between.
    rewrite (not_above_false kmax); [apply andb_false_r|].
    apply (lt_le_trans kmax k); [exact E2'|]. apply lt_key_le.
    eapply in_inorder_lt_r; eassumption.
  - (* both boundaries are in the right subtree *)
    rewrite E1, E2. simpl andb. cbv iota.
    pose proof E1 as E1'. apply compare_antisym in E1'. rewrite E1' in Lmin.
    destruct Lmin as (p1 & -> & Hn1).
    pose proof E2 as E2'. apply compare_antisym in E2'. rewrite E2' in Lmax.
    destruct Lmax as (p2 & -> & Hn2).
    destruct (IHr (q ++ [to_right]) p1 p2) as (q0 & HG & Hfin); trivial.
    { rewrite node_at_app, Hq. reflexivity. }
    { rewrite <- app_assoc. exact Hpmin. }
    { rewrite <- app_assoc. exact Hpmax. }
    exists (to_right :: q0). fold min_n max_n. rewrite HG.
    split; [reflexivity|].
    replace (q ++ to_right :: q0) with ((q ++ [to_right]) ++ q0)
      by (rewrite <- app_assoc; reflexivity).
    rewrite Hfin. do 3 f_equal.
    rewrite between_Nd.
    assert (Hk : between kmin kmax {| pair_key := k; pair_value := v |}
                 = false).
    { unfold between. rewrite (not_below_false kmin); [reflexivity|].
      exact E1. }
    rewrite Hk. rewrite (filter_none _ _ (inorder l)).
    { reflexivity. }
    intros e He. unfold between.
    rewrite (not_below_false kmin); [reflexivity|].
    apply (lt_le_trans _ k); [|apply lt_key_le; exact E1].
    eapply in_inorder_lt_l; eassumption.
  - (* the node is the common ancestor *)
    rewrite B1, B2. exists []. split; [reflexivity|].
    rewrite app_nil_r, Hq.
    set (mlc := Nd l k v h rk r) in *.
    set (mce := {| pair_key := k; pair_value := v |}).
    assert (Hmce : pair_of mlc = Some mce) by reflexivity.
    assert (Hstop : forall rel a d,
               CollectRankTraverse tree mlc (rev q) rel a d = Some a).
    { intros rel a d.
      apply (climb_stops tree mlc rel (rev q) a d mce l k v h rk r); trivial.
      - rewrite rev_involutive. exact Hq.
      - apply compare_refl. }
    assert (Hup : CollectRankTraverse tree mlc (rev pmax) max_n acc LEFT_CHILD
                  = Some (rank_add acc
                            (reduce_contributions
                               (filter (not_above kmax) (inorder r))))).
    { destruct (compare kmax k) eqn:E3.
      - exfalso. exact (lt_key_not_le _ _ E3 Hhi).
      - subst pmax0. rewrite app_nil_r in Hpmax. subst pmax.
        rewrite Hstop.
        rewrite (filter_none _ _ (inorder r)).
        + rewrite reduce_nil, rank_add_new. reflexivity.
        + intros e He. apply not_above_false.
          apply (le_lt_trans kmax k); [apply (equal_le _ _ E3)|].
          eapply in_inorder_lt_r; eassumption.
      - destruct Lmax as (p2 & -> & Hn2). subst pmax.
        rewrite rev_app_distr. simpl rev. rewrite <- app_assoc. simpl app.
        rewrite (climb_collects_low tree mlc max_n mce
                   {| pair_key := kmax; pair_value := v2 |} Hmce eq_refl
                   p2 r (to_right :: rev q) acc);
          [ apply Hstop
          | exact Hdr
          | simpl in Hrks; apply Hrks
          | intros x Hx E; specialize (Hhigh x Hx); simpl in E;
            unfold lt_key in Hhigh; congruence
          | simpl rev; rewrite rev_involutive, node_at_app, Hq; reflexivity
          | exact Hn2 ]. }
    assert (Hdown : forall a,
               CollectRankTraverse tree mlc (rev pmin) min_n a RIGHT_CHILD
               = Some (rank_add a
                         (reduce_contributions
                            (filter (not_below kmin) (inorder l))))).
    { intros a. destruct (compare kmin k) eqn:E3.
      - destruct Lmin as (p1 & -> & Hn1). subst pmin.
        rewrite rev_app_distr. simpl rev. rewrite <- app_assoc. simpl app.
        rewrite (climb_collects_high tree mlc min_n mce
                   {| pair_key := kmin; pair_value := v1 |} Hmce eq_refl
                   p1 l (to_left :: rev q) a);
          [ apply Hstop
          | exact Hdl
          | simpl in Hrks; apply Hrks
          | intros x Hx E; specialize (Hlow x Hx); simpl in E;
            apply compare_antisym in Hlow; congruence
          | simpl rev; rewrite rev_involutive, node_at_app, Hq; reflexivity
          | exact Hn1 ].
      - subst pmin0. rewrite app_nil_r in Hpmin. subst pmin.
        rewrite Hstop.
        rewrite (filter_none _ _ (inorder l)).
        + rewrite reduce_nil, rank_add_new. reflexivity.
        + intros e He. apply not_below_false.
          apply (lt_le_trans _ k);
            [|apply (equal_le _ _ (compare_equal_sym _ _ E3))].
          eapply in_inorder_lt_l; eassumption.
      - exfalso. apply compare_antisym in E3.
        exact (lt_key_not_le _ _ E3 Hlo). }
    rewrite Hup. cbv beta iota. rewrite Hdown. unfold mlc.
    rewrite (relative_ROOT _ _ _ _ _ _ _ (every_here _ _ _ _ _ _ _ Hrks)).
    f_equal. rewrite between_Nd.
    assert (Hk : between kmin kmax {| pair_key := k; pair_value := v |}
                 = true).
    { unfold between. rewrite not_below_true, not_above_true; trivial. }
    rewrite Hk.
    rewrite (filter_ext_in (between kmin kmax) (not_below kmin) (inorder l)).
    2:{ intros e He. unfold between. rewrite (not_above_true kmax);
          [apply andb_true_r|].
        apply lt_key_le. apply (lt_le_trans _ k); [|exact Hhi].
        eapply in_inorder_lt_l; eassumption. }
    rewrite (filter_ext_in (between kmin kmax) (not_above kmax) (inorder r)).
    2:{ intros e He. unfold between. rewrite (not_below_true kmin);
          [reflexivity|].
        apply lt_key_le. apply (le_lt_trans _ k); [exact Hlo|].
        eapply in_inorder_lt_r; eassumption. }
    rewrite reduce_contributions_app. simpl app.
    rewrite reduce_contributions_cons. simpl pair_key. simpl pair_value.
    set (Xr := reduce_contributions (filter (not_above kmax) (inorder r))).
    set (Xl := reduce_contributions (filter (not_below kmin) (inorder l))).
    rewrite <- !rank_add_assoc. f_equal.
    rewrite rank_add_comm, <- rank_add_assoc. reflexivity.
Qed.

Lemma not_above_iff (hi : Key) (e : KeyValuePair) :
  not_above hi e = true <-> le_key (pair_key e) hi.
Proof.
  split; [|apply not_above_true].
  unfold not_above, le_key. destruct (compare (pair_key e) hi); simpl;
    intros H; discriminate.
Qed.

Lemma not_below_iff (lo : Key) (e : KeyValuePair) :
  not_below lo e = true <-> le_key lo (pair_key e).
Proof.
  split; [|apply not_below_true].
  unfold not_below. intros H.
  destruct (compare (pair_key e) lo) eqn:E; simpl in H; try discriminate.
  - apply (equal_le _ _ (compare_equal_sym _ _ E)).
  - apply greater_le. exact E.
Qed.

Lemma in_range_bounds (f : FilterObject) (e : KeyValuePair) :
  in_range f e
  = (match min_range f with Some lo => not_below lo e | None => true end)
    && (match max_range f with Some hi => not_above hi e | None => true end).
Proof. unfold in_range. destruct (min_range f), (max_range f); reflexivity. Qed.

(** The upper boundary node of [CollectRank]: an entry of the tree
    whose key bounds from above exactly the entries the upper end of the
    range lets through. *)
Lemma upper_boundary (t : AVLRankTree) (f : FilterObject) :
  invariants t -> distinct_keys (root t) ->
  (exists e, In e (inorder (root t)) /\ in_range f e = true) ->
  exists pmax emax,
    range_boundary t (max_range f) LESS_THAN (max_node t) = Some pmax /\
    pair_of (node_at (root t) pmax) = Some emax /\
    In emax (inorder (root t)) /\
    forall e, In e (inorder (root t)) ->
      match max_range f with Some hi => not_above hi e | None => true end
      = not_above (pair_key emax) e.
Proof.
  intros Hinv Hd (w & Hw & Hin).
  rewrite in_range_bounds in Hin. apply andb_prop in Hin.
  destruct Hin as (_ & Hin).
  unfold range_boundary. destruct (max_range f) as [hi|] eqn:Emax.
  - pose proof (ClosestTraverse_floor (root t) (inv_order Hinv) [] None hi)
      as H.
    cbv zeta in H. destruct H as [(Hout & Hall)|(p & Hout & Hfound)].
    + exfalso. rewrite not_above_false in Hin; [discriminate|].
      apply Hall. apply in_inorder_keys. exact Hw.
    + rewrite Hout. simpl app. exists p.
      destruct Hfound as (e & Hp & He & Hle & Hfl). exists e.
      repeat split; trivial.
      intros e' He'. destruct (not_above (pair_key e) e') eqn:E.
      * apply not_above_iff. apply not_above_iff in E.
        apply (le_key_trans _ (pair_key e)); assumption.
      * destruct (not_above hi e') eqn:E'; [|reflexivity].
        apply not_above_iff in E'.
        rewrite not_above_true in E; [discriminate|].
        apply Hfl; [apply in_inorder_keys; exact He'|exact E'].
  - rewrite (max_pointer_unique (root t) Hd (max_node t) (inv_max Hinv)).
    destruct (root t) as [|l k v h rk r] eqn:Hroot; [destruct Hw|].
    destruct (FindMax_rightmost (Nd l k v h rk r) eq_refl)
      as (path & mk & mv & mh & mrk & ml & rest & Hp & Hn & Hio).
    pose proof (FindMax_extreme (root t) (inv_order Hinv)) as Hext.
    rewrite Hroot, Hp in Hext. unfold points_at_extreme in Hext.
    rewrite Hn in Hext. rewrite Forall_forall in Hext.
    rewrite Hp. exists path, {| pair_key := mk; pair_value := mv |}.
    rewrite Hn. split; [reflexivity|]. split; [reflexivity|].
    split.
    + rewrite Hio. apply in_or_app. right. left. reflexivity.
    + intros e He. symmetry. apply not_above_true. apply Hext.
      apply in_inorder_keys. exact He.
Qed.

Lemma lower_boundary (t : AVLRankTree) (f : FilterObject) :
  invariants t -> distinct_keys (root t) ->
  (exists e, In e (inorder (root t)) /\ in_range f e = true) ->
  exists pmin emin,
    range_boundary t (min_range f) GREATER_THAN (min_node t) = Some pmin /\
    pair_of (node_at (root t) pmin) = Some emin /\
    In emin (inorder (root t)) /\
    forall e, In e (inorder (root t)) ->
      match min_range f with Some lo => not_below lo e | None => true end
      = not_below (pair_key emin) e.
Proof.
  intros Hinv Hd (w & Hw & Hin).
  rewrite in_range_bounds in Hin. apply andb_prop in Hin.
  destruct Hin as (Hin & _).
  unfold range_boundary. destruct (min_range f) as [lo|] eqn:Emin.
  - pose proof (ClosestTraverse_ceiling (root t) (inv_order Hinv) [] None lo)
      as H.
    cbv zeta in H. destruct H as [(Hout & Hall)|(p & Hout & Hfound)].
    + exfalso. rewrite not_below_false in Hin; [discriminate|].
      apply Hall. apply in_inorder_keys. exact Hw.
    + rewrite Hout. simpl app. exists p.
      destruct Hfound as (e & Hp & He & Hle & Hfl). exists e.
      repeat split; trivial.
      intros e' He'. destruct (not_below (pair_key e) e') eqn:E.
      * apply not_below_iff. apply not_below_iff in E.
        apply (le_key_trans _ (pair_key e)); assumption.
      * destruct (not_below lo e') eqn:E'; [|reflexivity].
        apply not_below_iff in E'.
        rewrite not_below_true in E; [discriminate|].
        apply Hfl; [apply in_inorder_keys; exact He'|exact E'].
  - rewrite (min_pointer_unique (root t) Hd (min_node t) (inv_min Hinv)).
    destruct (root t) as [|l k v h rk r] eqn:Hroot; [destruct Hw|].
    destruct (FindMin_leftmost (Nd l k v h rk r) eq_refl)
      as (path & mk & mv & mh & mrk & mr & rest & Hp & Hn & Hio).
    pose proof (FindMin_extreme (root t) (inv_order Hinv)) as Hext.
    rewrite Hroot, Hp in Hext. unfold points_at_extreme in Hext.
    rewrite Hn in Hext. rewrite Forall_forall in Hext.
    rewrite Hp. exists path, {| pair_key := mk; pair_value := mv |}.
    rewrite Hn. split; [reflexivity|]. split; [reflexivity|].
    split.
    + rewrite Hio. left. reflexivity.
    + intros e He. symmetry. apply not_below_true. apply Hext.
      apply in_inorder_keys. exact He.
Qed.

Lemma filter_between_single (L : list KeyValuePair) (e : KeyValuePair)
      (lo : Key) :
  StronglySorted lt_key (map pair_key L) -> In e L ->
  compare (pair_key e) lo = EQUAL ->
  filter (between lo (pair_key e)) L = [e].
Proof.
  intros Hs He E.
  destruct (in_split _ _ He) as (xs & ys & ->).
  rewrite map_app in Hs. simpl map in Hs.
  apply sorted_app_elim in Hs. destruct Hs as (_ & Hey & Hcross).
  apply sorted_cons_elim in Hey. destruct Hey as (_ & Hhigh).
  rewrite filter_app. simpl filter.
  assert (Hb : between lo (pair_key e) e = true).
  { unfold between. rewrite not_below_true, not_above_true;
      [reflexivity|apply le_key_refl|].
    apply (equal_le _ _ (compare_equal_sym _ _ E)). }
  rewrite Hb. rewrite (filter_none _ _ xs), (filter_none _ _ ys);
    [reflexivity| |].
  - intros y Hy. unfold between. rewrite (not_above_false (pair_key e));
      [apply andb_false_r|].
    apply Hhigh. apply in_map. exact Hy.
  - intros x Hx. unfold between. rewrite (not_below_false lo);
      [reflexivity|].
    apply (lt_le_trans _ (pair_key e)); [|apply (equal_le _ _ E)].
    apply Hcross; [apply in_map; exact Hx|left; reflexivity].
Qed.

Lemma node_at_in (p : list link) :
  forall (t : Node) (e : KeyValuePair),
    pair_of (node_at t p) = Some e -> In e (inorder t).
Proof.
  induction p as [|d p IH]; intros t e H.
  - destruct t as [|l k v h rk r]; [discriminate|].
    simpl in H. injection H as <-. simpl. apply in_or_app. right. left.
    reflexivity.
  - destruct t as [|l k v h rk r]; [discriminate|].
    simpl inorder. apply in_or_app.
    destruct d; simpl in H; [left|right; right]; apply IH; exact H.
Qed.

(** The tail of [CollectRank] from two boundary nodes on. *)
Lemma collect_from_boundaries (t : AVLRankTree) (pmax pmin : list link)
      (emax emin : KeyValuePair) :
  distinct_keys (root t) -> every rank_at (root t) ->
  pair_of (node_at (root t) pmax) = Some emax ->
  pair_of (node_at (root t) pmin) = Some emin ->
  le_key (pair_key emin) (pair_key emax) ->
  match node_at (root t) pmax, node_at (root t) pmin with
  | (Nd _ maxk _ _ _ _) as max_n, Nd _ mink _ _ _ _ =>
    if COMPARE_RESULT_eqb (compare maxk mink) EQUAL then
      Some (rank_add rank_new (GetRelativeRank rank_new max_n ROOT))
    else collect_between t pmax pmin rank_new
  | _, _ => None
  end
  = Some (reduce_contributions
            (filter (between (pair_key emin) (pair_key emax))
                    (inorder (root t)))).
Proof.
  intros Hd Hrk Hpmax Hpmin Hle.
  pose proof (node_at_in _ _ _ Hpmax) as Hinmax.
  pose proof (every_node_at rank_at pmax (root t) Hrk) as Hrkmax.
  unfold collect_between.
  destruct (node_at (root t) pmax) as [|a2 kmax v2 h2 r2 b2] eqn:Enmax;
    [discriminate|].
  simpl in Hpmax. injection Hpmax as <-.
  destruct (node_at (root t) pmin) as [|a1 kmin v1 h1 r1 b1] eqn:Enmin;
    [discriminate|].
  simpl in Hpmin. injection Hpmin as <-.
  simpl pair_key in *.
  destruct (compare kmax kmin) eqn:E; simpl COMPARE_RESULT_eqb; cbv iota.
  - exfalso. exact (lt_key_not_le _ _ E Hle).
  - rewrite rank_new_add.
    rewrite (relative_ROOT _ _ _ _ _ _ _ (every_here _ _ _ _ _ _ _ Hrkmax)).
    pose proof (filter_between_single (inorder (root t))
                  {| pair_key := kmax; pair_value := v2 |} kmin Hd Hinmax E)
      as Hone.
    simpl pair_key in Hone. rewrite Hone, reduce_one. reflexivity.
  - apply compare_antisym in E.
    destruct (descend_collect (root t) (Nd a1 kmin v1 h1 r1 b1)
                (Nd a2 kmax v2 h2 r2 b2)
                {| pair_key := kmin; pair_value := v1 |}
                {| pair_key := kmax; pair_value := v2 |}
                pmin pmax rank_new Hd Hrk eq_refl eq_refl E
                (root t) [] pmin pmax eq_refl eq_refl eq_refl Enmin Enmax)
      as (q0 & HG & Hfin).
    rewrite HG. cbv beta iota. simpl deref. simpl app in Hfin.
    rewrite Hfin, rank_new_add. reflexivity.
Qed.

Lemma in_range_between (t : AVLRankTree) (f : FilterObject) :
  invariants t -> distinct_keys (root t) ->
  (exists e, In e (inorder (root t)) /\ in_range f e = true) ->
  exists pmax pmin emax emin,
    range_boundary t (max_range f) LESS_THAN (max_node t) = Some pmax /\
    range_boundary t (min_range f) GREATER_THAN (min_node t) = Some pmin /\
    pair_of (node_at (root t) pmax) = Some emax /\
    pair_of (node_at (root t) pmin) = Some emin /\
    le_key (pair_key emin) (pair_key emax) /\
    filter (in_range f) (inorder (root t))
    = filter (between (pair_key emin) (pair_key emax)) (inorder (root t)).
Proof.
  intros Hinv Hd Hw.
  destruct (upper_boundary t f Hinv Hd Hw)
    as (pmax & emax & Hbmax & Hpmax & Hinmax & Humax).
  destruct (lower_boundary t f Hinv Hd Hw)
    as (pmin & emin & Hbmin & Hpmin & Hinmin & Hlmin).
  exists pmax, pmin, emax, emin. repeat split; trivial.
  - destruct Hw as (w & Hw & Hin).
    rewrite in_range_bounds, (Hlmin w Hw), (Humax w Hw) in Hin.
    apply andb_prop in Hin. destruct Hin as (H1 & H2).
    apply not_below_iff in H1. apply not_above_iff in H2.
    apply (le_key_trans _ (pair_key w)); assumption.
  - apply filter_ext_in. intros e He.
    rewrite in_range_bounds, (Hlmin e He), (Humax e He). reflexivity.
Qed.

Lemma selects_in_range (f : FilterObject) (e : KeyValuePair) :
  FilterFunction f = None -> selects f e = in_range f e.
Proof.
  intros H. unfold selects, in_range. rewrite H. apply andb_true_r.
Qed.

(** Without a predicate, [Query] returns the entries in range, cut to the
    limit. *)
Lemma Query_in_range (t : AVLRankTree) (f : FilterObject) :
  every ordered_at (root t) -> FilterFunction f = None ->
  result (Query t f) = limited f (filter (in_range f) (inorder (root t))).
Proof.
  intros Hord Hff. unfold Query. rewrite (QueryTraverse_selected f _ Hord).
  unfold advance, room, limited, selected. simpl result. simpl total.
  rewrite Z.sub_0_r.
  rewrite (filter_ext (selects f) (in_range f))
    by (intros e; apply selects_in_range; exact Hff).
  reflexivity.
Qed.

(** X23. On a tree satisfying the invariants in which no key occurs twice,
    with no positive limit and a range that holds at least one entry,
    [CollectRank] returns the combine-reduction of the contributions of
    the entries inside the inclusive range; [FilterFunction] and [reverse]
    play no part, and a limit of 0 is no limit.  With a limit of -1 or less
    and no predicate, that is the combine-reduction over the entries
    [Query] returns for the same filter. *)
Theorem CollectRank_range_distinct (t : AVLRankTree) (f : FilterObject) :
  invariants t -> distinct_keys (root t) -> limit f <= 0 ->
  (exists e, In e (inorder (root t)) /\ in_range f e = true) ->
  CollectRank t f
  = Some (reduce_contributions (filter (in_range f) (inorder (root t)))) /\
  (limit f <= -1 -> FilterFunction f = None ->
   CollectRank t f = Some (reduce_contributions (result (Query t f)))).
Proof.
  intros Hinv Hd Hlim Hw.
  destruct (in_range_between t f Hinv Hd Hw)
    as (pmax & pmin & emax & emin & Hbmax & Hbmin & Hpmax & Hpmin & Hle
        & Hfilter).
  pose proof (collect_from_boundaries t pmax pmin emax emin Hd
                (inv_rank Hinv) Hpmax Hpmin Hle) as Hall.
  assert (Hrun : CollectRank t f
                 = Some (reduce_contributions
                           (filter (in_range f) (inorder (root t))))).
  { unfold CollectRank. rewrite Hbmax, Hbmin, Hfilter, <- Hall.
    replace (limit f >? 0) with false
      by (symmetry; rewrite Z.gtb_ltb; apply Z.ltb_ge; exact Hlim).
    reflexivity. }
  split; [exact Hrun|].
  intros Hno Hff. rewrite Hrun, (Query_in_range t f (inv_order Hinv) Hff).
  unfold limited.
  replace (limit f <=? -1) with true by (symmetry; apply Z.leb_le; exact Hno).
  reflexivity.
Qed.

End RangeAggregate.

(** ** The range aggregate with a limit *)

Section WindowAggregate.

Context {Key Value R : Type}.
Context {comparing_func : Compare Key}.
Context {rank_ops : RankInfo Key Value R}.
Context {laws : CompareLaws Key}.
Context {rank_laws : RankLaws Key Value R}.
Context {rank_inverse : RankInverse Key Value R}.
Context {counts : RankCounts Key Value R}.

Local Abbreviation Node := (Node (Key := Key) (Value := Value) (R := R)).
Local Abbreviation AVLRankTree :=
  (AVLRankTree (Key := Key) (Value := Value) (R := R)).
Local Abbreviation KeyValuePair := (KeyValuePair (Key := Key) (Value := Value)).
Local Abbreviation FilterObject :=
  (FilterObject (Key := Key) (Value := Value)).

Lemma sorted_nth_le (L : list KeyValuePair) (i j : nat) (a b : KeyValuePair) :
  StronglySorted lt_key (map pair_key L) ->
  (i <= j)%nat -> nth_error L i = Some a -> nth_error L j = Some b ->
  le_key (pair_key a) (pair_key b).
Proof.
  intros Hs Hij Ha Hb.
  destruct (Nat.eq_dec i j) as [->|Hne].
  - assert (a = b) by congruence. subst b. apply le_key_refl.
  - apply lt_key_le.
    apply (sorted_nth_lt (map pair_key L) Hs i j); [lia| |];
      apply map_nth_error; assumption.
Qed.

Lemma filter_not_above_prefix (L : list KeyValuePair) :
  StronglySorted lt_key (map pair_key L) ->
  forall (j : nat) (b : KeyValuePair),
    nth_error L j = Some b ->
    filter (not_above (pair_key b)) L = firstn (S j) L.
Proof.
  induction L as [|x L IH]; intros Hs j b Hb.
  - destruct j; discriminate.
  - simpl map in Hs. apply sorted_cons_elim in Hs. destruct Hs as (Hs & Hx).
    destruct j as [|j]; simpl in Hb.
    + injection Hb as <-. simpl filter.
      rewrite (not_above_true (pair_key x) x) by apply le_key_refl.
      rewrite filter_none; [reflexivity|].
      intros e He. apply not_above_false. apply Hx. apply in_map. exact He.
    + simpl filter. rewrite (not_above_true (pair_key b) x).
      * rewrite (IH Hs j b Hb). reflexivity.
      * apply lt_key_le. apply Hx. apply in_map.
        eapply nth_error_In. exact Hb.
Qed.

(** In a sequence with strictly increasing keys, the entries between the
    keys at two positions are the entries from the one position to the
    other. *)
Lemma filter_between_segment (L : list KeyValuePair) :
  StronglySorted lt_key (map pair_key L) ->
  forall (i j : nat) (a b : KeyValuePair),
    (i <= j)%nat -> nth_error L i = Some a -> nth_error L j = Some b ->
    filter (between (pair_key a) (pair_key b)) L
    = firstn (j - i + 1) (skipn i L).
Proof.
  induction L as [|x L IH]; intros Hs i j a b Hij Ha Hb.
  - destruct i; discriminate.
  - pose proof Hs as Hs0.
    simpl map in Hs. apply sorted_cons_elim in Hs. destruct Hs as (Hs & Hx).
    destruct i as [|i].
    + simpl in Ha. injection Ha as <-.
      rewrite (filter_ext_in (between (pair_key x) (pair_key b))
                             (not_above (pair_key b)) (x :: L)).
      * rewrite (filter_not_above_prefix (x :: L) Hs0 j b Hb).
        simpl skipn. f_equal. lia.
      * intros e He. unfold between. rewrite not_below_true; [reflexivity|].
        destruct He as [<-|He]; [apply le_key_refl|].
        apply lt_key_le. apply Hx. apply in_map. exact He.
    + destruct j as [|j]; [lia|]. simpl in Ha, Hb.
      simpl filter. unfold between at 1.
      rewrite (not_below_false (pair_key a) x).
      * simpl andb. cbv iota.
        rewrite (IH Hs i j a b ltac:(lia) Ha Hb). reflexivity.
      * apply Hx. apply in_map. eapply nth_error_In. exact Ha.
Qed.

(** The index [GetIndexOfKey] gives to the key of an entry is the position
    of that entry. *)
Lemma index_of_entry (t : AVLRankTree) (e : KeyValuePair) :
  invariants t -> distinct_keys (root t) ->
  In e (inorder (root t)) ->
  0 <= GetIndexOfKey t (pair_key e) < count (root t) /\
  nth_error (inorder (root t)) (Z.to_nat (GetIndexOfKey t (pair_key e)))
  = Some e.
Proof.
  intros Hinv Hd He. unfold GetIndexOfKey.
  destruct (GetIndexOfKeyTraverse_found (root t) (pair_key e) (inv_rank Hinv))
    as (Hi & e' & Hnth & Ee).
  { apply FindTraverse_complete; [apply Hinv|].
    exists (pair_key e). split; [|apply compare_refl].
    apply in_inorder_keys. exact He. }
  split; [exact Hi|].
  destruct (In_nth_error _ _ He) as (j & Hj).
  assert (Hij : j = Z.to_nat (GetIndexOfKeyTraverse (root t) (pair_key e))).
  { apply (sorted_nth_unique (keys (root t)) _ _ (pair_key e) (pair_key e') Hd);
      trivial; unfold keys; apply map_nth_error; assumption. }
  rewrite <- Hij. exact Hj.
Qed.

Lemma entry_at_index (t : AVLRankTree) (index : Z) :
  invariants t ->
  0 <= index < count (root t) ->
  exists p e,
    FindIndexTraverse (root t) (index + 1)
      (rank_num (GetRelativeRank rank_new (root t) LEFT_CHILD))
    = Some (Some p) /\
    pair_of (node_at (root t) p) = Some e /\
    nth_error (inorder (root t)) (Z.to_nat index) = Some e.
Proof.
  intros Hinv Hi. pose proof (inv_rank Hinv) as Hrk.
  rewrite (relative_rank_left (root t) Hrk).
  destruct (root t) as [|l k v h rk r] eqn:Hroot.
  - simpl in Hi. lia.
  - destruct (FindIndexTraverse_spec (Nd l k v h rk r) Hrk 0 (index + 1)
                (count l + 1))
      as (p & e & Hf & Hp & Hnth); try lia.
    + simpl. lia.
    + exists p, e. replace (index + 1 - 0 - 1) with index in Hnth by lia.
      auto.
Qed.

Lemma window_single (f : FilterObject) (e : KeyValuePair) :
  0 < limit f -> window f [e] = [e].
Proof.
  intros Hl. unfold window, high_window, low_window.
  replace (limit f >? 0) with true by (symmetry; apply Z.gtb_lt; exact Hl).
  destruct (reverse f).
  - cbn [length].
    replace (1 - Z.to_nat (limit f))%nat with O by lia.
    reflexivity.
  - replace (Z.to_nat (limit f)) with (S (Z.to_nat (limit f - 1))) by lia.
    simpl. rewrite firstn_nil. reflexivity.
Qed.

Lemma length_segment (A : Type) (L : list A) (i n : nat) :
  (i + n <= length L)%nat -> length (firstn n (skipn i L)) = n.
Proof.
  intros H. rewrite length_firstn, length_skipn. lia.
Qed.

Lemma long_long_bounds :
  LLONG_MIN = - LLONG_MAX - 1 /\ 1 < LLONG_MAX.
Proof. unfold LLONG_MIN, LLONG_MAX. lia. Qed.

Lemma is_long_long_fits (n : Z) :
  LLONG_MIN <= n <= LLONG_MAX -> is_long_long n = true.
Proof.
  intros H. unfold is_long_long. apply andb_true_iff.
  split; apply Z.leb_le; lia.
Qed.

Lemma long_long_add_fits (a b : Z) :
  LLONG_MIN <= a <= LLONG_MAX -> LLONG_MIN <= b <= LLONG_MAX ->
  LLONG_MIN <= a + b <= LLONG_MAX ->
  long_long_add a b = Some (a + b).
Proof.
  intros Ha Hb Hab. unfold long_long_add.
  rewrite !is_long_long_fits by assumption. reflexivity.
Qed.

Lemma long_long_sub_fits (a b : Z) :
  LLONG_MIN <= a <= LLONG_MAX -> LLONG_MIN <= b <= LLONG_MAX ->
  LLONG_MIN <= a - b <= LLONG_MAX ->
  long_long_sub a b = Some (a - b).
Proof.
  intros Ha Hb Hab. unfold long_long_sub.
  rewrite !is_long_long_fits by assumption. reflexivity.
Qed.

(** X24. On a tree satisfying the invariants in which no key occurs twice,
    with a positive limit that added to the size stays within [long long],
    and a range that holds at least one entry, [CollectRank] returns the
    combine-reduction of the contributions of the first [limit] entries
    inside the inclusive range, or of the last [limit] of them when
    [reverse] is set.  Without [reverse] and without predicate, that is the
    combine-reduction over the entries [Query] returns for the same
    filter. *)
Theorem CollectRank_window_distinct (t : AVLRankTree) (f : FilterObject) :
  invariants t -> distinct_keys (root t) -> 0 < limit f ->
  size t + limit f <= LLONG_MAX ->
  (exists e, In e (inorder (root t)) /\ in_range f e = true) ->
  CollectRank t f
  = Some (reduce_contributions
            (window f (filter (in_range f) (inorder (root t))))) /\
  (reverse f = false -> FilterFunction f = None ->
   CollectRank t f = Some (reduce_contributions (result (Query t f)))).
Proof.
  intros Hinv Hd Hlim Hfits Hw.
  assert (Hrun : CollectRank t f
                 = Some (reduce_contributions
                           (window f (filter (in_range f)
                                             (inorder (root t)))))).
  2:{ split; [exact Hrun|].
      intros Hrev Hff.
      rewrite Hrun, (Query_in_range t f (inv_order Hinv) Hff).
      unfold window, low_window, limited. rewrite Hrev.
      replace (limit f >? 0) with true
        by (symmetry; apply Z.gtb_lt; exact Hlim).
      replace (limit f <=? -1) with false
        by (symmetry; apply Z.leb_gt; lia).
      reflexivity. }
  pose proof (inv_rank Hinv) as Hrk. pose proof (inv_size Hinv) as Hsize.
  destruct long_long_bounds as (Hllmin & Hllmax).
  destruct (in_range_between t f Hinv Hd Hw)
    as (pmax & pmin & emax & emin & Hbmax & Hbmin & Hpmax & Hpmin & Hle
        & Hfilter).
  pose proof (node_at_in _ _ _ Hpmax) as Hinmax.
  pose proof (node_at_in _ _ _ Hpmin) as Hinmin.
  destruct (index_of_entry t emax Hinv Hd Hinmax) as (Himax & Hnmax).
  destruct (index_of_entry t emin Hinv Hd Hinmin) as (Himin & Hnmin).
  set (imax := GetIndexOfKey t (pair_key emax)) in *.
  set (imin := GetIndexOfKey t (pair_key emin)) in *.
  set (L := inorder (root t)) in *.
  assert (HlenL : Z.of_nat (length L) = count (root t))
    by (symmetry; apply count_length).
  assert (Hord : imin <= imax).
  { destruct (Z_le_gt_dec imin imax) as [H|H]; [exact H|]. exfalso.
    assert (Hlt : lt_key (pair_key emax) (pair_key emin)).
    { apply (sorted_nth_lt (map pair_key L) Hd (Z.to_nat imax) (Z.to_nat imin));
        [lia| |]; apply map_nth_error; assumption. }
    exact (lt_key_not_le _ _ Hlt Hle). }
  pose proof (filter_between_segment L Hd (Z.to_nat imin) (Z.to_nat imax)
                emin emax ltac:(lia) Hnmin Hnmax) as Hseg.
  rewrite Hfilter, Hseg.
  set (n := (Z.to_nat imax - Z.to_nat imin + 1)%nat) in *.
  assert (Hlenseg : length (firstn n (skipn (Z.to_nat imin) L)) = n)
    by (apply length_segment; subst n; lia).
  pose proof (collect_from_boundaries t pmax pmin emax emin Hd Hrk Hpmax
                Hpmin Hle) as Hall.
  fold L in Hall. rewrite Hseg in Hall. fold n in Hall.
  unfold CollectRank. rewrite Hbmax, Hbmin.
  destruct (node_at (root t) pmax) as [|a2 kmax v2 h2 r2 b2] eqn:Enmax;
    [discriminate|].
  destruct (node_at (root t) pmin) as [|a1 kmin v1 h1 r1 b1] eqn:Enmin;
    [discriminate|].
  pose proof Hpmax as Hkmax. simpl in Hkmax. injection Hkmax as Hkmax.
  pose proof Hpmin as Hkmin. simpl in Hkmin. injection Hkmin as Hkmin.
  destruct (COMPARE_RESULT_eqb (compare kmax kmin) EQUAL) eqn:E.
  { (* one entry in range *)
    rewrite Hall. f_equal. f_equal.
    assert (Hsame : imin = imax).
    { assert (Z.to_nat imin = Z.to_nat imax); [|lia].
      apply (sorted_nth_unique (map pair_key L) _ _ (pair_key emin)
                               (pair_key emax) Hd);
        try (apply map_nth_error; assumption).
      rewrite <- Hkmax, <- Hkmin. simpl.
      apply compare_equal_sym.
      destruct (compare kmax kmin); try discriminate. reflexivity. }
    subst n. rewrite Hsame.
    replace (Z.to_nat imax - Z.to_nat imax + 1)%nat with 1%nat by lia.
    rewrite (skipn_nth_error _ _ _ _ Hnmax). simpl firstn.
    symmetry. apply window_single. exact Hlim. }
  assert (Hpmax' : pair_of (node_at (root t) pmax) = Some emax)
    by (rewrite Enmax; exact Hpmax).
  assert (Hpmin' : pair_of (node_at (root t) pmin) = Some emin)
    by (rewrite Enmin; exact Hpmin).
  replace (limit f >? 0) with true by (symmetry; apply Z.gtb_lt; exact Hlim).
  unfold limit_boundary.
  replace (GetIndexOfKey t kmax) with imax
    by (subst imax; rewrite <- Hkmax; reflexivity).
  replace (GetIndexOfKey t kmin) with imin
    by (subst imin; rewrite <- Hkmin; reflexivity).
  unfold window.
  replace (limit f >? 0) with true by (symmetry; apply Z.gtb_lt; exact Hlim).
  destruct (reverse f).
  - (* the last [limit] entries *)
    unfold high_window. rewrite Hlenseg.
    rewrite (long_long_sub_fits imax (limit f)) by lia. cbv beta iota.
    rewrite (long_long_add_fits (imax - limit f) 1) by lia. cbv beta iota.
    destruct (imax - limit f + 1 >=? imin) eqn:Eidx.
    + assert (Hidx : imin <= imax - limit f + 1) by lia.
      rewrite (long_long_add_fits (imax - limit f + 1) 1) by lia.
      cbv beta iota.
      destruct (entry_at_index t (imax - limit f + 1) Hinv ltac:(lia))
        as (p & e & Hf & Hp & Hnth).
      rewrite Hf. cbv beta iota.
      assert (Hle' : le_key (pair_key e) (pair_key emax)).
      { apply (sorted_nth_le L (Z.to_nat (imax - limit f + 1))
                             (Z.to_nat imax)); trivial; lia. }
      fold L in Hnth.
      rewrite (collect_from_boundaries t pmax p emax e Hd Hrk Hpmax' Hp Hle').
      fold L. f_equal. f_equal.
      rewrite (filter_between_segment L Hd (Z.to_nat (imax - limit f + 1))
                 (Z.to_nat imax) e emax ltac:(lia) Hnth Hnmax).
      rewrite skipn_firstn_comm, skipn_skipn. subst n. f_equal; [lia|].
      f_equal. lia.
    + rewrite Enmax, Enmin, E, Hall. f_equal. f_equal.
      replace (n - Z.to_nat (limit f))%nat with O by (subst n; lia).
      reflexivity.
  - (* the first [limit] entries *)
    unfold low_window.
    rewrite (long_long_add_fits imin (limit f)) by lia. cbv beta iota.
    rewrite (long_long_sub_fits (imin + limit f) 1) by lia. cbv beta iota.
    destruct (imin + limit f - 1 <=? imax) eqn:Eidx.
    + assert (Hidx : imin + limit f - 1 <= imax) by lia.
      rewrite (long_long_add_fits (imin + limit f - 1) 1) by lia.
      cbv beta iota.
      destruct (entry_at_index t (imin + limit f - 1) Hinv ltac:(lia))
        as (p & e & Hf & Hp & Hnth).
      rewrite Hf. cbv beta iota.
      assert (Hle' : le_key (pair_key emin) (pair_key e)).
      { apply (sorted_nth_le L (Z.to_nat imin)
                             (Z.to_nat (imin + limit f - 1))); trivial; lia. }
      fold L in Hnth.
      rewrite (collect_from_boundaries t p pmin e emin Hd Hrk Hp Hpmin' Hle').
      fold L. f_equal. f_equal.
      rewrite (filter_between_segment L Hd (Z.to_nat imin)
                 (Z.to_nat (imin + limit f - 1)) emin e ltac:(lia) Hnmin Hnth).
      rewrite firstn_firstn. f_equal. subst n. lia.
    + rewrite Enmax, Enmin, E, Hall. f_equal. f_equal.
      symmetry. apply firstn_all2. rewrite Hlenseg. subst n. lia.
Qed.

End WindowAggregate.

(** ** The ends of the index range *)

Section IndexEnds.

Context {Key Value R : Type}.
Context {comparing_func : Compare Key}.
Context {rank_ops : RankInfo Key Value R}.
Context {laws : CompareLaws Key}.
Context {rank_laws : RankLaws Key Value R}.
Context {counts : RankCounts Key Value R}.

Local Abbreviation Node := (Node (Key := Key) (Value := Value) (R := R)).
Local Abbreviation AVLRankTree :=
  (AVLRankTree (Key := Key) (Value := Value) (R := R)).

(** X14. On a reachable tree that holds an entry, index 0 is the entry [GetMin]
    returns and index [size - 1] the entry [GetMax] returns. *)
Theorem FindIndex_ends (t : AVLRankTree) :
  reachable t -> 0 < size t ->
  FindIndex t 0 = Some (Returned (GetMin t)) /\
  FindIndex t (size t - 1) = Some (Returned (GetMax t)).
Proof.
  intros Hr Hsz. destruct (reachable_caches t Hr) as (Hinv & Hmin & Hmax).
  pose proof (inv_size Hinv) as Hcount.
  unfold GetMin, GetMax. rewrite Hmin, Hmax.
  destruct (root t) as [|l k v h rk r] eqn:Hroot.
  { simpl in Hcount. lia. }
  rewrite <- Hroot in *.
  assert (Hn : is_null (root t) = false) by (rewrite Hroot; reflexivity).
  destruct (FindMin_leftmost (root t) Hn)
    as (pa & ak & av & ah & ark & ar & arest & Hpa & Hna & Hia).
  destruct (FindMax_rightmost (root t) Hn)
    as (pb & bk & bv & bh & brk & bl & brest & Hpb & Hnb & Hib).
  rewrite Hpa, Hpb. unfold deref. rewrite Hna, Hnb. simpl pair_of.
  split.
  - destruct (FindIndex_nth _ t 0 Hinv ltac:(lia)) as (e & Hnth & Hfi).
    rewrite Hfi. rewrite Hia in Hnth. simpl in Hnth. congruence.
  - destruct (FindIndex_nth _ t (size t - 1) Hinv ltac:(lia))
      as (e & Hnth & Hfi).
    rewrite Hfi. rewrite Hib in Hnth.
    assert (Hlen : Z.to_nat (size t - 1) = length brest).
    { rewrite Hcount, count_length, Hib, length_app. simpl length. lia. }
    rewrite Hlen, nth_error_app2, Nat.sub_diag in Hnth by lia.
    simpl in Hnth. congruence.
Qed.

End IndexEnds.

(** ** Order and size of a query result *)

Section QueryOrder.

Context {Key Value R : Type}.
Context {comparing_func : Compare Key}.
Context {rank_ops : RankInfo Key Value R}.
Context {laws : CompareLaws Key}.

Local Abbreviation Node := (Node (Key := Key) (Value := Value) (R := R)).
Local Abbreviation AVLRankTree :=
  (AVLRankTree (Key := Key) (Value := Value) (R := R)).
Local Abbreviation KeyValuePair := (KeyValuePair (Key := Key) (Value := Value)).
Local Abbreviation FilterObject :=
  (FilterObject (Key := Key) (Value := Value)).

Lemma sorted_filter (p : KeyValuePair -> bool) (l : list KeyValuePair) :
  StronglySorted le_key (map pair_key l) ->
  StronglySorted le_key (map pair_key (filter p l)).
Proof.
  induction l as [|x l IH]; intros Hs; [constructor|].
  simpl map in Hs. apply sorted_cons_elim in Hs. destruct Hs as (Hs & Hx).
  simpl filter. destruct (p x); [|apply IH; exact Hs].
  simpl map. apply sorted_cons_intro; [apply IH; exact Hs|].
  intros y Hy. apply Hx. apply in_map_iff in Hy.
  destruct Hy as (e & <- & He). apply in_map.
  apply filter_In in He. apply He.
Qed.

Lemma sorted_firstn (n : nat) (l : list KeyValuePair) :
  StronglySorted le_key (map pair_key l) ->
  StronglySorted le_key (map pair_key (firstn n l)).
Proof.
  revert n. induction l as [|x l IH]; intros n Hs.
  - rewrite firstn_nil. constructor.
  - destruct n as [|n]; [constructor|].
    simpl map in Hs. apply sorted_cons_elim in Hs. destruct Hs as (Hs & Hx).
    simpl. apply sorted_cons_intro; [apply IH; exact Hs|].
    intros y Hy. apply Hx. apply in_map_iff in Hy.
    destruct Hy as (e & <- & He). apply in_map.
    rewrite <- (firstn_skipn n l). apply in_or_app. left. exact He.
Qed.

Lemma in_room (f : FilterObject) (q : QueryResult) (l : list KeyValuePair)
      (e : KeyValuePair) :
  In e (room f q l) -> In e l.
Proof.
  unfold room. destruct (limit f <=? -1); [trivial|].
  intros H. rewrite <- (firstn_skipn (Z.to_nat (limit f - total q)) l).
  apply in_or_app. left. exact H.
Qed.

(** X20. What [Query] returns is in ascending key order, every entry is an
    entry of the tree that the filter selects, and a limit of 0 or more
    bounds [total]. *)
Theorem Query_ascending_within_limit (t : AVLRankTree) (f : FilterObject) :
  every ordered_at (root t) ->
  StronglySorted le_key (map pair_key (result (Query t f))) /\
  (forall e, In e (result (Query t f)) ->
             In e (inorder (root t)) /\ selects f e = true) /\
  (0 <= limit f -> total (Query t f) <= limit f).
Proof.
  intros Hord. unfold Query. rewrite QueryTraverse_selected by exact Hord.
  unfold advance. simpl result. simpl total.
  split; [|split].
  - unfold room. unfold selected.
    apply ordered_sorted in Hord. unfold keys in Hord.
    destruct (limit f <=? -1);
      [|apply sorted_firstn]; apply sorted_filter; exact Hord.
  - intros e He. apply in_room in He. unfold selected in He.
    apply filter_In in He. exact He.
  - intros Hl. unfold room.
    replace (limit f <=? -1) with false by (symmetry; apply Z.leb_gt; lia).
    simpl total. rewrite Z.sub_0_r.
    pose proof (firstn_le_length (Z.to_nat (limit f)) (selected f (root t))).
    lia.
Qed.

End QueryOrder.

(** ** Rebalancing one node *)

Section BalanceMore.

Context {Key Value R : Type}.
Context {comparing_func : Compare Key}.
Context {rank_ops : RankInfo Key Value R}.
Context {rank_laws : RankLaws Key Value R}.

Local Abbreviation Node := (Node (Key := Key) (Value := Value) (R := R)).

(** X25. [Balance] on a node whose height and aggregate are up to date and
    whose subtrees are well shaped and differ in height by at most two:
    it returns a well-shaped tree with the same in-order sequence, whose
    height is that of the higher subtree or one more. *)
Theorem Balance_restores_shape (l : Node) (k : Key) (v : Value) (r : Node) :
  shaped l -> shaped r ->
  Z.abs (GetHeight l - GetHeight r) <= 2 ->
  exists t,
    Balance (Nd l k v (Z.max (GetHeight l) (GetHeight r) + 1)
                (rank_add (rank_add (rank_of k v) (GetRank l)) (GetRank r)) r)
    = Some t /\
    shaped t /\
    inorder t = inorder l ++ {| pair_key := k; pair_value := v |} :: inorder r /\
    Z.max (GetHeight l) (GetHeight r) <= GetHeight t
    <= Z.max (GetHeight l) (GetHeight r) + 1.
Proof.
  intros Hl Hr Hb.
  destruct (refresh_spec l k v 0 rank_new r Hl Hr Hb)
    as (t & Ht & Hs & _ & Hh & _).
  pose proof (refresh_inorder _ _ _ _ _ _ _ Ht) as Hin.
  unfold refresh in Ht. rewrite UpdateRank_Nd in Ht.
  exists t. auto.
Qed.

End BalanceMore.

(** ** The claims on concrete trees *)

Module Claims.
Import Scenarios Concrete.

Lemma fold_Insert_None (kvs : list (Z * Z)) :
  fold_left (fun acc kv => t <- acc ;; Insert (R := Z) t (fst kv) (snd kv))
            kvs None = None.
Proof. induction kvs as [|kv kvs IH]; simpl; auto. Qed.

Lemma fold_Insert_reachable (kvs : list (Z * Z)) :
  forall t0 t,
    reachable t0 ->
    fold_left (fun acc kv => t <- acc ;; Insert t (fst kv) (snd kv))
              kvs (Some t0) = Some t ->
    reachable t.
Proof.
  induction kvs as [|kv kvs IH]; simpl; intros t0 t H0 H.
  - injection H as <-. exact H0.
  - destruct (Insert t0 (fst kv) (snd kv)) as [t1|] eqn:E.
    + apply (IH t1 t); [|exact H]. eapply reach_Insert; eassumption.
    + rewrite fold_Insert_None in H. discriminate.
Qed.

Lemma tree_of_reachable (kvs : list (Z * Z)) t :
  tree_of kvs = Some t -> reachable t.
Proof.
  intros H.
  apply (fold_Insert_reachable kvs empty_tree t); [apply reach_empty|exact H].
Qed.

Lemma reachable_with_copy_of t :
  reachable (Key := Z) (Value := Z) (R := Z) t -> reachable_with_copy t.
Proof.
  induction 1 as [|a b s Ha IHa Hb IHb Hm|s k v s' Hs IH Hi|s k b s' Hs IH Hr].
  - apply reachc_empty.
  - exact (reachc_merge IHa IHb Hm).
  - exact (reachc_Insert _ _ IH Hi).
  - exact (reachc_Remove _ IH Hr).
Qed.

(** X8, witness: on the keys 1, 2, 3. *)
Example GetIndexOfKey_present_123 :
  0 <= GetIndexOfKey tree_123 3 < size tree_123 /\
  exists e,
    nth_error (result (Query tree_123 default_filter))
              (Z.to_nat (GetIndexOfKey tree_123 3)) = Some e /\
    compare 3 (pair_key e) = EQUAL.
Proof.
  apply (GetIndexOfKey_present (laws := CompareFunc_laws)
                               (counts := DefaultRank_counts Z Z) tree_123 3).
  - exact tree_123_invariants.
  - exists 3. split; [simpl; auto|reflexivity].
Defined.

(** X5, witness: on the keys 1, 2, 3. *)
Example Remove_present_distinct_123 :
  exists t',
    Remove tree_123 2 = Some (true, t') /\
    inorder (root t')
    = [{| pair_key := 1; pair_value := 10 |}]
        ++ [{| pair_key := 3; pair_value := 30 |}] /\
    size t' = size tree_123 - 1 /\
    invariants t' /\ distinct_keys (root t').
Proof.
  apply (Remove_present_distinct (laws := CompareFunc_laws)
           (rank_laws := DefaultRank_laws Z Z) tree_123 2 _ _
           {| pair_key := 2; pair_value := 20 |}).
  - exact tree_123_invariants.
  - exact tree_123_distinct_keys.
  - reflexivity.
  - reflexivity.
Defined.

(** X21, witness: on the keys 1, 2, 3. *)
Example CollectRank_unbounded_distinct_123 :
  CollectRank tree_123 default_filter
  = Some (reduce_contributions (result (Query tree_123 default_filter))).
Proof.
  apply (CollectRank_unbounded_distinct (laws := CompareFunc_laws)
           (rank_laws := DefaultRank_laws Z Z)
           (rank_inverse := DefaultRank_inverse Z Z) tree_123).
  - exact tree_123_invariants.
  - exact tree_123_distinct_keys.
Defined.

(** X22, witness: on the keys 1, 2, 3. *)
Example CollectRank_fallback_distinct_123 :
  CollectRank tree_123 (filter_from 4) = Some 3 /\
  CollectRank tree_123 (filter_up_to 0) = Some 3.
Proof.
  pose proof (CollectRank_fallback_distinct (laws := CompareFunc_laws)
                (rank_laws := DefaultRank_laws Z Z)
                (rank_inverse := DefaultRank_inverse Z Z) tree_123)
    as H.
  split.
  - destruct (H 4 tree_123_invariants tree_123_distinct_keys) as (Hfrom & _).
    apply Hfrom. intros x Hx. simpl in Hx.
    destruct Hx as [<-|[<-|[<-|[]]]]; reflexivity.
  - destruct (H 0 tree_123_invariants tree_123_distinct_keys) as (_ & Hto).
    apply Hto. intros x Hx. simpl in Hx.
    destruct Hx as [<-|[<-|[<-|[]]]]; reflexivity.
Defined.

(** C1, counterexample. Three insertions of the key 1 rotate the first
    entry into the left subtree of an equal key: the tree is reachable and
    breaks invariant 1 as stated (left keys compare less). *)
Lemma equal_key_rotated_left :
  reachable_with_copy tree_111 /\ ~ claimed_invariants tree_111.
Proof.
  split.
  - apply reachable_with_copy_of.
    apply (tree_of_reachable _ _ ScenarioFacts.tree_111_built).
  - intros H. pose proof (inv_order H) as Ho. simpl in Ho.
    destruct Ho as ((Hl & _) & _).
    inversion Hl as [|x xs Hx _]; subst. vm_compute in Hx. discriminate.
Qed.

(** C1, witness. *)
Lemma reachable_invariants_witness :
  reachable tree_123 /\
  invariants tree_123 /\
  (forall k v, exists t', Insert tree_123 k v = Some t') /\
  (forall k, exists b t', Remove tree_123 k = Some (b, t')) /\
  (forall u, reachable u -> exists m, merge_trees tree_123 u = Some m).
Proof.
  assert (H : reachable tree_123)
    by apply (tree_of_reachable _ _ ScenarioFacts.tree_123_built).
  split; [exact H|].
  apply (reachable_invariants (laws := CompareFunc_laws)
                              (rank_laws := DefaultRank_laws Z Z) tree_123 H).
Defined.

(** C2, witness. *)
Lemma FindIndex_is_ith_of_Query_witness :
  invariants tree_123 /\ 0 <= 1 < size tree_123 /\
  exists e,
    nth_error (result (Query tree_123 default_filter)) (Z.to_nat 1) = Some e /\
    FindIndex tree_123 1 = Some (Returned (Some e)).
Proof.
  split; [exact tree_123_invariants|]. split; [simpl; lia|].
  apply (FindIndex_is_ith_of_Query (counts := DefaultRank_counts Z Z)
                                   ordered_at tree_123 1).
  - exact tree_123_invariants.
  - simpl. lia.
Defined.

(** C3. The copy constructor is ill-formed: a program that copies the tree
    holding 1, 2, 3, or the empty tree, is refused when the constructor is
    instantiated, so that no copy comes to exist. *)
Lemma copy_tree_is_ill_formed :
  entries (inorder (root tree_123)) = [(1, 10); (2, 20); (3, 30)] /\
  copy_tree tree_123 = ill_formed /\
  copy_tree (Key := Z) (Value := Z) (R := Z) empty_tree = ill_formed.
Proof. repeat split; reflexivity. Qed.

(** C4. An absent key whose search path turns right is not reported as
    -1: the key 2 in the tree holding only 1 gets index 0, the key 4 in the
    tree holding 1, 2, 3 gets index 2. *)
Lemma GetIndexOfKey_absent_key :
  Find tree_1 2 = None /\ GetIndexOfKey tree_1 2 = 0 /\
  Find tree_123 4 = None /\ GetIndexOfKey tree_123 4 = 2.
Proof. repeat split; reflexivity. Qed.

(** C5, counterexample. With the key 3 present, [Closest(3, LESS_THAN)]
    and [Closest(3, GREATER_THAN)] both return the entry of 3 itself,
    although the tree holds the smaller key 1 and the greater key 5. *)
Lemma Closest_returns_equal_key :
  invariants tree_135 /\
  Closest tree_135 3 LESS_THAN
  = Some {| pair_key := 3; pair_value := 30 |} /\
  Closest tree_135 3 GREATER_THAN
  = Some {| pair_key := 3; pair_value := 30 |} /\
  ~ lt_key 3 3 /\
  In 1 (keys (root tree_135)) /\ lt_key 1 3 /\
  In 5 (keys (root tree_135)) /\ lt_key 3 5.
Proof.
  split; [exact tree_135_invariants|].
  repeat split; try reflexivity; simpl; auto.
  vm_compute. discriminate.
Qed.

(** C5, witness. *)
Lemma Closest_floor_ceiling_witness :
  every ordered_at (root tree_135) /\
  match Closest tree_135 3 LESS_THAN with
  | Some e => In e (inorder (root tree_135)) /\
              floor_of (keys (root tree_135)) 3 (pair_key e)
  | None => forall x, In x (keys (root tree_135)) -> lt_key 3 x
  end /\
  match Closest tree_135 3 GREATER_THAN with
  | Some e => In e (inorder (root tree_135)) /\
              ceiling_of (keys (root tree_135)) 3 (pair_key e)
  | None => forall x, In x (keys (root tree_135)) -> lt_key x 3
  end.
Proof.
  split; [exact (inv_order tree_135_invariants)|].
  apply (Closest_floor_ceiling (laws := CompareFunc_laws) tree_135 3).
  exact (inv_order tree_135_invariants).
Defined.

(** C6. With [limit = 1] and [reverse] set, [Query] returns the first
    selected entry, not the last one. *)
Lemma Query_ignores_reverse :
  reverse filter_last_1 = true /\ limit filter_last_1 = 1 /\
  entries (result (Query tree_123 filter_last_1)) = [(1, 10)] /\
  entries (high_window 1 (selected filter_last_1 (root tree_123)))
  = [(3, 30)] /\
  entries (low_window 1 (selected filter_last_1 (root tree_123)))
  = [(1, 10)].
Proof. repeat split; reflexivity. Qed.

(** C7. The tree holding the key 1 twice satisfies the six invariants as
    stated, and [CollectRank()] returns the contribution of one entry where
    the reduction over [Query()] counts two. *)
Lemma CollectRank_duplicate_keys :
  reachable tree_11 /\ claimed_invariants tree_11 /\
  CollectRank tree_11 default_filter = Some 1 /\
  reduce_contributions (result (Query tree_11 default_filter)) = 2.
Proof.
  split; [apply (tree_of_reachable _ _ ScenarioFacts.tree_11_built)|].
  split; [exact tree_11_claimed_invariants|].
  split; reflexivity.
Qed.

(** C8, witness. *)
Lemma merge_trees_is_two_pointer_merge_witness :
  size tree_123 = count (root tree_123) /\
  size tree_135 = count (root tree_135) /\
  exists t,
    merge_trees tree_123 tree_135 = Some t /\
    inorder (root t)
    = two_pointer_merge (inorder (root tree_123)) (inorder (root tree_135)) /\
    size t = Z.of_nat (length (inorder (root tree_123)))
             + Z.of_nat (length (inorder (root tree_135))) /\
    size t = count (root t).
Proof.
  split; [reflexivity|]. split; [reflexivity|].
  apply (merge_trees_is_two_pointer_merge tree_123 tree_135); reflexivity.
Defined.

(** C9. Removing the key 2, which occurs once, also replaces the entry
    (3,101) by a second copy of (3,100). *)
Lemma Remove_damages_other_entries :
  reachable tree_dup /\
  entries (inorder (root tree_dup))
  = [(1, 104); (1, 105); (2, 103); (3, 100); (3, 101); (3, 102)] /\
  exists t,
    Remove tree_dup 2 = Some (true, t) /\
    entries (inorder (root t))
    = [(1, 104); (1, 105); (3, 100); (3, 100); (3, 102)].
Proof.
  split; [apply (tree_of_reachable _ _ ScenarioFacts.tree_dup_built)|].
  split; [reflexivity|]. eexists. split; reflexivity.
Qed.

(** C10. On the tree holding the key 1 twice, a [min_range] of 2 (above
    every key) and a [max_range] of 0 (below every key) both make
    [CollectRank] return the contribution of one entry, not the full-tree
    aggregate 2. *)
Lemma CollectRank_fallback_duplicate_keys :
  reachable tree_11 /\
  Forall (fun k => lt_key k 2) (keys (root tree_11)) /\
  Forall (fun k => lt_key 0 k) (keys (root tree_11)) /\
  CollectRank tree_11 (filter_from (Value := Z) 2) = Some 1 /\
  CollectRank tree_11 (filter_up_to (Value := Z) 0) = Some 1 /\
  reduce_contributions (inorder (root tree_11)) = 2.
Proof.
  split; [apply (tree_of_reachable _ _ ScenarioFacts.tree_11_built)|].
  repeat split; try reflexivity; repeat constructor.
Qed.

End Claims.

(** ** The further results on concrete trees *)

Module Examples.
Import Scenarios Concrete.

Lemma tree_123_reachable : reachable tree_123.
Proof. apply (Claims.tree_of_reachable _ _ ScenarioFacts.tree_123_built). Qed.

Lemma tree_123_without (k : Z) :
  k < 1 \/ 3 < k ->
  forall x, In x (keys (root tree_123)) -> compare k x <> EQUAL.
Proof.
  intros Hk x Hx. simpl in Hx. unfold compare, CompareFunc.
  destruct Hx as [<-|[<-|[<-|[]]]];
    destruct (k <? _) eqn:E1; try discriminate;
    destruct (k >? _) eqn:E2; try discriminate;
    apply Z.ltb_ge in E1; rewrite Z.gtb_ltb in E2; apply Z.ltb_ge in E2; lia.
Qed.

(** X1, witness. *)
Lemma Find_equal_key_123 :
  every ordered_at (root tree_123) /\
  match Find tree_123 2 with
  | Some e => In e (inorder (root tree_123)) /\ compare 2 (pair_key e) = EQUAL
  | None => forall x, In x (keys (root tree_123)) -> compare 2 x <> EQUAL
  end.
Proof.
  split; [exact (inv_order tree_123_invariants)|].
  apply (Find_equal_key (laws := CompareFunc_laws) tree_123 2).
  exact (inv_order tree_123_invariants).
Defined.

(** X2, witness. *)
Lemma Insert_adds_entry_123 :
  invariants tree_123 /\
  exists t' xs ys,
    Insert tree_123 4 40 = Some t' /\
    inorder (root tree_123) = xs ++ ys /\
    inorder (root t') = xs ++ entry 4 40 :: ys /\
    Forall (fun e => le_key (pair_key e) 4) xs /\
    Forall (fun e => lt_key 4 (pair_key e)) ys /\
    size t' = size tree_123 + 1.
Proof.
  split; [exact tree_123_invariants|].
  apply (Insert_adds_entry (laws := CompareFunc_laws)
                           (rank_laws := DefaultRank_laws Z Z) tree_123 4 40).
  exact tree_123_invariants.
Defined.

(** X3, witness. *)
Lemma Insert_then_Find_123 :
  invariants tree_123 /\
  exists t' e,
    Insert tree_123 4 40 = Some t' /\
    Find t' 4 = Some e /\
    compare 4 (pair_key e) = EQUAL /\
    ((forall x, In x (keys (root tree_123)) -> compare 4 x <> EQUAL) ->
     e = entry 4 40).
Proof.
  split; [exact tree_123_invariants|].
  apply (Insert_then_Find (laws := CompareFunc_laws)
                          (rank_laws := DefaultRank_laws Z Z) tree_123 4 40).
  exact tree_123_invariants.
Defined.

(** X4, witness. *)
Lemma Remove_absent_123 :
  (forall x, In x (keys (root tree_123)) -> compare 4 x <> EQUAL) /\
  Remove tree_123 4 = Some (false, tree_123).
Proof.
  split; [apply tree_123_without; lia|].
  apply (Remove_absent tree_123 4). apply tree_123_without. lia.
Defined.

(** X6, witness. *)
Lemma Remove_then_Find_123 :
  invariants tree_123 /\ distinct_keys (root tree_123) /\
  exists b t', Remove tree_123 2 = Some (b, t') /\ Find t' 2 = None.
Proof.
  split; [exact tree_123_invariants|].
  split; [exact tree_123_distinct_keys|].
  apply (Remove_then_Find (laws := CompareFunc_laws)
                          (rank_laws := DefaultRank_laws Z Z) tree_123 2).
  - exact tree_123_invariants.
  - exact tree_123_distinct_keys.
Defined.

(** X7, witness. *)
Lemma Insert_then_Remove_123 :
  invariants tree_123 /\ distinct_keys (root tree_123) /\
  (forall x, In x (keys (root tree_123)) -> compare 4 x <> EQUAL) /\
  exists t1 t2,
    Insert tree_123 4 40 = Some t1 /\
    Remove t1 4 = Some (true, t2) /\
    inorder (root t2) = inorder (root tree_123) /\
    size t2 = size tree_123 /\
    invariants t2.
Proof.
  split; [exact tree_123_invariants|].
  split; [exact tree_123_distinct_keys|].
  split; [apply tree_123_without; lia|].
  apply (Insert_then_Remove (laws := CompareFunc_laws)
                            (rank_laws := DefaultRank_laws Z Z) tree_123 4 40).
  - exact tree_123_invariants.
  - exact tree_123_distinct_keys.
  - apply tree_123_without. lia.
Defined.

(** X9, witness. *)
Lemma GetIndexOfKey_counts_smaller_123 :
  invariants tree_123 /\
  match Find tree_123 4 with
  | None => GetIndexOfKey tree_123 4 = keys_below 4 (root tree_123) - 1
  | Some _ =>
    distinct_keys (root tree_123) ->
    GetIndexOfKey tree_123 4 = keys_below 4 (root tree_123)
  end.
Proof.
  split; [exact tree_123_invariants|].
  apply (GetIndexOfKey_counts_smaller (laws := CompareFunc_laws)
           (counts := DefaultRank_counts Z Z) tree_123 4).
  exact tree_123_invariants.
Defined.


(** X11, witness. *)
Lemma subscript_of_GetIndexOfKey_123 :
  invariants tree_123 /\
  (exists x, In x (keys (root tree_123)) /\ compare 3 x = EQUAL) /\
  exists e,
    subscript tree_123 (GetIndexOfKey tree_123 3) = Some (Returned (Some e)) /\
    In e (inorder (root tree_123)) /\
    compare 3 (pair_key e) = EQUAL.
Proof.
  assert (H3 : exists x, In x (keys (root tree_123)) /\ compare 3 x = EQUAL)
    by (exists 3; split; [simpl; auto|reflexivity]).
  split; [exact tree_123_invariants|]. split; [exact H3|].
  apply (subscript_of_GetIndexOfKey (laws := CompareFunc_laws)
           (counts := DefaultRank_counts Z Z) tree_123 3).
  - exact tree_123_invariants.
  - exact H3.
Defined.

(** X12, witness. *)
Lemma GetIndexOfKey_of_FindIndex_123 :
  invariants tree_123 /\ distinct_keys (root tree_123) /\
  0 <= 2 < size tree_123 /\
  exists e,
    FindIndex tree_123 2 = Some (Returned (Some e)) /\
    GetIndexOfKey tree_123 (pair_key e) = 2.
Proof.
  split; [exact tree_123_invariants|].
  split; [exact tree_123_distinct_keys|].
  split; [simpl; lia|].
  apply (GetIndexOfKey_of_FindIndex (laws := CompareFunc_laws)
           (counts := DefaultRank_counts Z Z) tree_123 2).
  - exact tree_123_invariants.
  - exact tree_123_distinct_keys.
  - simpl. lia.
Defined.

(** X13, witness. *)
Lemma GetMin_GetMax_ends_123 :
  reachable tree_123 /\
  GetMin tree_123 = hd_error (result (Query tree_123 default_filter)) /\
  GetMax tree_123 = hd_error (rev (result (Query tree_123 default_filter))).
Proof.
  split; [exact tree_123_reachable|].
  apply (GetMin_GetMax_ends (laws := CompareFunc_laws)
                            (rank_laws := DefaultRank_laws Z Z) tree_123).
  exact tree_123_reachable.
Defined.

(** X14, witness. *)
Lemma FindIndex_ends_123 :
  reachable tree_123 /\ 0 < size tree_123 /\
  FindIndex tree_123 0 = Some (Returned (GetMin tree_123)) /\
  FindIndex tree_123 (size tree_123 - 1)
  = Some (Returned (GetMax tree_123)).
Proof.
  split; [exact tree_123_reachable|]. split; [simpl; lia|].
  apply (FindIndex_ends (laws := CompareFunc_laws)
                        (rank_laws := DefaultRank_laws Z Z)
                        (counts := DefaultRank_counts Z Z) tree_123).
  - exact tree_123_reachable.
  - simpl. lia.
Defined.

(** X15, witness. *)
Lemma GetHeight_logarithmic_123 :
  invariants tree_123 /\
  2 ^ ((GetTreeHeight tree_123 + 2) / 2) <= GetSize tree_123 + 1
  <= 2 ^ (GetTreeHeight tree_123 + 1).
Proof.
  split; [exact tree_123_invariants|].
  apply (GetHeight_logarithmic tree_123). exact tree_123_invariants.
Defined.

(** X16, witness. *)
Lemma merge_trees_keeps_entries_123_135 :
  size tree_123 = count (root tree_123) /\
  size tree_135 = count (root tree_135) /\
  exists t,
    merge_trees tree_123 tree_135 = Some t /\
    Permutation (inorder (root t))
                (inorder (root tree_123) ++ inorder (root tree_135)).
Proof.
  split; [reflexivity|]. split; [reflexivity|].
  apply (merge_trees_keeps_entries tree_123 tree_135); reflexivity.
Defined.

(** X17, witness. *)
Lemma merge_trees_height_123_135 :
  size tree_123 = count (root tree_123) /\
  size tree_135 = count (root tree_135) /\
  exists t,
    merge_trees tree_123 tree_135 = Some t /\
    GetTreeHeight t = if GetSize t =? 0 then -1 else Z.log2 (GetSize t).
Proof.
  split; [reflexivity|]. split; [reflexivity|].
  apply (merge_trees_height tree_123 tree_135); reflexivity.
Defined.

(** X18, witness. *)
Lemma merge_trees_with_empty_123 :
  invariants tree_123 /\
  (exists c,
     merge_trees tree_123 empty_tree = Some c /\
     inorder (root c) = inorder (root tree_123) /\ size c = size tree_123 /\
     invariants c) /\
  (exists c,
     merge_trees empty_tree tree_123 = Some c /\
     inorder (root c) = inorder (root tree_123) /\ size c = size tree_123 /\
     invariants c).
Proof.
  split; [exact tree_123_invariants|].
  apply (merge_trees_with_empty (laws := CompareFunc_laws)
                                (rank_laws := DefaultRank_laws Z Z) tree_123).
  exact tree_123_invariants.
Defined.

Lemma tree_123_in_range (f : FilterObject) :
  in_range f (entry 2 20) = true ->
  exists e, In e (inorder (root tree_123)) /\ in_range f e = true.
Proof. intros H. exists (entry 2 20). split; [simpl; auto|exact H]. Qed.

(** X19, witness. *)
Lemma Query_selected_123 :
  every ordered_at (root tree_123) /\
  result (Query tree_123 filter_3_8_limit_3)
  = limited filter_3_8_limit_3 (selected filter_3_8_limit_3 (root tree_123)) /\
  total (Query tree_123 filter_3_8_limit_3)
  = Z.of_nat (length (result (Query tree_123 filter_3_8_limit_3))).
Proof.
  split; [exact (inv_order tree_123_invariants)|].
  apply (Query_selected (laws := CompareFunc_laws) tree_123
                        filter_3_8_limit_3).
  exact (inv_order tree_123_invariants).
Defined.

(** X20, witness. *)
Lemma Query_ascending_within_limit_123 :
  every ordered_at (root tree_123) /\
  StronglySorted le_key
    (map pair_key (result (Query tree_123 filter_first_2))) /\
  (forall e, In e (result (Query tree_123 filter_first_2)) ->
             In e (inorder (root tree_123)) /\
             selects filter_first_2 e = true) /\
  (0 <= limit filter_first_2 ->
   total (Query tree_123 filter_first_2) <= limit filter_first_2).
Proof.
  split; [exact (inv_order tree_123_invariants)|].
  apply (Query_ascending_within_limit (laws := CompareFunc_laws) tree_123
                                      filter_first_2).
  exact (inv_order tree_123_invariants).
Defined.

(** X23, witness. *)
Lemma CollectRank_range_distinct_123 :
  invariants tree_123 /\ distinct_keys (root tree_123) /\
  limit filter_2_3 <= 0 /\
  (exists e, In e (inorder (root tree_123)) /\ in_range filter_2_3 e = true) /\
  CollectRank tree_123 filter_2_3
  = Some (reduce_contributions
            (filter (in_range filter_2_3) (inorder (root tree_123)))) /\
  (limit filter_2_3 <= -1 -> FilterFunction filter_2_3 = None ->
   CollectRank tree_123 filter_2_3
   = Some (reduce_contributions (result (Query tree_123 filter_2_3)))).
Proof.
  split; [exact tree_123_invariants|].
  split; [exact tree_123_distinct_keys|].
  split; [simpl; lia|].
  split; [apply tree_123_in_range; reflexivity|].
  apply (CollectRank_range_distinct (laws := CompareFunc_laws)
           (rank_laws := DefaultRank_laws Z Z)
           (rank_inverse := DefaultRank_inverse Z Z) tree_123 filter_2_3).
  - exact tree_123_invariants.
  - exact tree_123_distinct_keys.
  - simpl. lia.
  - apply tree_123_in_range. reflexivity.
Defined.

(** X24, witness. *)
Lemma CollectRank_window_distinct_123 :
  invariants tree_123 /\ distinct_keys (root tree_123) /\
  0 < limit filter_first_2 /\
  size tree_123 + limit filter_first_2 <= LLONG_MAX /\
  (exists e, In e (inorder (root tree_123)) /\
             in_range filter_first_2 e = true) /\
  CollectRank tree_123 filter_first_2
  = Some (reduce_contributions
            (window filter_first_2
                    (filter (in_range filter_first_2)
                            (inorder (root tree_123))))) /\
  (reverse filter_first_2 = false -> FilterFunction filter_first_2 = None ->
   CollectRank tree_123 filter_first_2
   = Some (reduce_contributions (result (Query tree_123 filter_first_2)))).
Proof.
  split; [exact tree_123_invariants|].
  split; [exact tree_123_distinct_keys|].
  split; [simpl; lia|].
  split; [unfold LLONG_MAX; simpl; lia|].
  split; [apply tree_123_in_range; reflexivity|].
  apply (CollectRank_window_distinct (laws := CompareFunc_laws)
           (rank_laws := DefaultRank_laws Z Z)
           (rank_inverse := DefaultRank_inverse Z Z)
           (counts := DefaultRank_counts Z Z) tree_123 filter_first_2).
  - exact tree_123_invariants.
  - exact tree_123_distinct_keys.
  - simpl. lia.
  - unfold LLONG_MAX. simpl. lia.
  - apply tree_123_in_range. reflexivity.
Defined.

(** X26, witness. *)
Lemma GetNodePosition_distinct_123 :
  distinct_keys (root tree_123) /\
  is_null (node_at (root tree_123) (rev [to_right])) = false /\
  GetNodePosition (root tree_123) [to_right]
  = Some (position_of [to_right]).
Proof.
  split; [exact tree_123_distinct_keys|]. split; [reflexivity|].
  apply (GetNodePosition_distinct (laws := CompareFunc_laws)
                                  (root tree_123) [to_right]).
  - exact tree_123_distinct_keys.
  - reflexivity.
Defined.

Lemma chain_23_shaped : shaped chain_23.
Proof. unfold shaped. simpl. repeat split; reflexivity || lia. Qed.

(** X25, witness. *)
Lemma Balance_restores_shape_chain :
  shaped (@NULL Z Z Z) /\
  shaped chain_23 /\
  Z.abs (GetHeight (@NULL Z Z Z) - GetHeight chain_23) <= 2 /\
  exists t,
    Balance (Nd NULL 1 10 2 3 chain_23) = Some t /\
    shaped t /\
    inorder t = entry 1 10 :: inorder chain_23 /\
    1 <= GetHeight t <= 2.
Proof.
  split; [apply shaped_NULL|]. split; [exact chain_23_shaped|].
  split; [simpl; lia|].
  apply (Balance_restores_shape (rank_laws := DefaultRank_laws Z Z)
                                (@NULL Z Z Z) 1 10 chain_23).
  - apply shaped_NULL.
  - exact chain_23_shaped.
  - simpl. lia.
Defined.

End Examples.
